(** * Evergrid: the viewport coordinator and the layout-source update engine

    A shallow embedding of [EvergridLayout] (the viewport / transform
    coordinator) and of [LayoutSource] (the recycling update engine), with the
    properties of the specification stated and settled against them.

    Conventions of the embedding.

    - JavaScript numbers are idealised: coordinates, scales and velocities are
      rationals ([Q], compared with [==]), counters and handles are integers
      ([Z]).  Non-finite values ([NaN], [Infinity]) are outside the model, so a
      division is only meaningful where the divisor is not zero; the source
      guards the divisions the properties below are about.
    - A method that mutates [this] is a function on an explicit state; a method
      that can throw runs in a small state-and-exception monad in which the
      state reached at the moment of the throw is kept, as it is in the source.
    - Calls to collaborators outside the two classes (layout sources seen from
      the coordinator, the animation framework, the console, the host view) are
      recorded in a trace kept in the state. *)

From Stdlib Require Import QArith Qabs Qround ZArith Lia Lqa List Bool.
From stdpp Require Import gmap strings list fin_maps.

Set Default Proof Using "Type".

(** ** Points *)

Record IPoint : Type := mkPoint { x : Q; y : Q }.

(** [Partial<IPoint>]: either component may be undefined. *)
Record PartialPoint : Type := mkPartial { px : option Q; py : option Q }.

Definition zeroPoint : IPoint := {| x := 0; y := 0 |}.

(** Equality of points up to the representation of the rationals. *)
Definition point_eq (p q : IPoint) : Prop := (x p == x q)%Q /\ (y p == y q)%Q.

Definition point_sub (p q : IPoint) : IPoint :=
  {| x := x p - x q; y := y p - y q |}.

(** [a === 0] on numbers. *)
Definition isZero (a : Q) : bool := Qeq_bool a 0.

(** [a < b] and [a >= b] on numbers. *)
Definition Qltb (a b : Q) : bool :=
  match (a ?= b)%Q with Lt => true | _ => false end.
Definition Qgeb (a b : Q) : bool := negb (Qltb a b).

(** ** Outcomes of methods that can throw *)

Inductive outcome (A : Type) : Type :=
| Returned (a : A)
| Thrown (message : string).
Arguments Returned {A} a.
Arguments Thrown {A} message.

(** A method of an object whose fields are [S]: the fields after the call are
    returned on both outcomes. *)
Definition M (S A : Type) : Type := S -> outcome A * S.

Definition ret {S A} (a : A) : M S A := fun s => (Returned a, s).
Definition throw {S A} (message : string) : M S A := fun s => (Thrown message, s).
Definition bind {S A B} (m : M S A) (k : A -> M S B) : M S B :=
  fun s => match m s with
           | (Returned a, s') => k a s'
           | (Thrown e, s') => (Thrown e, s')
           end.
Definition modify {S} (f : S -> S) : M S unit := fun s => (Returned tt, f s).
Definition gets {S A} (f : S -> A) : M S A := fun s => (Returned (f s), s).
(** [try { m } catch (error) { h error }] *)
Definition try_catch {S A} (m : M S A) (h : string -> M S A) : M S A :=
  fun s => match m s with
           | (Returned a, s') => (Returned a, s')
           | (Thrown e, s') => h e s'
           end.

Declare Scope method_scope.
Delimit Scope method_scope with method.
Notation "v <- m ;; k" := (bind m (fun v => k))
  (at level 100, m at next level, right associativity) : method_scope.
Notation "m ;;; k" := (bind m (fun _ => k))
  (at level 100, right associativity) : method_scope.

(** A method [respects] a relation on states when the state it leaves, on
    return or on throw, is related to the state it was called in. *)
Definition respects {S A} (R : S -> S -> Prop) (m : M S A) : Prop :=
  forall s, R s (snd (m s)).
(** ** The viewport / transform coordinator ([EvergridLayout]) *)

Module EvergridLayout.

Local Open Scope Q_scope.

Definition kPanSpeedMin : Q := 1 # 1000.

(** [IScrollInfo], handed to the [snapToLocation] callback. *)
Record IScrollInfo : Type := mkScrollInfo {
  info_location : IPoint;
  info_velocity : IPoint;
  info_offset : IPoint;
  info_scaledVelocity : IPoint
}.

(** The animations the coordinator creates: [Animated.decay] on the pan
    target, [Animated.timing] and [Animated.spring] on the base location. *)
Inductive AnimationKind : Type :=
| Decay (velocity : IPoint)
| Timing (toValue : IPoint)
| Spring (toValue velocity : IPoint).

(** [started]: the coordinator called [start] with its completion handler;
    [notifiesOnEnd]: that handler also calls the caller's [onEnd]. *)
Record Animation : Type := mkAnimation {
  kind : AnimationKind;
  started : bool;
  notifiesOnEnd : bool
}.

(** [_panTarget$] is the coordinator's own [viewOffset$] unless the
    [panTarget] option supplied another animated value. *)
Inductive PanTarget : Type := ViewOffsetTarget | ExternalTarget.

(** Calls that leave the coordinator, in the order they are made. *)
Inductive Effect : Type :=
| Update_called
| LayoutSource_setNeedsUpdate (layoutSource : nat)
| Animation_start (a : Animation)
| Animation_stop (a : Animation)
| OnEnd_called (finished : bool)
| Interaction_created (handle : Z)
| Interaction_cleared (handle : Z)
| ExternalTarget_setValue (p : IPoint)
| SnapToLocation_called (info : IScrollInfo)
| Callback_called (name : string).

(** The fields of the class that the modelled methods read or write.  Layout
    sources are named by their position of registration; [handleCounter] is the
    interaction manager's counter of handles; [effects] is the trace. *)
Record State : Type := mkState {
  _layoutSources : list nat;
  _locationOffsetBase : IPoint;
  _scale : IPoint;
  _hasScale : bool;
  _anchor : IPoint;
  _panVelocty : IPoint;
  _panStarted : bool;
  _panDefaultPrevented : bool;
  _panTarget : PanTarget;
  _descelerationAnimation : option Animation;
  _viewOffset : IPoint;
  _containerSize : IPoint;
  _hasContainerSize : bool;
  _interactionHandle : Z;
  _updateDepth : Z;
  _updateTimer : option Z;
  snapToLocation : option (IScrollInfo -> option PartialPoint);
  handleCounter : Z;
  effects : list Effect
}.

(** Field assignments. *)

Definition set_locationOffsetBase (v : IPoint) (s : State) : State :=
  {| _layoutSources := _layoutSources s; _locationOffsetBase := v;
     _scale := _scale s; _hasScale := _hasScale s; _anchor := _anchor s;
     _panVelocty := _panVelocty s; _panStarted := _panStarted s;
     _panDefaultPrevented := _panDefaultPrevented s; _panTarget := _panTarget s;
     _descelerationAnimation := _descelerationAnimation s;
     _viewOffset := _viewOffset s; _containerSize := _containerSize s;
     _hasContainerSize := _hasContainerSize s;
     _interactionHandle := _interactionHandle s; _updateDepth := _updateDepth s;
     _updateTimer := _updateTimer s; snapToLocation := snapToLocation s;
     handleCounter := handleCounter s; effects := effects s |}.

Definition set_scale (v : IPoint) (s : State) : State :=
  {| _layoutSources := _layoutSources s;
     _locationOffsetBase := _locationOffsetBase s; _scale := v;
     _hasScale := _hasScale s; _anchor := _anchor s; _panVelocty := _panVelocty s;
     _panStarted := _panStarted s; _panDefaultPrevented := _panDefaultPrevented s;
     _panTarget := _panTarget s; _descelerationAnimation := _descelerationAnimation
     s; _viewOffset := _viewOffset s; _containerSize := _containerSize s;
     _hasContainerSize := _hasContainerSize s;
     _interactionHandle := _interactionHandle s; _updateDepth := _updateDepth s;
     _updateTimer := _updateTimer s; snapToLocation := snapToLocation s;
     handleCounter := handleCounter s; effects := effects s |}.

Definition set_hasScale (v : bool) (s : State) : State :=
  {| _layoutSources := _layoutSources s;
     _locationOffsetBase := _locationOffsetBase s; _scale := _scale s;
     _hasScale := v; _anchor := _anchor s; _panVelocty := _panVelocty s;
     _panStarted := _panStarted s; _panDefaultPrevented := _panDefaultPrevented s;
     _panTarget := _panTarget s; _descelerationAnimation := _descelerationAnimation
     s; _viewOffset := _viewOffset s; _containerSize := _containerSize s;
     _hasContainerSize := _hasContainerSize s;
     _interactionHandle := _interactionHandle s; _updateDepth := _updateDepth s;
     _updateTimer := _updateTimer s; snapToLocation := snapToLocation s;
     handleCounter := handleCounter s; effects := effects s |}.

Definition set_anchor (v : IPoint) (s : State) : State :=
  {| _layoutSources := _layoutSources s;
     _locationOffsetBase := _locationOffsetBase s; _scale := _scale s;
     _hasScale := _hasScale s; _anchor := v; _panVelocty := _panVelocty s;
     _panStarted := _panStarted s; _panDefaultPrevented := _panDefaultPrevented s;
     _panTarget := _panTarget s; _descelerationAnimation := _descelerationAnimation
     s; _viewOffset := _viewOffset s; _containerSize := _containerSize s;
     _hasContainerSize := _hasContainerSize s;
     _interactionHandle := _interactionHandle s; _updateDepth := _updateDepth s;
     _updateTimer := _updateTimer s; snapToLocation := snapToLocation s;
     handleCounter := handleCounter s; effects := effects s |}.

Definition set_panVelocty (v : IPoint) (s : State) : State :=
  {| _layoutSources := _layoutSources s;
     _locationOffsetBase := _locationOffsetBase s; _scale := _scale s;
     _hasScale := _hasScale s; _anchor := _anchor s; _panVelocty := v;
     _panStarted := _panStarted s; _panDefaultPrevented := _panDefaultPrevented s;
     _panTarget := _panTarget s; _descelerationAnimation := _descelerationAnimation
     s; _viewOffset := _viewOffset s; _containerSize := _containerSize s;
     _hasContainerSize := _hasContainerSize s;
     _interactionHandle := _interactionHandle s; _updateDepth := _updateDepth s;
     _updateTimer := _updateTimer s; snapToLocation := snapToLocation s;
     handleCounter := handleCounter s; effects := effects s |}.

Definition set_panStarted (v : bool) (s : State) : State :=
  {| _layoutSources := _layoutSources s;
     _locationOffsetBase := _locationOffsetBase s; _scale := _scale s;
     _hasScale := _hasScale s; _anchor := _anchor s; _panVelocty := _panVelocty s;
     _panStarted := v; _panDefaultPrevented := _panDefaultPrevented s;
     _panTarget := _panTarget s; _descelerationAnimation := _descelerationAnimation
     s; _viewOffset := _viewOffset s; _containerSize := _containerSize s;
     _hasContainerSize := _hasContainerSize s;
     _interactionHandle := _interactionHandle s; _updateDepth := _updateDepth s;
     _updateTimer := _updateTimer s; snapToLocation := snapToLocation s;
     handleCounter := handleCounter s; effects := effects s |}.

Definition set_panDefaultPrevented (v : bool) (s : State) : State :=
  {| _layoutSources := _layoutSources s;
     _locationOffsetBase := _locationOffsetBase s; _scale := _scale s;
     _hasScale := _hasScale s; _anchor := _anchor s; _panVelocty := _panVelocty s;
     _panStarted := _panStarted s; _panDefaultPrevented := v;
     _panTarget := _panTarget s; _descelerationAnimation := _descelerationAnimation
     s; _viewOffset := _viewOffset s; _containerSize := _containerSize s;
     _hasContainerSize := _hasContainerSize s;
     _interactionHandle := _interactionHandle s; _updateDepth := _updateDepth s;
     _updateTimer := _updateTimer s; snapToLocation := snapToLocation s;
     handleCounter := handleCounter s; effects := effects s |}.

Definition set_descelerationAnimation (v : option Animation) (s : State) : State :=
  {| _layoutSources := _layoutSources s;
     _locationOffsetBase := _locationOffsetBase s; _scale := _scale s;
     _hasScale := _hasScale s; _anchor := _anchor s; _panVelocty := _panVelocty s;
     _panStarted := _panStarted s; _panDefaultPrevented := _panDefaultPrevented s;
     _panTarget := _panTarget s; _descelerationAnimation := v;
     _viewOffset := _viewOffset s; _containerSize := _containerSize s;
     _hasContainerSize := _hasContainerSize s;
     _interactionHandle := _interactionHandle s; _updateDepth := _updateDepth s;
     _updateTimer := _updateTimer s; snapToLocation := snapToLocation s;
     handleCounter := handleCounter s; effects := effects s |}.

Definition set_viewOffset (v : IPoint) (s : State) : State :=
  {| _layoutSources := _layoutSources s;
     _locationOffsetBase := _locationOffsetBase s; _scale := _scale s;
     _hasScale := _hasScale s; _anchor := _anchor s; _panVelocty := _panVelocty s;
     _panStarted := _panStarted s; _panDefaultPrevented := _panDefaultPrevented s;
     _panTarget := _panTarget s; _descelerationAnimation := _descelerationAnimation
     s; _viewOffset := v; _containerSize := _containerSize s;
     _hasContainerSize := _hasContainerSize s;
     _interactionHandle := _interactionHandle s; _updateDepth := _updateDepth s;
     _updateTimer := _updateTimer s; snapToLocation := snapToLocation s;
     handleCounter := handleCounter s; effects := effects s |}.

Definition set_containerSize (v : IPoint) (s : State) : State :=
  {| _layoutSources := _layoutSources s;
     _locationOffsetBase := _locationOffsetBase s; _scale := _scale s;
     _hasScale := _hasScale s; _anchor := _anchor s; _panVelocty := _panVelocty s;
     _panStarted := _panStarted s; _panDefaultPrevented := _panDefaultPrevented s;
     _panTarget := _panTarget s; _descelerationAnimation := _descelerationAnimation
     s; _viewOffset := _viewOffset s; _containerSize := v;
     _hasContainerSize := _hasContainerSize s;
     _interactionHandle := _interactionHandle s; _updateDepth := _updateDepth s;
     _updateTimer := _updateTimer s; snapToLocation := snapToLocation s;
     handleCounter := handleCounter s; effects := effects s |}.

Definition set_hasContainerSize (v : bool) (s : State) : State :=
  {| _layoutSources := _layoutSources s;
     _locationOffsetBase := _locationOffsetBase s; _scale := _scale s;
     _hasScale := _hasScale s; _anchor := _anchor s; _panVelocty := _panVelocty s;
     _panStarted := _panStarted s; _panDefaultPrevented := _panDefaultPrevented s;
     _panTarget := _panTarget s; _descelerationAnimation := _descelerationAnimation
     s; _viewOffset := _viewOffset s; _containerSize := _containerSize s;
     _hasContainerSize := v; _interactionHandle := _interactionHandle s;
     _updateDepth := _updateDepth s; _updateTimer := _updateTimer s;
     snapToLocation := snapToLocation s; handleCounter := handleCounter s;
     effects := effects s |}.

Definition set_interactionHandle (v : Z) (s : State) : State :=
  {| _layoutSources := _layoutSources s;
     _locationOffsetBase := _locationOffsetBase s; _scale := _scale s;
     _hasScale := _hasScale s; _anchor := _anchor s; _panVelocty := _panVelocty s;
     _panStarted := _panStarted s; _panDefaultPrevented := _panDefaultPrevented s;
     _panTarget := _panTarget s; _descelerationAnimation := _descelerationAnimation
     s; _viewOffset := _viewOffset s; _containerSize := _containerSize s;
     _hasContainerSize := _hasContainerSize s; _interactionHandle := v;
     _updateDepth := _updateDepth s; _updateTimer := _updateTimer s;
     snapToLocation := snapToLocation s; handleCounter := handleCounter s;
     effects := effects s |}.

Definition set_updateDepth (v : Z) (s : State) : State :=
  {| _layoutSources := _layoutSources s;
     _locationOffsetBase := _locationOffsetBase s; _scale := _scale s;
     _hasScale := _hasScale s; _anchor := _anchor s; _panVelocty := _panVelocty s;
     _panStarted := _panStarted s; _panDefaultPrevented := _panDefaultPrevented s;
     _panTarget := _panTarget s; _descelerationAnimation := _descelerationAnimation
     s; _viewOffset := _viewOffset s; _containerSize := _containerSize s;
     _hasContainerSize := _hasContainerSize s;
     _interactionHandle := _interactionHandle s; _updateDepth := v;
     _updateTimer := _updateTimer s; snapToLocation := snapToLocation s;
     handleCounter := handleCounter s; effects := effects s |}.

Definition set_updateTimer (v : option Z) (s : State) : State :=
  {| _layoutSources := _layoutSources s;
     _locationOffsetBase := _locationOffsetBase s; _scale := _scale s;
     _hasScale := _hasScale s; _anchor := _anchor s; _panVelocty := _panVelocty s;
     _panStarted := _panStarted s; _panDefaultPrevented := _panDefaultPrevented s;
     _panTarget := _panTarget s; _descelerationAnimation := _descelerationAnimation
     s; _viewOffset := _viewOffset s; _containerSize := _containerSize s;
     _hasContainerSize := _hasContainerSize s;
     _interactionHandle := _interactionHandle s; _updateDepth := _updateDepth s;
     _updateTimer := v; snapToLocation := snapToLocation s;
     handleCounter := handleCounter s; effects := effects s |}.

Definition set_handleCounter (v : Z) (s : State) : State :=
  {| _layoutSources := _layoutSources s;
     _locationOffsetBase := _locationOffsetBase s; _scale := _scale s;
     _hasScale := _hasScale s; _anchor := _anchor s; _panVelocty := _panVelocty s;
     _panStarted := _panStarted s; _panDefaultPrevented := _panDefaultPrevented s;
     _panTarget := _panTarget s; _descelerationAnimation := _descelerationAnimation
     s; _viewOffset := _viewOffset s; _containerSize := _containerSize s;
     _hasContainerSize := _hasContainerSize s;
     _interactionHandle := _interactionHandle s; _updateDepth := _updateDepth s;
     _updateTimer := _updateTimer s; snapToLocation := snapToLocation s;
     handleCounter := v; effects := effects s |}.

Definition set_effects (v : list Effect) (s : State) : State :=
  {| _layoutSources := _layoutSources s;
     _locationOffsetBase := _locationOffsetBase s; _scale := _scale s;
     _hasScale := _hasScale s; _anchor := _anchor s; _panVelocty := _panVelocty s;
     _panStarted := _panStarted s; _panDefaultPrevented := _panDefaultPrevented s;
     _panTarget := _panTarget s; _descelerationAnimation := _descelerationAnimation
     s; _viewOffset := _viewOffset s; _containerSize := _containerSize s;
     _hasContainerSize := _hasContainerSize s;
     _interactionHandle := _interactionHandle s; _updateDepth := _updateDepth s;
     _updateTimer := _updateTimer s; snapToLocation := snapToLocation s;
     handleCounter := handleCounter s; effects := v |}.
Definition log (e : Effect) (s : State) : State :=
  set_effects (effects s ++ [e]) s.

Local Open Scope method_scope.

(** *** Geometry *)

Definition containerSize (s : State) : IPoint := _containerSize s.
Definition viewOffset (s : State) : IPoint := _viewOffset s.
Definition panVelocity (s : State) : IPoint := _panVelocty s.
Definition scale (s : State) : IPoint := _scale s.

Definition containerOriginOffset (s : State) : IPoint :=
  let (x0, y0) := _anchor s in
  let (width, height) := containerSize s in
  {| x := - width * x0; y := - height * y0 |}.

Definition locationOffset (s : State) : IPoint :=
  {| x := x (_locationOffsetBase s) + x (_viewOffset s) / x (_scale s);
     y := y (_locationOffsetBase s) + y (_viewOffset s) / y (_scale s) |}.

Definition scaleVector (point : IPoint) (s : State) : IPoint :=
  {| x := x point * x (_scale s); y := y point * y (_scale s) |}.

Definition unscaleVector (point : IPoint) (s : State) : IPoint :=
  if isZero (x (_scale s)) || isZero (y (_scale s)) then zeroPoint
  else {| x := x point / x (_scale s); y := y point / y (_scale s) |}.

Definition contentVelocity (s : State) : IPoint :=
  unscaleVector (_panVelocty s) s.

(** [if (options.scale.x) scale.x *= options.scale.x]: the factor applies when
    it is defined and not zero. *)
Definition scaleBy (factor : option Q) (a : Q) : Q :=
  match factor with
  | Some k => if isZero k then a else a * k
  | None => a
  end.

Definition getContainerLocation
    (point : IPoint) (options_scale : option PartialPoint) (s : State) : IPoint :=
  let (xl0, yl0) := _locationOffsetBase s in
  let (x0, y0) := containerOriginOffset s in
  let cp := {| x := x (_viewOffset s) - x0; y := y (_viewOffset s) - y0 |} in
  let scale :=
    match options_scale with
    | Some o => {| x := scaleBy (px o) (x (_scale s));
                   y := scaleBy (py o) (y (_scale s)) |}
    | None => {| x := x (_scale s); y := y (_scale s) |}
    end in
  {| x := x cp + (x point + xl0) * x scale;
     y := y cp + (y point + yl0) * y scale |}.

Definition getLocation (point : IPoint) (s : State) : IPoint :=
  if isZero (x (_scale s)) || isZero (y (_scale s)) then zeroPoint
  else
    let (xl0, yl0) := _locationOffsetBase s in
    let (x0, y0) := containerOriginOffset s in
    {| x := - xl0 - (x point - x0) / x (_scale s);
       y := - yl0 - (y point - y0) / y (_scale s) |}.

(** *** Update batching *)

(** Truthiness of [_updateTimer]: [undefined] and [0] are falsy. *)
Definition timerSet (t : option Z) : bool :=
  match t with
  | Some n => negb (n =? 0)%Z
  | None => false
  end.

Definition cancelScheduledUpdate (s : State) : State :=
  if timerSet (_updateTimer s) then set_updateTimer (Some 0%Z) s else s.

(** The two conditions [update] waits for. *)
Definition containerSizeValid (s : State) : bool :=
  Qgeb (x (_containerSize s)) 1 && Qgeb (y (_containerSize s)) 1.

Definition scaleValid (s : State) : bool :=
  negb (isZero (x (_scale s))) && negb (isZero (y (_scale s))).

(** [None] stands for the [return] of a wait. *)
Definition update (s : State) : State :=
  let s := cancelScheduledUpdate (log Update_called s) in
  match (if negb (_hasContainerSize s) then
           if containerSizeValid s then Some (set_hasContainerSize true s)
           else None
         else Some s) with
  | None => s
  | Some s =>
      match (if negb (_hasScale s) then
               if scaleValid s then Some (set_hasScale true s) else None
             else Some s) with
      | None => s
      | Some s =>
          fold_left
            (fun s layoutSource => log (LayoutSource_setNeedsUpdate layoutSource) s)
            (_layoutSources s) s
      end
  end.

Definition scheduleUpdate (s : State) : State :=
  if timerSet (_updateTimer s) then s else update s.

Definition beginUpdate (s : State) : State :=
  set_updateDepth (_updateDepth s + 1)%Z s.

Definition endUpdate : M State unit :=
  modify (fun s => set_updateDepth (_updateDepth s - 1)%Z s) ;;;
  depth <- gets _updateDepth ;;
  if (depth <? 0)%Z then
    modify (set_updateDepth 0%Z) ;;;
    throw "Mismatched begin/end update calls"
  else if (0 <? depth)%Z then ret tt
  else modify scheduleUpdate.

Definition setNeedsUpdate : M State unit :=
  modify beginUpdate ;;; endUpdate.

Definition needsUpdate (s : State) : bool :=
  (0 <? _updateDepth s)%Z || timerSet (_updateTimer s).

(** *** Listeners of the animated values

    [v.setValue(p)] notifies the listener the constructor registered on [v],
    synchronously and with [p]. *)

Definition didChangeLocation : M State unit := setNeedsUpdate.

Definition didChangeAnchor : M State unit := setNeedsUpdate.

Definition didChangeViewportSize : M State unit :=
  setNeedsUpdate ;;; modify (log (Callback_called "onViewportSizeChanged")).

Definition didChangeContainerSize : M State unit := didChangeViewportSize.

Definition didChangeScale : M State unit :=
  modify (log (Callback_called "onScaleChanged")) ;;; setNeedsUpdate.

Definition containerSize_listener (p : IPoint) : M State unit :=
  s <- gets id ;;
  if Qle_bool (x p) 0 || Qle_bool (y p) 0 then ret tt
  else if Qltb (Qabs (x p - x (_containerSize s))) 1
          && Qltb (Qabs (y p - y (_containerSize s))) 1 then ret tt
  else modify (set_containerSize p) ;;; didChangeContainerSize.

Definition scale_listener (p : IPoint) : M State unit :=
  s <- gets id ;;
  if isZero (x p) || isZero (y p) then ret tt
  else if Qeq_bool (x p) (x (_scale s)) && Qeq_bool (y p) (y (_scale s)) then ret tt
  else modify (set_scale p) ;;; didChangeScale.

Definition anchor_listener (p : IPoint) : M State unit :=
  s <- gets id ;;
  if Qeq_bool (x p) (x (_anchor s)) && Qeq_bool (y p) (y (_anchor s)) then ret tt
  else modify (set_anchor p) ;;; didChangeAnchor.

Definition locationOffsetBase_listener (p : IPoint) : M State unit :=
  modify (set_locationOffsetBase p) ;;; didChangeLocation.

Definition _onViewOffsetChange (p : IPoint) : M State unit :=
  modify (set_viewOffset p) ;;; setNeedsUpdate.

Definition panVelocty_listener (p : IPoint) : M State unit :=
  modify (set_panVelocty p).

(** [this._panTarget$.setValue(p)] *)
Definition panTarget_setValue (p : IPoint) : M State unit :=
  target <- gets _panTarget ;;
  match target with
  | ViewOffsetTarget => _onViewOffsetChange p
  | ExternalTarget => modify (log (ExternalTarget_setValue p))
  end.

(** *** Interaction tokens, deceleration and programmatic scroll *)

Definition _startInteraction (s : State) : State :=
  if (_interactionHandle s =? 0)%Z then
    let handle := (handleCounter s + 1)%Z in
    log (Interaction_created handle)
        (set_interactionHandle handle (set_handleCounter handle s))
  else s.

Definition _endInteration (s : State) : State :=
  if negb (_interactionHandle s =? 0)%Z then
    set_interactionHandle 0%Z (log (Interaction_cleared (_interactionHandle s)) s)
  else s.

Definition _transferViewOffsetToLocation : M State unit :=
  modify beginUpdate ;;;
  s <- gets id ;;
  let location :=
    {| x := x (_locationOffsetBase s) + x (_viewOffset s) / x (_scale s);
       y := y (_locationOffsetBase s) + y (_viewOffset s) / y (_scale s) |} in
  modify (set_viewOffset zeroPoint) ;;;
  modify (set_locationOffsetBase location) ;;;
  locationOffsetBase_listener location ;;;
  endUpdate.

Definition _onStartDeceleration (s : State) : State := _startInteraction s.

Definition _onEndDeceleration (finished : bool) : M State unit :=
  _transferViewOffsetToLocation ;;;
  panTarget_setValue zeroPoint ;;;
  modify (set_descelerationAnimation None) ;;;
  modify _endInteration.

(** [this._descelerationAnimation?.stop()]: stopping an animation that was
    started runs its completion handler at once, with [finished: false]. *)
Definition stopDesceleration : M State unit :=
  current <- gets _descelerationAnimation ;;
  match current with
  | None => ret tt
  | Some a =>
      modify (log (Animation_stop a)) ;;;
      if started a then
        _onEndDeceleration false ;;;
        if notifiesOnEnd a then modify (log (OnEnd_called false)) else ret tt
      else ret tt
  end.

(** The options of [scrollToOffset] and [scrollBy].  [timing]: a timing
    configuration was given; [spring]: a spring configuration was given, with
    or without a velocity; [onEnd]: a completion callback was given. *)
Record ScrollOptions : Type := mkScrollOptions {
  offset : PartialPoint;
  animated : bool;
  timing : bool;
  spring : option (option IPoint);
  manualStart : bool;
  onEnd : bool
}.

Definition scrollToOffset (options : ScrollOptions) : M State (option Animation) :=
  panStarted <- gets _panStarted ;;
  if panStarted then ret None
  else
    base <- gets _locationOffsetBase ;;
    match px (offset options), py (offset options) with
    | None, None => ret None
    | ox, oy =>
        let offset := {| x := default (x base) ox; y := default (y base) oy |} in
        stopDesceleration ;;;
        modify (set_descelerationAnimation None) ;;;
        modify _startInteraction ;;;
        _transferViewOffsetToLocation ;;;
        if negb (animated options) then
          locationOffsetBase_listener offset ;;;
          _onEndDeceleration true ;;;
          (if onEnd options then modify (log (OnEnd_called true)) else ret tt) ;;;
          ret None
        else
          velocity <- gets contentVelocity ;;
          let animationKind :=
            if timing options then Timing offset
            else Spring offset
                   match spring options with
                   | Some (Some v) => v
                   | _ => velocity
                   end in
          if negb (manualStart options) then
            let a := {| kind := animationKind; started := true;
                        notifiesOnEnd := onEnd options |} in
            modify (set_descelerationAnimation (Some a)) ;;;
            modify _onStartDeceleration ;;;
            modify (log (Animation_start a)) ;;;
            ret (Some a)
          else
            let a := {| kind := animationKind; started := false;
                        notifiesOnEnd := false |} in
            modify (set_descelerationAnimation (Some a)) ;;;
            modify _endInteration ;;;
            ret (Some a)
    end.

Definition scrollBy (options : ScrollOptions) : M State (option Animation) :=
  base <- gets _locationOffsetBase ;;
  match px (offset options), py (offset options) with
  | None, None => ret None
  | dx, dy =>
      let target :=
        {| px := Some (match dx with Some d => x base + d | None => x base end);
           py := Some (match dy with Some d => y base + d | None => y base end) |} in
      scrollToOffset
        {| offset := target; animated := animated options;
           timing := timing options; spring := spring options;
           manualStart := manualStart options; onEnd := onEnd options |}
  end.

(** *** The end of a pan gesture *)

Definition isPanningContent (s : State) : bool :=
  _panStarted s && negb (_panDefaultPrevented s).

Definition isZeroVelocity (panVelocity : IPoint) : bool :=
  Qltb (Qabs (x panVelocity)) kPanSpeedMin
  && Qltb (Qabs (y panVelocity)) kPanSpeedMin.

Definition _onEndPan : M State unit :=
  modify (set_panStarted false) ;;;
  handled <- gets _panDefaultPrevented ;;
  offset <- gets locationOffset ;;
  panVelocity <- gets panVelocity ;;
  velocity <- gets contentVelocity ;;
  target <- gets _panTarget ;;
  match target with
  | ViewOffsetTarget =>
      snap <- gets snapToLocation ;;
      handled <-
        match snap with
        | Some callback =>
            if negb handled then
              viewOffset <- gets viewOffset ;;
              let scrollInfo :=
                {| info_location := offset; info_velocity := velocity;
                   info_offset := viewOffset; info_scaledVelocity := panVelocity |} in
              modify (log (SnapToLocation_called scrollInfo)) ;;;
              match callback scrollInfo with
              | Some maybeScrollLocation =>
                  let scrollOffset :=
                    {| px := Some (default (x offset) (px maybeScrollLocation));
                       py := Some (default (y offset) (py maybeScrollLocation)) |} in
                  scrollToOffset
                    {| offset := scrollOffset; animated := true; timing := false;
                       spring := Some (Some velocity); manualStart := false;
                       onEnd := false |} ;;;
                  ret true
              | None => ret handled
              end
            else ret handled
        | None => ret handled
        end ;;
      if negb handled then
        if negb (isZeroVelocity panVelocity) then
          let a := {| kind := Decay panVelocity; started := true;
                      notifiesOnEnd := false |} in
          modify (set_descelerationAnimation (Some a)) ;;;
          modify _onStartDeceleration ;;;
          modify (log (Animation_start a))
        else _onEndDeceleration true
      else ret tt
  | ExternalTarget => ret tt
  end ;;;
  modify (set_panVelocty zeroPoint).

Definition preventDefaultPan : M State unit :=
  prevented <- gets _panDefaultPrevented ;;
  if prevented then ret tt
  else
    modify (set_panDefaultPrevented true) ;;;
    panStarted <- gets _panStarted ;;
    if panStarted then _onEndPan else ret tt.

(** *** Sample states

    [constructed] is a coordinator as the constructor leaves it when no option
    is given but the anchor: unit scale, zero offsets, no container size yet,
    nothing latched, no pan or animation. *)

Definition constructed (layoutSources : list nat) (anchor : IPoint) : State :=
  {| _layoutSources := layoutSources;
     _locationOffsetBase := zeroPoint;
     _scale := {| x := 1; y := 1 |};
     _hasScale := false;
     _anchor := anchor;
     _panVelocty := zeroPoint;
     _panStarted := false;
     _panDefaultPrevented := false;
     _panTarget := ViewOffsetTarget;
     _descelerationAnimation := None;
     _viewOffset := zeroPoint;
     _containerSize := zeroPoint;
     _hasContainerSize := false;
     _interactionHandle := 0;
     _updateDepth := 0;
     _updateTimer := None;
     snapToLocation := None;
     handleCounter := 0;
     effects := [] |}.

(** A coordinator in the middle of a pan: 300 x 300 container, centre anchor,
    both latches set, the gesture has moved the view by 40 pixels. *)
Definition panning (velocity : IPoint) : State :=
  set_panVelocty velocity
    (set_panStarted true
       (set_interactionHandle 1%Z
          (set_handleCounter 1%Z
             (set_viewOffset {| x := - (40); y := 0 |}
                (set_hasScale true
                   (set_hasContainerSize true
                      (set_containerSize {| x := 300; y := 300 |}
                         (constructed [0%nat; 1%nat] {| x := 1 # 2; y := 1 # 2 |})))))))).

(** *** Observations on states and traces *)

Definition bothLatched (s : State) : bool :=
  _hasContainerSize s && _hasScale s.

(** How many times [update] was entered, which layout sources were sent
    [setNeedsUpdate], which animations were started. *)
Definition updateCount (trace : list Effect) : nat :=
  length (List.filter (fun e => match e with Update_called => true | _ => false end) trace).

Definition notifications (trace : list Effect) : list nat :=
  flat_map (fun e => match e with
                     | LayoutSource_setNeedsUpdate layoutSource => [layoutSource]
                     | _ => []
                     end) trace.

Definition startedAnimations (trace : list Effect) : list Animation :=
  flat_map (fun e => match e with Animation_start a => [a] | _ => [] end) trace.

(** The release is fast: the magnitude of the velocity reaches [kPanSpeedMin]
    on at least one axis. *)
Definition fastRelease (velocity : IPoint) : Prop :=
  kPanSpeedMin <= Qabs (x velocity) \/ kPanSpeedMin <= Qabs (y velocity).

(** What [_onEndPan] hands to [snapToLocation], and the callback being absent
    or answering [undefined] to it. *)
Definition scrollInfoAtRelease (s : State) : IScrollInfo :=
  {| info_location := locationOffset s; info_velocity := contentVelocity s;
     info_offset := viewOffset s; info_scaledVelocity := panVelocity s |}.

Definition snapDeclines (s : State) : Prop :=
  match snapToLocation s with
  | Some callback => callback (scrollInfoAtRelease s) = None
  | None => True
  end.

(** The decay animation [_onEndPan] starts. *)
Definition decayOf (velocity : IPoint) : Animation :=
  {| kind := Decay velocity; started := true; notifiesOnEnd := false |}.

(** Effects other than a notification of a layout source. *)
Definition silent (e : Effect) : Prop :=
  match e with LayoutSource_setNeedsUpdate _ => False | _ => True end.

(** The relation of the update preconditions: a latch that is set stays set,
    no layout source is notified while a latch is still open, the depth stays
    non-negative, the timer stays unset and the registered layout sources stay
    the same. *)
Record evolves (s s' : State) : Prop := mkEvolves {
  ev_size : _hasContainerSize s = true -> _hasContainerSize s' = true;
  ev_scale : _hasScale s = true -> _hasScale s' = true;
  ev_quiet : bothLatched s' = false ->
             notifications (effects s') = notifications (effects s);
  ev_depth : (0 <= _updateDepth s)%Z -> (0 <= _updateDepth s')%Z;
  ev_timer : timerSet (_updateTimer s) = false ->
             timerSet (_updateTimer s') = false;
  ev_sources : _layoutSources s' = _layoutSources s
}.

(** What the update machinery leaves alone: every field but the depth, the
    latches, the timer and the trace, and in the trace the animations. *)
Record settled (s s' : State) : Prop := mkSettled {
  st_locationOffsetBase : _locationOffsetBase s' = _locationOffsetBase s;
  st_scale : _scale s' = _scale s;
  st_panVelocty : _panVelocty s' = _panVelocty s;
  st_panStarted : _panStarted s' = _panStarted s;
  st_panDefaultPrevented : _panDefaultPrevented s' = _panDefaultPrevented s;
  st_panTarget : _panTarget s' = _panTarget s;
  st_descelerationAnimation : _descelerationAnimation s' = _descelerationAnimation s;
  st_viewOffset : _viewOffset s' = _viewOffset s;
  st_interactionHandle : _interactionHandle s' = _interactionHandle s;
  st_timer : timerSet (_updateTimer s) = false -> timerSet (_updateTimer s') = false;
  st_animations : startedAnimations (effects s') = startedAnimations (effects s)
}.

(** [n] calls of [beginUpdate], [n] calls of [endUpdate]. *)
Fixpoint beginUpdates (n : nat) (s : State) : State :=
  match n with
  | O => s
  | S n => beginUpdates n (beginUpdate s)
  end.

Fixpoint endUpdates (n : nat) : M State unit :=
  match n with
  | O => ret tt
  | S n => endUpdate ;;; endUpdates n
  end.

(** The calls a coordinator receives: from its clients, from the listeners of
    its animated values and from the animation framework when the running
    animation completes. *)
Inductive Call : Type :=
| Call_beginUpdate
| Call_endUpdate
| Call_setNeedsUpdate
| Call_scheduleUpdate
| Call_update
| Call_cancelScheduledUpdate
| Event_containerSize (p : IPoint)
| Event_scale (p : IPoint)
| Event_anchor (p : IPoint)
| Event_locationOffsetBase (p : IPoint)
| Event_viewOffset (p : IPoint)
| Event_panVelocity (p : IPoint)
| Event_animationEnd (finished : bool)
| Call_scrollToOffset (options : ScrollOptions)
| Call_scrollBy (options : ScrollOptions)
| Call_onEndPan
| Call_preventDefaultPan.

Definition void {A} (m : M State A) : M State unit := m ;;; ret tt.

Definition perform (c : Call) : M State unit :=
  match c with
  | Call_beginUpdate => modify beginUpdate
  | Call_endUpdate => endUpdate
  | Call_setNeedsUpdate => setNeedsUpdate
  | Call_scheduleUpdate => modify scheduleUpdate
  | Call_update => modify update
  | Call_cancelScheduledUpdate => modify cancelScheduledUpdate
  | Event_containerSize p => containerSize_listener p
  | Event_scale p => scale_listener p
  | Event_anchor p => anchor_listener p
  | Event_locationOffsetBase p => locationOffsetBase_listener p
  | Event_viewOffset p => _onViewOffsetChange p
  | Event_panVelocity p => panVelocty_listener p
  | Event_animationEnd finished =>
      current <- gets _descelerationAnimation ;;
      match current with
      | Some a =>
          if started a then
            _onEndDeceleration finished ;;;
            if notifiesOnEnd a then modify (log (OnEnd_called finished)) else ret tt
          else ret tt
      | None => ret tt
      end
  | Call_scrollToOffset options => void (scrollToOffset options)
  | Call_scrollBy options => void (scrollBy options)
  | Call_onEndPan => _onEndPan
  | Call_preventDefaultPan => preventDefaultPan
  end.

(** The state after a sequence of calls; a call that throws leaves the state it
    reached and the next call goes on from there. *)
Definition run (calls : list Call) (s : State) : State :=
  fold_left (fun s c => snd (perform c s)) calls s.

(** *** Further methods *)

(** [Math.floor] and [Math.ceil]. *)
Definition Math_floor (a : Q) : Q := inject_Z (Qfloor a).
Definition Math_ceil (a : Q) : Q := inject_Z (Qceiling a).

Definition getVisibleLocationRange (s : State) : IPoint * IPoint :=
  let (width, height) := containerSize s in
  if Qltb width 1 || Qltb height 1 then (zeroPoint, zeroPoint)
  else
    let (x_, y_) := viewOffset s in
    let scale := scale s in
    let startOffset := {| x := Math_ceil x_; y := Math_floor y_ |} in
    let endOffset := {| x := Math_floor (x_ - width); y := Math_ceil (y_ - height) |} in
    let (startOffset, endOffset) :=
      if Qltb (x scale) 0
      then ({| x := x endOffset; y := y startOffset |},
            {| x := x startOffset; y := y endOffset |})
      else (startOffset, endOffset) in
    let (startOffset, endOffset) :=
      if Qltb (y scale) 0
      then ({| x := x startOffset; y := y endOffset |},
            {| x := x endOffset; y := y startOffset |})
      else (startOffset, endOffset) in
    let start := getLocation startOffset s in
    let end_ := getLocation endOffset s in
    if Qgeb (x start) (x end_) || Qgeb (y start) (y end_)
    then (zeroPoint, zeroPoint)
    else (start, end_).

(** The corners [getVisibleLocationRange] converts: the view offset and the
    view offset less the container size, rounded, and swapped on an axis whose
    scale is negative. *)
Definition visibleStartOffset (s : State) : IPoint :=
  {| x := if Qltb (x (_scale s)) 0
          then Math_floor (x (_viewOffset s) - x (_containerSize s))
          else Math_ceil (x (_viewOffset s));
     y := if Qltb (y (_scale s)) 0
          then Math_ceil (y (_viewOffset s) - y (_containerSize s))
          else Math_floor (y (_viewOffset s)) |}.

Definition visibleEndOffset (s : State) : IPoint :=
  {| x := if Qltb (x (_scale s)) 0
          then Math_ceil (x (_viewOffset s))
          else Math_floor (x (_viewOffset s) - x (_containerSize s));
     y := if Qltb (y (_scale s)) 0
          then Math_floor (y (_viewOffset s))
          else Math_ceil (y (_viewOffset s) - y (_containerSize s)) |}.

(** *** Further observations *)

(** Calls that change what is laid out without asking for more than
    [setNeedsUpdate]: the listeners of the animated values and
    [setNeedsUpdate] itself. *)
Definition isMutation (c : Call) : bool :=
  match c with
  | Call_setNeedsUpdate
  | Event_containerSize _ | Event_scale _ | Event_anchor _
  | Event_locationOffsetBase _ | Event_viewOffset _ | Event_panVelocity _ => true
  | _ => false
  end.

(** Interaction handles created and cleared so far. *)
Definition interactionsCreated (trace : list Effect) : nat :=
  length (List.filter (fun e => match e with Interaction_created _ => true | _ => false end)
            trace).

Definition interactionsCleared (trace : list Effect) : nat :=
  length (List.filter (fun e => match e with Interaction_cleared _ => true | _ => false end)
            trace).

(** Every handle created so far has been cleared, but for the one held in
    [_interactionHandle] if there is one. *)
Definition handleBalanced (s : State) : Prop :=
  (0 <= handleCounter s)%Z
  /\ interactionsCreated (effects s)
     = (interactionsCleared (effects s)
        + (if (_interactionHandle s =? 0)%Z then 0 else 1))%nat.

(** A container size that has been latched is positive on both axes. *)
Definition sizeLatched (s : State) : Prop :=
  _hasContainerSize s = true ->
  0 < x (_containerSize s) /\ 0 < y (_containerSize s).

(** What every call keeps of the three conditions above and of a scale
    without a zero component. *)
Record keeps (s s' : State) : Prop := mkKeeps {
  keeps_scale : scaleValid s = true -> scaleValid s' = true;
  keeps_size : sizeLatched s -> sizeLatched s';
  keeps_handle : handleBalanced s -> handleBalanced s'
}.

(** Effects other than the creation or the clearing of a handle. *)
Definition noHandle (e : Effect) : Prop :=
  match e with
  | Interaction_created _ | Interaction_cleared _ => False
  | _ => True
  end.

(** The offset [scrollToOffset] aims at, and the animation it creates when
    [animated] is set: a timing animation when a timing configuration is
    given, a spring otherwise, with the velocity of the spring configuration
    or else the content velocity.  Unless [manualStart] is set the animation
    is started, with a completion handler that passes on to [onEnd]. *)
Definition scrollTarget (options : ScrollOptions) (s : State) : IPoint :=
  {| x := default (x (_locationOffsetBase s)) (px (offset options));
     y := default (y (_locationOffsetBase s)) (py (offset options)) |}.

Definition scrollAnimation (options : ScrollOptions) (s : State) : Animation :=
  {| kind := if timing options then Timing (scrollTarget options s)
             else Spring (scrollTarget options s)
                    match spring options with
                    | Some (Some v) => v
                    | _ => contentVelocity s
                    end;
     started := negb (manualStart options);
     notifiesOnEnd := negb (manualStart options) && onEnd options |}.

(** A coordinator constructed with the [snapToLocation] callback [callback],
    otherwise as [s]; [snapping] is the pan of [panning], released at one
    pixel per millisecond, with a callback that snaps to the column 100 and
    with the creation of its interaction handle on the trace. *)
Definition withSnapToLocation
    (callback : IScrollInfo -> option PartialPoint) (s : State) : State :=
  {| _layoutSources := _layoutSources s;
     _locationOffsetBase := _locationOffsetBase s; _scale := _scale s;
     _hasScale := _hasScale s; _anchor := _anchor s; _panVelocty := _panVelocty s;
     _panStarted := _panStarted s; _panDefaultPrevented := _panDefaultPrevented s;
     _panTarget := _panTarget s;
     _descelerationAnimation := _descelerationAnimation s;
     _viewOffset := _viewOffset s; _containerSize := _containerSize s;
     _hasContainerSize := _hasContainerSize s;
     _interactionHandle := _interactionHandle s; _updateDepth := _updateDepth s;
     _updateTimer := _updateTimer s; snapToLocation := Some callback;
     handleCounter := handleCounter s; effects := effects s |}.

Definition snapping : State :=
  withSnapToLocation (fun _ => Some {| px := Some 100; py := None |})
    (set_effects [Interaction_created 1%Z] (panning {| x := 1; y := 0 |})).

(** *** Registration of layout sources *)

Definition set_layoutSources (v : list nat) (s : State) : State :=
  {| _layoutSources := v;
     _locationOffsetBase := _locationOffsetBase s; _scale := _scale s;
     _hasScale := _hasScale s; _anchor := _anchor s; _panVelocty := _panVelocty s;
     _panStarted := _panStarted s; _panDefaultPrevented := _panDefaultPrevented s;
     _panTarget := _panTarget s;
     _descelerationAnimation := _descelerationAnimation s;
     _viewOffset := _viewOffset s; _containerSize := _containerSize s;
     _hasContainerSize := _hasContainerSize s;
     _interactionHandle := _interactionHandle s; _updateDepth := _updateDepth s;
     _updateTimer := _updateTimer s; snapToLocation := snapToLocation s;
     handleCounter := handleCounter s; effects := effects s |}.

(** [Array.prototype.indexOf]: the first position, or -1. *)
Fixpoint indexOf (layoutSource : nat) (layoutSources : list nat) : Z :=
  match layoutSources with
  | [] => (-1)%Z
  | first :: rest =>
      if (first =? layoutSource)%nat then 0%Z
      else let i := indexOf layoutSource rest in
           if (i <? 0)%Z then (-1)%Z else (i + 1)%Z
  end.

(** What [setLayoutSources] asks of the layout sources. *)
Inductive SourceCall : Type :=
| LayoutSource_unconfigure (layoutSource : nat)
| LayoutSource_configure (layoutSource : nat) (zIndex : Z).

(** [zIndexStart] and [zIndexStride] are fields the constructor sets from its
    options and nothing writes afterwards.  The calls are returned in the
    order they are made. *)
Definition setLayoutSources (zIndexStart zIndexStride : Z)
    (layoutSources : list nat) (s : State) : list SourceCall * State :=
  let removed :=
    List.filter (fun layoutSource => (indexOf layoutSource layoutSources <? 0)%Z)
                (_layoutSources s) in
  let previousLayoutSources := _layoutSources s in
  let s := set_layoutSources layoutSources s in
  let added :=
    List.filter (fun layoutSource =>
                   (indexOf layoutSource previousLayoutSources <? 0)%Z)
                layoutSources in
  (map LayoutSource_unconfigure removed
   ++ map (fun layoutSource =>
             LayoutSource_configure layoutSource
               (zIndexStart + indexOf layoutSource (_layoutSources s) * zIndexStride)%Z)
          added,
   s).

End EvergridLayout.

(** ** The layout-source update engine ([LayoutSource]) *)

Module LayoutSource.

Local Open Scope Q_scope.
Local Open Scope method_scope.

Section Source.
(** The index space [T] of the source. *)
Context {Index : Type} `{Countable Index}.

Record ILayout : Type := mkLayout { offset : IPoint; size : IPoint }.

(** [IItemLayout], what a subclass computes for an index: the fields it
    leaves out keep their previous value in the item. *)
Record IItemLayout : Type := mkItemLayout {
  layout_offset : option IPoint;
  layout_size : option IPoint
}.

(** [IItem<T>].  [ref] stands for the view reference, which is also the
    identity of the record; the animated values are kept by their current
    value. *)
Record IItem : Type := mkItem {
  index : Index;
  ref : nat;
  zIndex : Z;
  reuseID : string;
  contentLayout : ILayout;
  animated_contentLayout : ILayout;
  animated_opacity : Q;
  animated_renderNonce : Z
}.

Definition set_zIndex (v : Z) (item : IItem) : IItem :=
  {| index := index item; ref := ref item; zIndex := v;
     reuseID := reuseID item; contentLayout := contentLayout item;
     animated_contentLayout := animated_contentLayout item;
     animated_opacity := animated_opacity item;
     animated_renderNonce := animated_renderNonce item |}.

Definition set_contentLayout (v : ILayout) (item : IItem) : IItem :=
  {| index := index item; ref := ref item; zIndex := zIndex item;
     reuseID := reuseID item; contentLayout := v;
     animated_contentLayout := animated_contentLayout item;
     animated_opacity := animated_opacity item;
     animated_renderNonce := animated_renderNonce item |}.

Definition set_animated_contentLayout (v : ILayout) (item : IItem) : IItem :=
  {| index := index item; ref := ref item; zIndex := zIndex item;
     reuseID := reuseID item; contentLayout := contentLayout item;
     animated_contentLayout := v;
     animated_opacity := animated_opacity item;
     animated_renderNonce := animated_renderNonce item |}.

Definition set_animated_opacity (v : Q) (item : IItem) : IItem :=
  {| index := index item; ref := ref item; zIndex := zIndex item;
     reuseID := reuseID item; contentLayout := contentLayout item;
     animated_contentLayout := animated_contentLayout item;
     animated_opacity := v;
     animated_renderNonce := animated_renderNonce item |}.

Definition set_animated_renderNonce (v : Z) (item : IItem) : IItem :=
  {| index := index item; ref := ref item; zIndex := zIndex item;
     reuseID := reuseID item; contentLayout := contentLayout item;
     animated_contentLayout := animated_contentLayout item;
     animated_opacity := animated_opacity item;
     animated_renderNonce := v |}.

(** [IItemUpdate<T>], one element of [itemUpdates()]. *)
Record IItemUpdate : Type := mkItemUpdate {
  add : option Index;
  remove : option Index
}.

(** One run of the generator [itemUpdates()]: the operations it yields and,
    when it ends by throwing, the message. *)
Record ItemUpdates : Type := mkItemUpdates {
  yields : list IItemUpdate;
  fails : option string
}.

(** The options of [updateItems], with their defaults. *)
Record UpdateOptions : Type := mkUpdateOptions {
  queue : bool;
  dequeue : bool;
  create : bool;
  update : bool
}.

Definition defaultOptions : UpdateOptions :=
  {| queue := true; dequeue := true; create := false; update := false |}.

(** What a concrete source supplies: the properties that decide reuse and
    display, and the layout computation of the subclass, which may throw.
    [now] is the value of [new Date().valueOf()]. *)
Record Source : Type := mkSource {
  id : string;
  props_reuseID : option string;
  props_getReuseID : option (Index -> string);
  source_zIndex : Z;
  showDuration : Q;
  shouldRenderItem : IItem -> Index -> ILayout -> bool;
  getItemContentLayout : Index -> outcome IItemLayout;
  now : Z
}.

(** Calls that leave the source, and the steps of [updateItems], in order.
    [Removal] and [Addition] mark the two branches of the loop, where the
    source has its disabled debug messages "hide" and "show"; [UpdateVisible]
    marks one turn of the pass over the visible items. *)
Inductive Event : Type :=
| Removal (index : Index)
| Addition (index : Index)
| UpdateVisible (index : Index)
| WillHideItem (item : IItem)
| WillShowItem (item : IItem)
| SetNeedsRender.

(** The fields of the source and what it shares with the host view:
    [needsRender] and [refCounter] belong to the view, [console] collects the
    messages of [console.error], [visibleItems] is the visible map described
    at [getVisibleItem] below. *)
Record State : Type := mkState {
  _itemQueues : gmap string (list IItem);
  visibleItems : gmap Index IItem;
  _updating : bool;
  needsRender : bool;
  refCounter : nat;
  console : list string;
  trace : list Event
}.

Definition set_itemQueues (v : gmap string (list IItem)) (s : State) : State :=
  {| _itemQueues := v; visibleItems := visibleItems s; _updating := _updating s;
     needsRender := needsRender s; refCounter := refCounter s;
     console := console s; trace := trace s |}.

Definition set_visibleItems (v : gmap Index IItem) (s : State) : State :=
  {| _itemQueues := _itemQueues s; visibleItems := v; _updating := _updating s;
     needsRender := needsRender s; refCounter := refCounter s;
     console := console s; trace := trace s |}.

Definition set_updating (v : bool) (s : State) : State :=
  {| _itemQueues := _itemQueues s; visibleItems := visibleItems s; _updating := v;
     needsRender := needsRender s; refCounter := refCounter s;
     console := console s; trace := trace s |}.

Definition set_needsRender (v : bool) (s : State) : State :=
  {| _itemQueues := _itemQueues s; visibleItems := visibleItems s;
     _updating := _updating s; needsRender := v; refCounter := refCounter s;
     console := console s; trace := trace s |}.

Definition set_refCounter (v : nat) (s : State) : State :=
  {| _itemQueues := _itemQueues s; visibleItems := visibleItems s;
     _updating := _updating s; needsRender := needsRender s; refCounter := v;
     console := console s; trace := trace s |}.

Definition set_console (v : list string) (s : State) : State :=
  {| _itemQueues := _itemQueues s; visibleItems := visibleItems s;
     _updating := _updating s; needsRender := needsRender s;
     refCounter := refCounter s; console := v; trace := trace s |}.

Definition set_trace (v : list Event) (s : State) : State :=
  {| _itemQueues := _itemQueues s; visibleItems := visibleItems s;
     _updating := _updating s; needsRender := needsRender s;
     refCounter := refCounter s; console := console s; trace := v |}.

Definition record (e : Event) (s : State) : State :=
  set_trace (trace s ++ [e]) s.

Definition console_error (message : string) (s : State) : State :=
  set_console (console s ++ [message]) s.

(** A source as its constructor leaves it. *)
Definition constructed : State :=
  {| _itemQueues := ∅; visibleItems := ∅; _updating := false;
     needsRender := false; refCounter := 0; console := []; trace := [] |}.

(** *** The host view and the visible map *)

Definition view_setNeedsRender : M State unit :=
  modify (set_needsRender true) ;;; modify (record SetNeedsRender).

Definition view_createItemViewRef : M State nat :=
  n <- gets refCounter ;;
  modify (set_refCounter (S n)) ;;;
  ret n.

(** Modelled from the spec: [getVisibleItem], [setVisibleItem] and
    [visibleIndexes] are left to the subclasses, which are not among the
    sources.  They are taken to work on the map of visible index to item
    record that the specification gives every layout source: lookup, binding
    or unbinding of one index, and the enumeration of the bound indexes. *)
Definition getVisibleItem (index : Index) (s : State) : option IItem :=
  visibleItems s !! index.

(** Modelled from the spec: binding ([Some]) or unbinding ([None], for
    [undefined]) of one index in the visible map; see [getVisibleItem]. *)
Definition setVisibleItem (index : Index) (item : option IItem) (s : State) : State :=
  match item with
  | Some item => set_visibleItems (<[index := item]> (visibleItems s)) s
  | None => set_visibleItems (delete index (visibleItems s)) s
  end.

(** Modelled from the spec: the indexes bound in the visible map; see
    [getVisibleItem]. *)
Definition visibleIndexes (s : State) : list Index :=
  map fst (map_to_list (visibleItems s)).

(** *** The pool *)

(** Modelled from the spec: [getLazyArray] is a helper of [util], which is
    not among the sources.  It is taken to give the stack of retired records
    the pool keeps under a reuse key, an empty one where the pool has none
    yet; [push] and [pop] work at the end of that array. *)
Definition getLazyArray (queues : gmap string (list IItem)) (key : string)
  : list IItem :=
  default [] (queues !! key).

(** A string between double quotes, as the messages print reuse keys. *)
Definition quoted (text : string) : string :=
  String (Ascii.ascii_of_nat 34) text ++ String (Ascii.ascii_of_nat 34) EmptyString.

Definition getQueue (s : State) (key : string) : list IItem :=
  getLazyArray (_itemQueues s) key.

Variable source : Source.

Definition getReuseID (index : Index) : string :=
  match props_getReuseID source with
  | Some callback => callback index
  | None =>
      match props_reuseID source with
      | Some reuseID => reuseID
      | None => id source
      end
  end.

Definition _dequeueItem (reuseID_ : string) : M State (option IItem) :=
  queues <- gets _itemQueues ;;
  let queue := getLazyArray queues reuseID_ in
  modify (set_itemQueues (<[reuseID_ := removelast queue]> queues)) ;;;
  match last queue with
  | Some item =>
      (if negb (String.eqb (reuseID item) reuseID_) then
         modify (console_error
                   ("Dequeued an item from queue with reuseID " ++ quoted reuseID_
                    ++ " with a different reuseID " ++ quoted (reuseID item)))
       else ret tt) ;;;
      ret (Some item)
  | None => ret None
  end.

Definition queueItem (index : Index) : M State bool :=
  found <- gets (getVisibleItem index) ;;
  match found with
  | None => ret false
  | Some item =>
      modify (record (WillHideItem item)) ;;;
      modify (setVisibleItem index None) ;;;
      let item := set_animated_opacity 0 item in
      (if negb (String.eqb (reuseID item) EmptyString) then
         queues <- gets _itemQueues ;;
         let queue := getLazyArray queues (reuseID item) in
         modify (set_itemQueues (<[reuseID item := queue ++ [item]]> queues))
       else ret tt) ;;;
      ret true
  end.

Definition clearQueue (s : State) : State := set_itemQueues ∅ s.

(** *** Item records *)

(** [v.setValue(a)] on one axis when [a] differs from the previous value. *)
Definition setAxis (previous current mirror : Q) : Q :=
  if negb (Qeq_bool current previous) then current else mirror.

Definition mirrorPoint (previous current mirror : IPoint) : IPoint :=
  {| x := setAxis (x previous) (x current) (x mirror);
     y := setAxis (y previous) (y current) (y mirror) |}.

(** The item is mutated in place in the source; here the mutated record is
    returned to the caller as well as stored in the visible map. *)
Definition updateItem (item : IItem) (index_ : Index) (isNew : bool)
  : M State IItem :=
  let previousContentLayout := contentLayout item in
  match getItemContentLayout source index_ with
  | Thrown e => throw e
  | Returned layout =>
      let item :=
        set_contentLayout
          {| offset := default (offset previousContentLayout) (layout_offset layout);
             size := default (size previousContentLayout) (layout_size layout) |}
          item in
      let item :=
        if (zIndex item =? 0)%Z then set_zIndex (source_zIndex source) item
        else item in
      let item :=
        set_animated_contentLayout
          {| offset := mirrorPoint (offset previousContentLayout)
                         (offset (contentLayout item))
                         (offset (animated_contentLayout item));
             size := mirrorPoint (size previousContentLayout)
                       (size (contentLayout item))
                       (size (animated_contentLayout item)) |}
          item in
      let showNow := negb isNew || Qle_bool (showDuration source) 0 in
      let item := if showNow then set_animated_opacity 1 item else item in
      modify (record (WillShowItem item)) ;;;
      modify (setVisibleItem index_ (Some item)) ;;;
      ret item
  end.

Definition createItem (index_ : Index) : M State IItem :=
  viewRef <- view_createItemViewRef ;;
  let item :=
    {| index := index_; ref := viewRef; zIndex := source_zIndex source;
       reuseID := getReuseID index_;
       contentLayout := {| offset := zeroPoint; size := zeroPoint |};
       animated_contentLayout := {| offset := zeroPoint; size := zeroPoint |};
       animated_opacity := 0;
       animated_renderNonce := 0 |} in
  updateItem item index_ true.

(** The nonce is written after [updateItem] has stored the record in the
    visible map: the record there is the same object, so it is written there
    too. *)
Definition dequeueItem (index_ : Index) : M State (option IItem) :=
  let reuseID_ := getReuseID index_ in
  found <- _dequeueItem reuseID_ ;;
  match found with
  | None => ret None
  | Some item =>
      let previous_index := index item in
      let previous_contentLayout := contentLayout item in
      item <- updateItem item index_ false ;;
      if shouldRenderItem source item previous_index previous_contentLayout then
        let item := set_animated_renderNonce (now source) item in
        modify (setVisibleItem index_ (Some item)) ;;;
        ret (Some item)
      else ret (Some item)
  end.

(** *** The update *)

Definition beginUpdate : M State unit :=
  updating <- gets _updating ;;
  if updating then
    modify (set_updating false) ;;; throw "Already updating"
  else modify (set_updating true).

Definition _commitPendingItemQueues (s : State) : State := s.

Definition endUpdate : M State unit :=
  modify _commitPendingItemQueues ;;; modify (set_updating false).

Definition commitUpdate : M State unit := endUpdate.
Definition cancelUpdate : M State unit := endUpdate.

(** One turn of the loop over [itemUpdates()]; [false] when the turn leaves
    [updateItems] by [return]. *)
Definition processUpdate (options : UpdateOptions) (op : IItemUpdate) : M State bool :=
  match (if queue options then remove op else None), add op with
  | Some removed, _ =>
      modify (record (Removal removed)) ;;;
      queueItem removed ;;;
      ret true
  | None, Some added =>
      modify (record (Addition added)) ;;;
      reused <- (if dequeue options then dequeueItem added else ret None) ;;
      match reused with
      | Some _ => ret true
      | None =>
          if create options then createItem added ;;; ret true
          else cancelUpdate ;;; view_setNeedsRender ;;; ret false
      end
  | None, None => ret true
  end.

Fixpoint processUpdates (options : UpdateOptions) (ops : list IItemUpdate)
    (failure : option string) : M State bool :=
  match ops with
  | [] =>
      match failure with
      | Some e => throw e
      | None => ret true
      end
  | op :: rest =>
      continue <- processUpdate options op ;;
      if continue then processUpdates options rest failure else ret false
  end.

(** The pass over [visibleIndexes()]. *)
Fixpoint updateVisible (indexes : list Index) : M State unit :=
  match indexes with
  | [] => ret tt
  | index_ :: rest =>
      modify (record (UpdateVisible index_)) ;;;
      found <- gets (getVisibleItem index_) ;;
      match found with
      | Some item => updateItem item index_ false ;;; updateVisible rest
      | None => updateVisible rest
      end
  end.

Definition updateItems (options : UpdateOptions) (itemUpdates : ItemUpdates)
  : M State unit :=
  beginUpdate ;;;
  try_catch
    (completed <- processUpdates options (yields itemUpdates) (fails itemUpdates) ;;
     if completed then
       (if update options then
          indexes <- gets visibleIndexes ;; updateVisible indexes
        else ret tt) ;;;
       commitUpdate
     else ret tt)
    (fun error =>
       modify (console_error ("Error during update: " ++ error)) ;;;
       cancelUpdate).

(** *** Observations *)

(** Every record in the pool sits in the stack of its own reuse key, and
    that key is not the empty string. *)
Definition poolScoped (s : State) : Prop :=
  forall (key : string) (item : IItem),
    item ∈ getQueue s key -> reuseID item = key /\ key <> EmptyString.

(** How [updateItems] handles an operation: as a removal when queueing is
    enabled and it carries an index to remove, otherwise as an addition when
    it carries an index to add, otherwise not at all. *)
Definition handledAs (options : UpdateOptions) (op : IItemUpdate) : list Event :=
  match (if queue options then remove op else None), add op with
  | Some removed, _ => [Removal removed]
  | None, Some added => [Addition added]
  | None, None => []
  end.

(** The steps of [updateItems] in a trace. *)
Definition steps (t : list Event) : list Event :=
  List.filter (fun e => match e with
                        | Removal _ | Addition _ | UpdateVisible _ => true
                        | _ => false
                        end) t.

(** No removal is processed after an addition. *)
Fixpoint removalsFirst (t : list Event) : bool :=
  match t with
  | [] => true
  | Addition _ :: rest =>
      forallb (fun e => match e with Removal _ => false | _ => true end) rest
      && removalsFirst rest
  | _ :: rest => removalsFirst rest
  end.

(** No removal or addition is processed after a step of the update pass. *)
Fixpoint passLast (t : list Event) : bool :=
  match t with
  | [] => true
  | UpdateVisible _ :: rest =>
      forallb (fun e => match e with
                        | Removal _ | Addition _ => false
                        | _ => true
                        end) rest
      && passLast rest
  | _ :: rest => passLast rest
  end.

(** What queueing, reuse and creation leave alone: they neither start nor end
    the update, ask for no render, are no step of [updateItems] and keep the
    pool scoped by reuse key. *)
Record quiet (s s' : State) : Prop := mkQuiet {
  quiet_updating : _updating s' = _updating s;
  quiet_needsRender : needsRender s' = needsRender s;
  quiet_steps : steps (trace s') = steps (trace s);
  quiet_pool : poolScoped s -> poolScoped s'
}.

(** The steps recorded so far stay as they are. *)
Definition sameSteps (s s' : State) : Prop := steps (trace s') = steps (trace s).

(** The pool stays scoped by reuse key. *)
Definition poolKept (s s' : State) : Prop := poolScoped s -> poolScoped s'.

(** *** Further methods *)

(** The loop of [reset] over [visibleIndexes()]: [willHideItem] for the
    record of the index, when there is one, then the index is unbound. *)
Fixpoint hideVisible (indexes : list Index) : M State unit :=
  match indexes with
  | [] => ret tt
  | index_ :: rest =>
      found <- gets (getVisibleItem index_) ;;
      match found with
      | Some item => modify (record (WillHideItem item))
      | None => ret tt
      end ;;;
      modify (setVisibleItem index_ None) ;;;
      hideVisible rest
  end.

Definition reset : M State unit :=
  modify clearQueue ;;;
  indexes <- gets visibleIndexes ;;
  hideVisible indexes.

Definition shouldUpdate : bool := true.

(** [setNeedsUpdate(view, { force })]; [updateItems(view)] runs with the
    default options. *)
Definition setNeedsUpdate (force : bool) (itemUpdates : ItemUpdates) : M State unit :=
  viewNeedsRender <- gets needsRender ;;
  if negb force && viewNeedsRender then ret tt
  else if force || shouldUpdate then updateItems defaultOptions itemUpdates
  else ret tt.

(** No render is asked of the view, and none that was asked is taken back. *)
Definition sameRender (s s' : State) : Prop := needsRender s' = needsRender s.

(** Where the source holds a record: bound to an index in the visible map, or
    at a position of the stack of a reuse key in the pool. *)
Inductive Place : Type :=
| Visible (index : Index)
| Pooled (key : string) (position : nat).

Definition recordAt (s : State) (place : Place) : option IItem :=
  match place with
  | Visible index_ => visibleItems s !! index_
  | Pooled key position => getQueue s key !! position
  end.

(** No view reference is held twice, and every one held was handed out by
    the view. *)
Definition refsFresh (s : State) : Prop :=
  (forall p q a b,
      recordAt s p = Some a -> recordAt s q = Some b -> ref a = ref b -> p = q)
  /\ (forall p a, recordAt s p = Some a -> (ref a < refCounter s)%nat).

Definition refsKept (s s' : State) : Prop := refsFresh s -> refsFresh s'.


End Source.

(** *** A sample source: rows of a list

    Rows are indexed by integers, 300 wide and 50 high, stacked downwards.
    [rows] reuses every record under its own id; [keyedRows] keeps the even
    rows under the reuse key A, the odd rows under B and never pools row 0;
    [brokenRows] fails to lay out row 1. *)

Definition rowLayout (i : Z) : outcome IItemLayout :=
  Returned {| layout_offset := Some {| x := 0; y := inject_Z i * 50 |};
              layout_size := Some {| x := 300; y := 50 |} |}.

Definition rows : @Source Z :=
  {| id := "1"; props_reuseID := None; props_getReuseID := None;
     source_zIndex := 0; showDuration := 150;
     shouldRenderItem := fun _ _ _ => true;
     getItemContentLayout := rowLayout; now := 1000 |}.

Definition keyedRows : @Source Z :=
  {| id := "1"; props_reuseID := None;
     props_getReuseID :=
       Some (fun i => if (i =? 0)%Z then EmptyString
                      else if Z.even i then "A" else "B");
     source_zIndex := 0; showDuration := 150;
     shouldRenderItem := fun _ _ _ => true;
     getItemContentLayout := rowLayout; now := 1000 |}.

Definition brokenRows : @Source Z :=
  {| id := "1"; props_reuseID := None; props_getReuseID := None;
     source_zIndex := 0; showDuration := 150;
     shouldRenderItem := fun _ _ _ => true;
     getItemContentLayout :=
       fun i => if (i =? 1)%Z then Thrown "layout failed" else rowLayout i;
     now := 1000 |}.

(** The record of row [i], shown, with view reference [viewRef] and reuse key
    [key]. *)
Definition rowItem (i : Z) (viewRef : nat) (key : string) : @IItem Z :=
  {| index := i; ref := viewRef; zIndex := 0; reuseID := key;
     contentLayout := {| offset := {| x := 0; y := inject_Z i * 50 |};
                         size := {| x := 300; y := 50 |} |};
     animated_contentLayout := {| offset := {| x := 0; y := inject_Z i * 50 |};
                                  size := {| x := 300; y := 50 |} |};
     animated_opacity := 1; animated_renderNonce := 0 |}.

(** Row 2 is visible, nothing is pooled. *)
Definition row2Visible : @State Z _ _ :=
  set_refCounter 1 (set_visibleItems {[ 2%Z := rowItem 2 0 "1" ]} constructed).

(** Nothing is visible, the record of row 0 is in the pool. *)
Definition row0Pooled : @State Z _ _ :=
  set_refCounter 1
    (set_itemQueues {[ "1" := [set_animated_opacity 0 (rowItem 0 0 "1")] ]}
       constructed).

(** Rows 2, 3 and 4 are visible under the keys of [keyedRows]. *)
Definition rows234Visible : @State Z _ _ :=
  set_refCounter 3
    (set_visibleItems
       (<[ 2%Z := rowItem 2 0 "A" ]>
          (<[ 3%Z := rowItem 3 1 "B" ]> {[ 4%Z := rowItem 4 2 "A" ]}))
       constructed).

(** The state after the removals of the given rows, one operation each. *)
Definition run_removals (source : @Source Z) (rows : list Z) (s : @State Z _ _)
  : @State Z _ _ :=
  snd (processUpdates source defaultOptions
         (map (fun i => {| add := None; remove := Some i |}) rows) None s).

(** What a call returned, if it returned something. *)
Definition returned {A} (o : outcome (option A)) : option A :=
  match o with
  | Returned a => a
  | Thrown _ => None
  end.

(** *** Geometry of a layout source

    The fields the geometry reads: the item size, origin, scale and insets,
    as the listeners of [configure] mirror them, and the sticky edge of the
    properties. *)

Inductive InsetEdge : Type := Edge_top | Edge_right | Edge_bottom | Edge_left.

Record IInsets : Type := mkInsets {
  inset_top : Q;
  inset_right : Q;
  inset_bottom : Q;
  inset_left : Q
}.

Record Geometry : Type := mkGeometry {
  _itemSize : IPoint;
  _origin : IPoint;
  _scale : IPoint;
  _insets : IInsets;
  stickyEdge : option InsetEdge
}.

Definition set_origin (v : IPoint) (g : Geometry) : Geometry :=
  {| _itemSize := _itemSize g; _origin := v; _scale := _scale g;
     _insets := _insets g; stickyEdge := stickyEdge g |}.

Definition get_inset (insetKey : InsetEdge) (insets : IInsets) : Q :=
  match insetKey with
  | Edge_top => inset_top insets
  | Edge_right => inset_right insets
  | Edge_bottom => inset_bottom insets
  | Edge_left => inset_left insets
  end.

Definition set_inset (insetKey : InsetEdge) (v : Q) (insets : IInsets) : IInsets :=
  match insetKey with
  | Edge_top =>
      {| inset_top := v; inset_right := inset_right insets;
         inset_bottom := inset_bottom insets; inset_left := inset_left insets |}
  | Edge_right =>
      {| inset_top := inset_top insets; inset_right := v;
         inset_bottom := inset_bottom insets; inset_left := inset_left insets |}
  | Edge_bottom =>
      {| inset_top := inset_top insets; inset_right := inset_right insets;
         inset_bottom := v; inset_left := inset_left insets |}
  | Edge_left =>
      {| inset_top := inset_top insets; inset_right := inset_right insets;
         inset_bottom := inset_bottom insets; inset_left := v |}
  end.

(** Modelled from the spec: the view of [LayoutSource.ts] is the grid view,
    which is not among the sources.  It is taken by what the layout source
    reads from it: its scale, container size and view offset, and its two
    transforms, [getContainerLocation(point, { scale })] and
    [getLocation(point)]. *)
Record Grid : Type := mkGrid {
  view_scale : IPoint;
  view_containerSize : IPoint;
  view_viewOffset : IPoint;
  view_getContainerLocation : IPoint -> IPoint -> IPoint;
  view_getLocation : IPoint -> IPoint
}.

(** [Math.max] on numbers. *)
Definition Math_max (a b : Q) : Q := if Qltb a b then b else a.

Definition getScale (g : Geometry) (view : Grid) : IPoint :=
  {| x := x (_scale g) * x (view_scale view);
     y := y (_scale g) * y (view_scale view) |}.

(** The edges are the four of [InsetEdge], so the closing [throw] of the
    second [switch] is not reached. *)
Definition getStickyContainerLocation (g : Geometry) (view : Grid) : PartialPoint :=
  match stickyEdge g with
  | None => {| px := None; py := None |}
  | Some Edge_top => {| px := None; py := Some (inset_top (_insets g)) |}
  | Some Edge_left => {| px := Some (inset_left (_insets g)); py := None |}
  | Some Edge_bottom =>
      {| px := None;
         py := Some (y (view_containerSize view) - inset_bottom (_insets g)) |}
  | Some Edge_right =>
      {| px := Some (x (view_containerSize view) - inset_right (_insets g));
         py := None |}
  end.

(** The coordinates [getContainerLocation] has before it comes to the
    origin: the sticky one where there is one, else the view's, moved in by
    the inset of the leading edge. *)
Definition insetContainerLocation (point : IPoint) (g : Geometry) (view : Grid)
  : IPoint :=
  let (x_, y_) := view_getContainerLocation view point (_scale g) in
  let p := getStickyContainerLocation g view in
  let scale := getScale g view in
  {| x := match px p with
          | Some v => v
          | None => if Qltb 0 (x scale) then x_ + inset_left (_insets g)
                    else x_ - inset_right (_insets g)
          end;
     y := match py p with
          | Some v => v
          | None => if Qltb 0 (y scale) then y_ + inset_top (_insets g)
                    else y_ - inset_bottom (_insets g)
          end |}.

(** [p.x = p.x || 0 + this._origin.x * scale.x]: the sum binds tighter than
    [||], so the right operand is taken only when [p.x] is zero. *)
Definition getContainerLocation (point : IPoint) (g : Geometry) (view : Grid)
  : IPoint :=
  let p := insetContainerLocation point g view in
  let scale := getScale g view in
  {| x := if negb (isZero (x p)) then x p else 0 + x (_origin g) * x scale;
     y := if negb (isZero (y p)) then y p else 0 + y (_origin g) * y scale |}.

Definition getLocationInsetOffset (g : Geometry) (view : Grid) : IPoint :=
  let scale := getScale g view in
  {| x := Math_max (inset_left (_insets g) / x scale)
                   (- inset_right (_insets g) / x scale);
     y := Math_max (inset_top (_insets g) / y scale)
                   (- inset_bottom (_insets g) / y scale) |}.

Definition getLocation (point : IPoint) (g : Geometry) (view : Grid) : IPoint :=
  let (x_, y_) := view_getLocation view point in
  let offset := getLocationInsetOffset g view in
  {| x := x_ - x (_origin g) + x offset;
     y := y_ - y (_origin g) + y offset |}.

Definition getGridIndex (point : IPoint) (g : Geometry) (view : Grid) : IPoint :=
  let itemSize := _itemSize g in
  let offset := getLocationInsetOffset g view in
  {| x := (x point - x offset) / x itemSize;
     y := (y point - y offset) / y itemSize |}.

Definition getViewportOffset (g : Geometry) (view : Grid) : IPoint :=
  let (x_, y_) := view_viewOffset view in
  let scale := getScale g view in
  {| x := x_ + (if Qltb 0 (x scale) then inset_left (_insets g)
                else - inset_right (_insets g));
     y := y_ + (if Qltb 0 (y scale) then - inset_top (_insets g)
                else inset_bottom (_insets g)) |}.

Definition getViewportSize (g : Geometry) (view : Grid) : IPoint :=
  let (x_, y_) := view_containerSize view in
  {| x := x_ - inset_left (_insets g) - inset_right (_insets g);
     y := y_ - inset_top (_insets g) - inset_bottom (_insets g) |}.

Definition getItemViewLayout (contentLayout : ILayout) (g : Geometry) (view : Grid)
  : ILayout :=
  let scale := getScale g view in
  let layout :=
    {| offset := getContainerLocation (offset contentLayout) g view;
       size := {| x := x (size contentLayout) * x scale;
                  y := y (size contentLayout) * y scale |} |} in
  let layout :=
    if Qltb (x scale) 0 then
      {| offset := {| x := x (offset layout) + x (size layout);
                      y := y (offset layout) |};
         size := {| x := - x (size layout); y := y (size layout) |} |}
    else layout in
  if Qltb (y scale) 0 then
    {| offset := {| x := x (offset layout);
                    y := y (offset layout) + y (size layout) |};
       size := {| x := x (size layout); y := - y (size layout) |} |}
  else layout.

(** The listener [configure] puts on the inset [insetKey]: a value less than
    one away from the mirrored one is dropped, another one is stored and an
    update is requested ([true]). *)
Definition inset_listener (insetKey : InsetEdge) (value : Q) (insets : IInsets)
  : IInsets * bool :=
  if Qltb (Qabs (value - get_inset insetKey insets)) 1 then (insets, false)
  else (set_inset insetKey value insets, true).

(** The insets after the values [values] of the animated inset [insetKey],
    in the order they come. *)
Definition inset_events (insetKey : InsetEdge) (values : list Q) (insets : IInsets)
  : IInsets :=
  fold_left (fun insets value => fst (inset_listener insetKey value insets))
            values insets.

(** A sample geometry: unit item size, origin (2, 3), the vertical axis
    flipped, insets of 10 at the top and 20 on the left; and a view at twice
    the size, 300 x 300, whose transforms scale about the top left corner. *)
Definition flippedGeometry : Geometry :=
  {| _itemSize := {| x := 1; y := 1 |}; _origin := {| x := 2; y := 3 |};
     _scale := {| x := 1; y := - (1) |};
     _insets := {| inset_top := 10; inset_right := 0; inset_bottom := 0;
                   inset_left := 20 |};
     stickyEdge := None |}.

Definition doubleView : Grid :=
  {| view_scale := {| x := 2; y := 2 |};
     view_containerSize := {| x := 300; y := 300 |};
     view_viewOffset := zeroPoint;
     view_getContainerLocation :=
       fun point scale => {| x := x point * (x scale * 2);
                             y := y point * (y scale * 2) |};
     view_getLocation := fun point => {| x := - x point / 2; y := - y point / 2 |} |}.

End LayoutSource.
(** * Properties *)

Local Open Scope method_scope.

(** ** Stepping through a method *)

Lemma bind_modify {S B} (f : S -> S) (k : unit -> M S B) (s : S) :
  bind (modify f) k s = k tt (f s).
Proof. reflexivity. Qed.

Lemma bind_gets {S A B} (f : S -> A) (k : A -> M S B) (s : S) :
  bind (gets f) k s = k (f s) s.
Proof. reflexivity. Qed.

Lemma bind_ret {S A B} (a : A) (k : A -> M S B) (s : S) :
  bind (ret a) k s = k a s.
Proof. reflexivity. Qed.

Lemma bind_returned {S A B} (m : M S A) (k : A -> M S B) (s s1 : S) (a : A) :
  m s = (Returned a, s1) -> bind m k s = k a s1.
Proof. intros E. unfold bind. now rewrite E. Qed.

Lemma bind_thrown {S A B} (m : M S A) (k : A -> M S B) (s s1 : S) (e : string) :
  m s = (Thrown e, s1) -> bind m k s = (Thrown e, s1).
Proof. intros E. unfold bind. now rewrite E. Qed.

Lemma bind_assoc {S A B C} (m : M S A) (k : A -> M S B) (h : B -> M S C) (s : S) :
  bind (bind m k) h s = bind m (fun a => bind (k a) h) s.
Proof. unfold bind. destruct (m s) as [[a|e] s1]; reflexivity. Qed.

(** ** Relations kept by every method

    How a method comes to respect a reflexive and transitive relation. *)

Section Respects.
Context {State : Type}.
Variable R : State -> State -> Prop.
Hypothesis R_refl : forall s, R s s.
Hypothesis R_trans : forall a b c, R a b -> R b c -> R a c.

Lemma respects_ret {A} (a : A) : respects R (@ret State A a).
Proof using R_refl. intros s. apply R_refl. Qed.

Lemma respects_throw {A} (e : string) : respects R (@throw State A e).
Proof using R_refl. intros s. apply R_refl. Qed.

Lemma respects_gets {A} (f : State -> A) : respects R (gets f).
Proof using R_refl. intros s. apply R_refl. Qed.

Lemma respects_modify (f : State -> State) :
  (forall s, R s (f s)) -> respects R (modify f).
Proof. intros Hf s. apply Hf. Qed.

Lemma respects_bind {A B} (m : M State A) (k : A -> M State B) :
  respects R m -> (forall a, respects R (k a)) -> respects R (bind m k).
Proof using R_trans.
  intros Hm Hk s. unfold bind. specialize (Hm s).
  destruct (m s) as [[a|e] s1]; cbn in *; [|exact Hm].
  eapply R_trans; [exact Hm | apply Hk].
Qed.

Lemma respects_try_catch {A} (m : M State A) (h : string -> M State A) :
  respects R m -> (forall e, respects R (h e)) -> respects R (try_catch m h).
Proof using R_trans.
  intros Hm Hh s. unfold try_catch. specialize (Hm s).
  destruct (m s) as [[a|e] s1]; cbn in *; [exact Hm|].
  eapply R_trans; [exact Hm | apply Hh].
Qed.
End Respects.

(** Decompose a method along its binds and branches; [base] closes the goals
    about single assignments and about methods already dealt with. *)
Ltac respects_walk refl trans base :=
  repeat first
    [ solve [base]
    | match goal with
      | |- respects _ (ret _) => apply (respects_ret _ refl)
      | |- respects _ (throw _) => apply (respects_throw _ refl)
      | |- respects _ (gets _) => apply (respects_gets _ refl)
      | |- respects _ (bind _ _) => apply (respects_bind _ trans); [| intros ?]
      | |- respects _ (try_catch _ _) =>
          apply (respects_try_catch _ trans); [| intros ?]
      | |- respects _ (modify _) => apply respects_modify; intros ?
      | |- respects _ (if ?b then _ else _) => destruct b
      | |- respects _ (match ?v with _ => _ end) => destruct v
      end ].

(** ** Comparisons on numbers *)

Lemma isZero_true a : isZero a = true <-> (a == 0)%Q.
Proof. unfold isZero. apply Qeq_bool_iff. Qed.

Lemma isZero_false a : isZero a = false <-> ~ (a == 0)%Q.
Proof.
  unfold isZero. split.
  - intros Hb He. apply Qeq_bool_iff in He. congruence.
  - intros Hn. destruct (Qeq_bool a 0) eqn:E; [|reflexivity].
    apply Qeq_bool_iff in E. contradiction.
Qed.

Lemma Qltb_lt a b : Qltb a b = true <-> (a < b)%Q.
Proof.
  unfold Qltb. rewrite Qlt_alt. destruct (a ?= b)%Q; split; congruence.
Qed.

Lemma Qgeb_le a b : Qgeb a b = true <-> (b <= a)%Q.
Proof.
  unfold Qgeb. rewrite negb_true_iff, <- not_true_iff_false, Qltb_lt.
  split; [apply Qnot_lt_le | apply Qle_not_lt].
Qed.

(** ** Properties of the coordinator *)

Module EvergridLayoutProps.
Import EvergridLayout.
Local Open Scope Q_scope.
Local Open Scope method_scope.

#[local] Arguments update : simpl never.
#[local] Arguments endUpdate : simpl never.
#[local] Arguments setNeedsUpdate : simpl never.
#[local] Arguments _transferViewOffsetToLocation : simpl never.
#[local] Arguments _onEndDeceleration : simpl never.

(** *** Geometry: the guarded divisions *)

(** C10.  [getLocation] and [unscaleVector] are total: when either component
    of the scale is zero they return the zero point instead of dividing,
    whatever the point. *)
Theorem zero_scale_gives_zeroPoint (point : IPoint) (s : State) :
  x (_scale s) == 0 \/ y (_scale s) == 0 ->
  getLocation point s = zeroPoint /\ unscaleVector point s = zeroPoint.
Proof.
  intros Hz. unfold getLocation, unscaleVector.
  assert (E : isZero (x (_scale s)) || isZero (y (_scale s)) = true).
  { apply orb_true_iff. destruct Hz as [Hz|Hz]; [left|right];
      now apply isZero_true. }
  now rewrite E.
Qed.

Lemma zero_scale_gives_zeroPoint_witness :
  getLocation {| x := 7; y := 9 |}
              (set_scale {| x := 0; y := 2 |} (panning zeroPoint)) = zeroPoint
  /\ unscaleVector {| x := 7; y := 9 |}
              (set_scale {| x := 0; y := 2 |} (panning zeroPoint)) = zeroPoint.
Proof.
  apply (zero_scale_gives_zeroPoint {| x := 7; y := 9 |}
           (set_scale {| x := 0; y := 2 |} (panning zeroPoint))).
  left. reflexivity.
Defined.

(** *** Geometry: content to container and back *)

Lemma nonzero_scale_not_guarded (s : State) :
  ~ x (_scale s) == 0 -> ~ y (_scale s) == 0 ->
  isZero (x (_scale s)) || isZero (y (_scale s)) = false.
Proof.
  intros Hx Hy. apply orb_false_iff. split; now apply isZero_false.
Qed.

(** What [getLocation] makes of a container location, in closed form: the
    point comes back negated and shifted, not as it was. *)
Lemma getLocation_of_getContainerLocation (p : IPoint) (s : State) :
  ~ x (_scale s) == 0 -> ~ y (_scale s) == 0 ->
  point_eq
    (getLocation (getContainerLocation p None s) s)
    {| x := - x p - 2 * x (_locationOffsetBase s)
            - (x (_viewOffset s) - 2 * x (containerOriginOffset s)) / x (_scale s);
       y := - y p - 2 * y (_locationOffsetBase s)
            - (y (_viewOffset s) - 2 * y (containerOriginOffset s)) / y (_scale s) |}.
Proof.
  intros Hx Hy. unfold getLocation.
  rewrite (nonzero_scale_not_guarded s Hx Hy).
  unfold getContainerLocation, containerOriginOffset, containerSize.
  destruct s as [ls [bx by_] [sx sy] hs [ax ay] pv ps pd pt da [vx vy]
                    [cw ch] hc ih ud ut snap hcnt eff].
  simpl in *. split; simpl; field; assumption.
Qed.

(** C1, as stated, fails: with unit scale, zero offsets and an empty
    container, the content point (1, 0) has container location (1, 0), and
    [getLocation] sends that to (-1, 0). *)
Lemma roundtrip_counterexample :
  (~ x (_scale (constructed [] zeroPoint)) == 0
   /\ ~ y (_scale (constructed [] zeroPoint)) == 0)
  /\ point_eq (getContainerLocation {| x := 1; y := 0 |} None
                 (constructed [] zeroPoint))
              {| x := 1; y := 0 |}
  /\ point_eq (getLocation
                 (getContainerLocation {| x := 1; y := 0 |} None
                    (constructed [] zeroPoint))
                 (constructed [] zeroPoint))
              {| x := - (1); y := 0 |}
  /\ ~ point_eq (getLocation
                   (getContainerLocation {| x := 1; y := 0 |} None
                      (constructed [] zeroPoint))
                   (constructed [] zeroPoint))
                {| x := 1; y := 0 |}.
Proof.
  repeat split; try (intros H; vm_compute in H; discriminate);
    try (vm_compute; reflexivity).
  intros [Hx _]. vm_compute in Hx. discriminate.
Qed.

(** C1, amended.  [getLocation] reads view coordinates, and the view
    coordinate of a container location is the view offset minus that location:
    converting a content point to its container location, taking the view
    coordinate of it and converting back yields the point, for every scale
    whose components are not zero. *)
Theorem getLocation_inverts_getContainerLocation (p : IPoint) (s : State) :
  ~ x (_scale s) == 0 -> ~ y (_scale s) == 0 ->
  point_eq
    (getLocation (point_sub (viewOffset s) (getContainerLocation p None s)) s) p.
Proof.
  intros Hx Hy. unfold getLocation.
  rewrite (nonzero_scale_not_guarded s Hx Hy).
  unfold getContainerLocation, containerOriginOffset, containerSize,
    viewOffset, point_sub.
  destruct s as [ls [bx by_] [sx sy] hs [ax ay] pv ps pd pt da [vx vy]
                    [cw ch] hc ih ud ut snap hcnt eff].
  simpl in *. split; simpl; field; assumption.
Qed.

Lemma getLocation_inverts_getContainerLocation_witness :
  point_eq
    (getLocation
       (point_sub (viewOffset (set_scale {| x := 2; y := - (3) |} (panning zeroPoint)))
          (getContainerLocation {| x := 5; y := 7 # 2 |} None
             (set_scale {| x := 2; y := - (3) |} (panning zeroPoint))))
       (set_scale {| x := 2; y := - (3) |} (panning zeroPoint)))
    {| x := 5; y := 7 # 2 |}.
Proof.
  apply (getLocation_inverts_getContainerLocation {| x := 5; y := 7 # 2 |}
           (set_scale {| x := 2; y := - (3) |} (panning zeroPoint)));
    simpl; intros H; vm_compute in H; discriminate.
Defined.

(** *** Programmatic scroll during a pan *)

(** C8.  While a pan gesture is in progress [scrollToOffset] returns no
    animation and leaves every field of the coordinator as it was, whatever
    the options. *)
Theorem scrollToOffset_refused_while_panning (options : ScrollOptions) (s : State) :
  _panStarted s = true ->
  scrollToOffset options s = (Returned None, s).
Proof.
  intros Hpan. unfold scrollToOffset, bind, gets. now rewrite Hpan.
Qed.

Lemma scrollToOffset_refused_while_panning_witness :
  scrollToOffset
    {| offset := {| px := Some 10; py := None |}; animated := true;
       timing := false; spring := None; manualStart := false; onEnd := true |}
    (panning {| x := 1 # 500; y := 0 |})
  = (Returned None, panning {| x := 1 # 500; y := 0 |}).
Proof.
  apply scrollToOffset_refused_while_panning. reflexivity.
Defined.

(** Outside a pan the same call does act: it starts a spring animation. *)
Example scrollToOffset_acts_when_idle :
  fst (scrollToOffset
         {| offset := {| px := Some 10; py := None |}; animated := true;
            timing := false; spring := None; manualStart := false; onEnd := true |}
         (set_panStarted false (panning zeroPoint)))
  = Returned (Some {| kind := Spring {| x := 10; y := 0 |} zeroPoint;
                      started := true; notifiesOnEnd := true |}).
Proof. vm_compute. reflexivity. Qed.

(** *** What one [update] does *)

Lemma notify_all (layoutSources : list nat) (s : State) :
  fold_left (fun s layoutSource => log (LayoutSource_setNeedsUpdate layoutSource) s)
            layoutSources s
  = set_effects (effects s ++ map LayoutSource_setNeedsUpdate layoutSources) s.
Proof.
  revert s. induction layoutSources as [|l ls IH]; intros s; simpl.
  - rewrite app_nil_r. now destruct s.
  - rewrite IH. unfold log. simpl. now rewrite <- app_assoc.
Qed.

(** Case analysis on everything [update] branches on. *)
Ltac update_cases s :=
  unfold update, cancelScheduledUpdate, bothLatched, containerSizeValid, scaleValid;
  rewrite ?notify_all; cbn;
  destruct (timerSet (_updateTimer s)) eqn:?,
           (_hasContainerSize s) eqn:?,
           (Qgeb (x (_containerSize s)) 1) eqn:?,
           (Qgeb (y (_containerSize s)) 1) eqn:?,
           (_hasScale s) eqn:?,
           (isZero (x (_scale s))) eqn:?,
           (isZero (y (_scale s))) eqn:?;
  repeat (cbn; rewrite ?notify_all;
          try match goal with H : _ = _ |- _ => rewrite H end);
  cbn; rewrite <- ?app_assoc; try reflexivity.

Lemma update_hasContainerSize (s : State) :
  _hasContainerSize (update s) = _hasContainerSize s || containerSizeValid s.
Proof. update_cases s. Qed.

Lemma update_hasScale (s : State) :
  _hasScale (update s)
  = _hasScale s || (_hasContainerSize (update s) && scaleValid s).
Proof. update_cases s. Qed.

Lemma update_effects (s : State) :
  effects (update s)
  = effects s ++ Update_called ::
      (if bothLatched (update s)
       then map LayoutSource_setNeedsUpdate (_layoutSources s) else []).
Proof. update_cases s. Qed.

(** [update] writes the two latches, the timer and the trace, nothing else. *)
Lemma update_frame (s : State) :
  _layoutSources (update s) = _layoutSources s
  /\ _locationOffsetBase (update s) = _locationOffsetBase s
  /\ _scale (update s) = _scale s
  /\ _anchor (update s) = _anchor s
  /\ _panVelocty (update s) = _panVelocty s
  /\ _panStarted (update s) = _panStarted s
  /\ _panDefaultPrevented (update s) = _panDefaultPrevented s
  /\ _panTarget (update s) = _panTarget s
  /\ _descelerationAnimation (update s) = _descelerationAnimation s
  /\ _viewOffset (update s) = _viewOffset s
  /\ _containerSize (update s) = _containerSize s
  /\ _interactionHandle (update s) = _interactionHandle s
  /\ _updateDepth (update s) = _updateDepth s
  /\ snapToLocation (update s) = snapToLocation s
  /\ handleCounter (update s) = handleCounter s.
Proof. update_cases s; repeat split. Qed.

Lemma update_timer (s : State) : timerSet (_updateTimer (update s)) = false.
Proof. update_cases s. Qed.

Lemma updateCount_app (t1 t2 : list Effect) :
  updateCount (t1 ++ t2) = (updateCount t1 + updateCount t2)%nat.
Proof. unfold updateCount. now rewrite List.filter_app, length_app. Qed.

Lemma updateCount_notifications (layoutSources : list nat) :
  updateCount (map LayoutSource_setNeedsUpdate layoutSources) = 0%nat.
Proof. induction layoutSources; simpl; auto. Qed.

Lemma update_counted (s : State) :
  updateCount (effects (update s)) = S (updateCount (effects s)).
Proof.
  rewrite update_effects, updateCount_app.
  change (updateCount (Update_called :: ?t)) with (S (updateCount t)).
  destruct (bothLatched (update s));
    rewrite ?updateCount_notifications; cbn; lia.
Qed.

(** *** Nested update blocks *)

Lemma set_updateDepth_same (s : State) :
  set_updateDepth (_updateDepth s) s = s.
Proof. now destruct s. Qed.

Lemma beginUpdates_depth (n : nat) (s : State) :
  beginUpdates n s = set_updateDepth (_updateDepth s + Z.of_nat n)%Z s.
Proof.
  revert s. induction n as [|n IH]; intros s.
  - simpl. now rewrite Z.add_0_r, set_updateDepth_same.
  - simpl beginUpdates. rewrite IH.
    transitivity (set_updateDepth (_updateDepth s + 1 + Z.of_nat n)%Z s);
      [reflexivity | f_equal; lia].
Qed.

(** An [endUpdate] that leaves the depth above zero only decrements it. *)
Lemma endUpdate_inner (s : State) :
  (1 < _updateDepth s)%Z ->
  endUpdate s = (Returned tt, set_updateDepth (_updateDepth s - 1)%Z s).
Proof.
  intros Hd. unfold endUpdate, bind, modify, gets, ret. cbn.
  destruct (_updateDepth s - 1 <? 0)%Z eqn:E1; [apply Z.ltb_lt in E1; lia|].
  destruct (0 <? _updateDepth s - 1)%Z eqn:E2; [reflexivity|].
  apply Z.ltb_ge in E2. lia.
Qed.

(** The [endUpdate] that brings the depth back to zero runs [update]. *)
Lemma endUpdate_outer (s : State) :
  _updateDepth s = 1%Z -> timerSet (_updateTimer s) = false ->
  endUpdate s = (Returned tt, update (set_updateDepth 0%Z s)).
Proof.
  intros Hd Ht. unfold endUpdate, bind, modify, gets, ret. cbn.
  rewrite Hd. change (1 - 1)%Z with 0%Z.
  change (0 <? 0)%Z with false. cbn iota.
  unfold scheduleUpdate. cbn. now rewrite Ht.
Qed.

Lemma endUpdates_inner (k : nat) (s : State) :
  (Z.of_nat k < _updateDepth s)%Z ->
  endUpdates k s = (Returned tt, set_updateDepth (_updateDepth s - Z.of_nat k)%Z s).
Proof.
  revert s. induction k as [|k IH]; intros s Hd.
  - cbn. now rewrite Z.sub_0_r, set_updateDepth_same.
  - cbn [endUpdates]. unfold bind. rewrite endUpdate_inner by lia.
    rewrite IH by (cbn; lia). f_equal.
    transitivity (set_updateDepth (_updateDepth s - 1 - Z.of_nat k)%Z s);
      [reflexivity | f_equal; lia].
Qed.

Lemma endUpdates_outer (k : nat) (s : State) :
  _updateDepth s = Z.of_nat (S k) -> timerSet (_updateTimer s) = false ->
  endUpdates (S k) s = (Returned tt, update (set_updateDepth 0%Z s)).
Proof.
  revert s. induction k as [|k IH]; intros s Hd Ht.
  - cbn [endUpdates]. unfold bind. now rewrite endUpdate_outer.
  - cbn [endUpdates]. unfold bind at 1. rewrite endUpdate_inner by lia.
    change (endUpdate;;; endUpdates k)%method with (endUpdates (S k)).
    rewrite IH; [reflexivity | cbn; lia | exact Ht].
Qed.

(** C2.  From depth zero, [N >= 1] nested calls of [beginUpdate] followed by
    [N] calls of [endUpdate] enter [update] exactly once: each of the first
    [N - 1] calls of [endUpdate] returns at a positive depth and leaves the
    trace as it was, and the last one, which takes the depth from 1 to 0, runs
    [update]. *)
Theorem nested_updates_update_once (N : nat) (s : State) :
  (1 <= N)%nat ->
  _updateDepth s = 0%Z ->
  timerSet (_updateTimer s) = false ->
  (forall j, (j < N)%nat ->
     fst (endUpdates j (beginUpdates N s)) = Returned tt
     /\ effects (snd (endUpdates j (beginUpdates N s))) = effects s
     /\ _updateDepth (snd (endUpdates j (beginUpdates N s)))
        = (Z.of_nat N - Z.of_nat j)%Z)
  /\ endUpdates N (beginUpdates N s) = (Returned tt, update s)
  /\ updateCount (effects (snd (endUpdates N (beginUpdates N s))))
     = S (updateCount (effects s))
  /\ _updateDepth (snd (endUpdates N (beginUpdates N s))) = 0%Z.
Proof.
  intros HN Hd Ht. rewrite beginUpdates_depth, Hd, Z.add_0_l.
  assert (Hall : endUpdates N (set_updateDepth (Z.of_nat N) s)
                 = (Returned tt, update s)).
  { destruct N as [|k]; [lia|].
    rewrite endUpdates_outer; [| reflexivity | exact Ht].
    do 2 f_equal.
    transitivity (set_updateDepth (_updateDepth s) s);
      [rewrite Hd; reflexivity | apply set_updateDepth_same]. }
  split; [| split; [exact Hall | split]].
  - intros j Hj. rewrite endUpdates_inner by (cbn; lia). cbn. repeat split.
  - rewrite Hall. cbn. apply update_counted.
  - rewrite Hall. cbn. update_cases s; assumption.
Qed.

Lemma nested_updates_update_once_witness :
  (forall j, (j < 3)%nat ->
     fst (endUpdates j (beginUpdates 3 (panning zeroPoint))) = Returned tt
     /\ effects (snd (endUpdates j (beginUpdates 3 (panning zeroPoint))))
        = effects (panning zeroPoint)
     /\ _updateDepth (snd (endUpdates j (beginUpdates 3 (panning zeroPoint))))
        = (Z.of_nat 3 - Z.of_nat j)%Z)
  /\ endUpdates 3 (beginUpdates 3 (panning zeroPoint))
     = (Returned tt, update (panning zeroPoint))
  /\ updateCount (effects (snd (endUpdates 3 (beginUpdates 3 (panning zeroPoint)))))
     = S (updateCount (effects (panning zeroPoint)))
  /\ _updateDepth (snd (endUpdates 3 (beginUpdates 3 (panning zeroPoint)))) = 0%Z.
Proof.
  apply (nested_updates_update_once 3 (panning zeroPoint)).
  - lia.
  - reflexivity.
  - reflexivity.
Defined.

(** Three nested blocks around a coordinator with two layout sources: one
    [update], which notifies each source once. *)
Example nested_updates_scenario :
  effects (snd (endUpdates 3 (beginUpdates 3 (panning zeroPoint))))
  = [Update_called; LayoutSource_setNeedsUpdate 0; LayoutSource_setNeedsUpdate 1]
  /\ fst (endUpdates 4 (beginUpdates 3 (panning zeroPoint)))
     = Thrown "Mismatched begin/end update calls".
Proof. vm_compute. split; reflexivity. Qed.

(** *** What every call keeps *)

Lemma evolves_refl (s : State) : evolves s s.
Proof. split; auto. Qed.

Lemma evolves_trans (a b c : State) : evolves a b -> evolves b c -> evolves a c.
Proof.
  intros [A1 A2 A3 A4 A5 A6] [B1 B2 B3 B4 B5 B6]. split; auto.
  - intros Hc. rewrite B3 by exact Hc. apply A3.
    unfold bothLatched in *.
    destruct (_hasContainerSize b) eqn:E1, (_hasScale b) eqn:E2; auto.
    rewrite B1, B2 in Hc by reflexivity. discriminate.
  - congruence.
Qed.

Lemma notifications_app (t1 t2 : list Effect) :
  notifications (t1 ++ t2) = notifications t1 ++ notifications t2.
Proof. apply flat_map_app. Qed.

Lemma notifications_map (layoutSources : list nat) :
  notifications (map LayoutSource_setNeedsUpdate layoutSources) = layoutSources.
Proof.
  induction layoutSources as [|l ls IH]; [reflexivity|].
  unfold notifications in *. cbn [map flat_map app]. now rewrite IH.
Qed.

Lemma evolves_log (e : Effect) (s : State) : silent e -> evolves s (log e s).
Proof.
  intros He. split; cbn; auto. intros _.
  rewrite notifications_app. destruct e; cbn in *; try contradiction;
    apply app_nil_r.
Qed.

Lemma evolves_update (s : State) : evolves s (update s).
Proof.
  split.
  - rewrite update_hasContainerSize. now intros ->.
  - rewrite update_hasScale. now intros ->.
  - intros Hl. rewrite update_effects, Hl, notifications_app. cbn. apply app_nil_r.
  - intros Hd. pose proof (update_frame s) as Hf. decompose [and] Hf. congruence.
  - intros _. apply update_timer.
  - apply update_frame.
Qed.

Lemma evolves_cancelScheduledUpdate (s : State) :
  evolves s (cancelScheduledUpdate s).
Proof.
  unfold cancelScheduledUpdate. destruct (timerSet (_updateTimer s)) eqn:E.
  - split; cbn; auto.
  - apply evolves_refl.
Qed.

Lemma evolves_scheduleUpdate (s : State) : evolves s (scheduleUpdate s).
Proof.
  unfold scheduleUpdate. destruct (timerSet (_updateTimer s));
    [apply evolves_refl | apply evolves_update].
Qed.

Lemma evolves_beginUpdate (s : State) : evolves s (beginUpdate s).
Proof. split; cbn; auto. lia. Qed.

Lemma evolves_endUpdate : respects evolves endUpdate.
Proof.
  intros s. unfold endUpdate, bind, modify, gets, ret, throw. cbn.
  destruct (_updateDepth s - 1 <? 0)%Z eqn:E1; cbn.
  - split; cbn; auto. lia.
  - apply Z.ltb_ge in E1.
    destruct (0 <? _updateDepth s - 1)%Z eqn:E2; cbn.
    + split; cbn; auto.
    + eapply evolves_trans; [|apply evolves_scheduleUpdate].
      split; cbn; auto.
Qed.

Create HintDb evolve.
#[local] Hint Resolve evolves_refl evolves_update evolves_cancelScheduledUpdate
  evolves_scheduleUpdate evolves_beginUpdate evolves_endUpdate : evolve.

(** A field assignment that touches none of the fields [evolves] reads. *)
Ltac evolves_field := split; cbn; auto.

Ltac respects_method :=
  respects_walk evolves_refl evolves_trans
    ltac:(first [ solve [eauto with evolve]
                | solve [apply evolves_log; exact I]
                | solve [evolves_field] ]).

Lemma evolves_setNeedsUpdate : respects evolves setNeedsUpdate.
Proof. unfold setNeedsUpdate. respects_method. Qed.
#[local] Hint Resolve evolves_setNeedsUpdate : evolve.

Lemma evolves_containerSize_listener p : respects evolves (containerSize_listener p).
Proof.
  unfold containerSize_listener, didChangeContainerSize, didChangeViewportSize.
  respects_method.
Qed.

Lemma evolves_scale_listener p : respects evolves (scale_listener p).
Proof. unfold scale_listener, didChangeScale. respects_method. Qed.

Lemma evolves_anchor_listener p : respects evolves (anchor_listener p).
Proof. unfold anchor_listener, didChangeAnchor. respects_method. Qed.

Lemma evolves_locationOffsetBase_listener p :
  respects evolves (locationOffsetBase_listener p).
Proof. unfold locationOffsetBase_listener, didChangeLocation. respects_method. Qed.

Lemma evolves_onViewOffsetChange p : respects evolves (_onViewOffsetChange p).
Proof. unfold _onViewOffsetChange. respects_method. Qed.
#[local] Hint Resolve evolves_locationOffsetBase_listener
  evolves_onViewOffsetChange : evolve.

Lemma evolves_panTarget_setValue p : respects evolves (panTarget_setValue p).
Proof. unfold panTarget_setValue. respects_method. Qed.

Lemma evolves_startInteraction s : evolves s (_startInteraction s).
Proof.
  unfold _startInteraction. destruct (_interactionHandle s =? 0)%Z;
    [evolves_field | apply evolves_refl].
  intros _. rewrite notifications_app. apply app_nil_r.
Qed.

Lemma evolves_endInteration s : evolves s (_endInteration s).
Proof.
  unfold _endInteration. destruct (negb (_interactionHandle s =? 0)%Z);
    [evolves_field | apply evolves_refl].
  intros _. rewrite notifications_app. apply app_nil_r.
Qed.
#[local] Hint Resolve evolves_panTarget_setValue evolves_startInteraction
  evolves_endInteration : evolve.

Lemma evolves_transferViewOffsetToLocation :
  respects evolves _transferViewOffsetToLocation.
Proof. unfold _transferViewOffsetToLocation. respects_method. Qed.
#[local] Hint Resolve evolves_transferViewOffsetToLocation : evolve.

Lemma evolves_onEndDeceleration finished :
  respects evolves (_onEndDeceleration finished).
Proof. unfold _onEndDeceleration. respects_method. Qed.
#[local] Hint Resolve evolves_onEndDeceleration : evolve.

Lemma evolves_stopDesceleration : respects evolves stopDesceleration.
Proof. unfold stopDesceleration. respects_method. Qed.
#[local] Hint Resolve evolves_stopDesceleration : evolve.

Lemma evolves_scrollToOffset options : respects evolves (scrollToOffset options).
Proof.
  unfold scrollToOffset, _onStartDeceleration.
  destruct (px (offset options)), (py (offset options)); respects_method.
Qed.
#[local] Hint Resolve evolves_scrollToOffset : evolve.

Lemma evolves_scrollBy options : respects evolves (scrollBy options).
Proof.
  unfold scrollBy.
  destruct (px (offset options)), (py (offset options)); respects_method.
Qed.

Lemma evolves_onEndPan : respects evolves _onEndPan.
Proof. unfold _onEndPan, _onStartDeceleration. respects_method. Qed.
#[local] Hint Resolve evolves_scrollBy evolves_onEndPan : evolve.

Lemma evolves_preventDefaultPan : respects evolves preventDefaultPan.
Proof. unfold preventDefaultPan. respects_method. Qed.

Lemma evolves_perform (c : Call) : respects evolves (perform c).
Proof.
  destruct c; unfold perform, void;
    eauto using evolves_containerSize_listener, evolves_scale_listener,
      evolves_anchor_listener, evolves_preventDefaultPan with evolve;
    respects_method.
Qed.

Lemma evolves_run (calls : list Call) (s : State) : evolves s (run calls s).
Proof.
  revert s. unfold run. induction calls as [|c calls IH]; intros s; cbn.
  - apply evolves_refl.
  - eapply evolves_trans; [apply evolves_perform | apply IH].
Qed.

(** From the constructor on, whatever is called, the depth of the update
    blocks is never negative and no update timer is ever pending. *)
Lemma depth_and_timer_reachable (calls : list Call)
    (layoutSources : list nat) (anchor : IPoint) :
  (0 <= _updateDepth (run calls (constructed layoutSources anchor)))%Z
  /\ timerSet (_updateTimer (run calls (constructed layoutSources anchor))) = false.
Proof.
  destruct (evolves_run calls (constructed layoutSources anchor))
    as [_ _ _ Hd Ht _].
  split; [apply Hd; cbn; lia | apply Ht; reflexivity].
Qed.

(** *** The update preconditions *)


(** A coordinator fresh from its constructor: the first [update] does
    nothing, a container size below 1 x 1 changes nothing, and once a
    300 x 300 container has been reported every [update] notifies both layout
    sources, also after the container has shrunk below 1 x 1 again. *)
Example update_latches_scenario :
  notifications (effects (run [Call_update]
                            (constructed [0%nat; 1%nat] zeroPoint))) = []
  /\ notifications
       (effects (run [Event_containerSize {| x := 1 # 2; y := 300 |}; Call_update]
                     (constructed [0%nat; 1%nat] zeroPoint))) = []
  /\ notifications
       (effects (run [Event_containerSize {| x := 300; y := 300 |}]
                     (constructed [0%nat; 1%nat] zeroPoint))) = [0%nat; 1%nat]
  /\ notifications
       (effects (run [Event_containerSize {| x := 300; y := 300 |};
                      Event_containerSize {| x := 1 # 2; y := 1 # 2 |}]
                     (constructed [0%nat; 1%nat] zeroPoint)))
     = [0%nat; 1%nat; 0%nat; 1%nat].
Proof. vm_compute. repeat split. Qed.


(** *** The end of a pan gesture *)

Lemma startedAnimations_app (t1 t2 : list Effect) :
  startedAnimations (t1 ++ t2) = startedAnimations t1 ++ startedAnimations t2.
Proof. apply flat_map_app. Qed.

Lemma startedAnimations_notifications (layoutSources : list nat) :
  startedAnimations (map LayoutSource_setNeedsUpdate layoutSources) = [].
Proof. induction layoutSources as [|l ls IH]; [reflexivity | exact IH]. Qed.

Lemma settled_refl (s : State) : settled s s.
Proof. split; auto. Qed.

Lemma settled_trans (a b c : State) : settled a b -> settled b c -> settled a c.
Proof. intros [] []. split; try congruence; auto. Qed.

Lemma settled_update (s : State) : settled s (update s).
Proof.
  pose proof (update_frame s) as Hf. decompose [and] Hf.
  split; try assumption.
  - intros _. apply update_timer.
  - rewrite update_effects, startedAnimations_app. cbn.
    destruct (bothLatched (update s)); cbn;
      rewrite ?startedAnimations_notifications; apply app_nil_r.
Qed.

Lemma startedAnimations_cleared (trace : list Effect) (handle : Z) :
  startedAnimations (trace ++ [Interaction_cleared handle])
  = startedAnimations trace.
Proof. rewrite startedAnimations_app. apply app_nil_r. Qed.

#[local] Arguments startedAnimations : simpl never.

Lemma endUpdate_returns (s : State) :
  (1 <= _updateDepth s)%Z ->
  exists s', endUpdate s = (Returned tt, s')
             /\ _updateDepth s' = (_updateDepth s - 1)%Z /\ settled s s'.
Proof.
  intros Hd. unfold endUpdate, bind, modify, gets, ret. cbn.
  destruct (_updateDepth s - 1 <? 0)%Z eqn:E1; [apply Z.ltb_lt in E1; lia|].
  destruct (0 <? _updateDepth s - 1)%Z eqn:E2.
  - eexists. split; [reflexivity|]. split; [reflexivity | split; auto].
  - eexists. split; [reflexivity|]. unfold scheduleUpdate. cbn.
    destruct (timerSet (_updateTimer s)) eqn:Et.
    + split; [reflexivity | split; auto].
    + pose proof (update_frame (set_updateDepth (_updateDepth s - 1)%Z s)) as Hf.
      decompose [and] Hf. split; [assumption|].
      eapply settled_trans; [|apply settled_update]. split; auto.
Qed.

Lemma setNeedsUpdate_returns (s : State) :
  (0 <= _updateDepth s)%Z ->
  exists s', setNeedsUpdate s = (Returned tt, s')
             /\ _updateDepth s' = _updateDepth s /\ settled s s'.
Proof.
  intros Hd. unfold setNeedsUpdate, bind, modify. cbn.
  destruct (endUpdate_returns (beginUpdate s)) as (s' & E & Hd' & Hs);
    [cbn; lia|].
  exists s'. split; [exact E|]. split; [cbn in Hd'; lia|].
  eapply settled_trans; [|exact Hs]. split; auto.
Qed.

Lemma transferViewOffsetToLocation_returns (s : State) :
  (0 <= _updateDepth s)%Z ->
  exists s', _transferViewOffsetToLocation s = (Returned tt, s')
             /\ _updateDepth s' = _updateDepth s
             /\ _panTarget s' = _panTarget s
             /\ _panStarted s' = _panStarted s
             /\ _panDefaultPrevented s' = _panDefaultPrevented s
             /\ _interactionHandle s' = _interactionHandle s
             /\ (timerSet (_updateTimer s) = false -> timerSet (_updateTimer s') = false)
             /\ startedAnimations (effects s') = startedAnimations (effects s).
Proof.
  intros Hd.
  unfold _transferViewOffsetToLocation, locationOffsetBase_listener,
    didChangeLocation.
  rewrite bind_modify, bind_gets, !bind_modify, bind_assoc, bind_modify.
  match goal with
  | |- context [bind setNeedsUpdate _ ?s1] =>
      destruct (setNeedsUpdate_returns s1) as (s2 & E2 & Hd2 & H2); [cbn; lia|];
      rewrite (bind_returned _ _ _ _ _ E2); cbn in Hd2
  end.
  destruct (endUpdate_returns s2) as (s3 & E3 & Hd3 & H3); [lia|].
  exists s3. split; [exact E3|].
  destruct H2, H3. cbn in *. repeat split; try congruence; try lia; auto.
Qed.

(** Finalising a pan or an animation: no throw, no animation started, the
    animation slot empty, the view offset back at zero, the interaction token
    released. *)
Lemma onEndDeceleration_returns (finished : bool) (s : State) :
  (0 <= _updateDepth s)%Z ->
  _panTarget s = ViewOffsetTarget ->
  exists s', _onEndDeceleration finished s = (Returned tt, s')
             /\ _updateDepth s' = _updateDepth s
             /\ _descelerationAnimation s' = None
             /\ _viewOffset s' = zeroPoint
             /\ _interactionHandle s' = 0%Z
             /\ _panStarted s' = _panStarted s
             /\ _panDefaultPrevented s' = _panDefaultPrevented s
             /\ startedAnimations (effects s') = startedAnimations (effects s).
Proof.
  intros Hd Ht. unfold _onEndDeceleration.
  destruct (transferViewOffsetToLocation_returns s Hd)
    as (s1 & E1 & Hd1 & Ht1 & Hp1 & Hv1 & _ & _ & Ha1).
  rewrite (bind_returned _ _ _ _ _ E1).
  unfold panTarget_setValue. rewrite bind_assoc, bind_gets, Ht1, Ht.
  unfold _onViewOffsetChange. rewrite bind_assoc, bind_modify.
  destruct (setNeedsUpdate_returns (set_viewOffset zeroPoint s1))
    as (s2 & E2 & Hd2 & H2); [cbn; lia|].
  rewrite (bind_returned _ _ _ _ _ E2), bind_modify.
  eexists. split; [reflexivity|]. destruct H2. cbn in *.
  unfold _endInteration. cbn.
  destruct (negb (_interactionHandle s2 =? 0)%Z) eqn:E; cbn.
  - repeat split; try congruence.
    rewrite startedAnimations_cleared. congruence.
  - apply negb_false_iff, Z.eqb_eq in E. repeat split; congruence.
Qed.

Lemma isZeroVelocity_false (velocity : IPoint) :
  isZeroVelocity velocity = false <-> fastRelease velocity.
Proof.
  unfold isZeroVelocity, fastRelease. rewrite andb_false_iff.
  rewrite <- !not_true_iff_false, !Qltb_lt. split.
  - intros [H|H]; [left|right]; now apply Qnot_lt_le.
  - intros [H|H]; [left|right]; now apply Qle_not_lt.
Qed.

Lemma isZeroVelocity_true (velocity : IPoint) :
  isZeroVelocity velocity = true <-> ~ fastRelease velocity.
Proof.
  rewrite <- isZeroVelocity_false. destruct (isZeroVelocity velocity);
    split; congruence.
Qed.

(** After the callback has declined or was not there, [_onEndPan] is left
    with the choice between the decay animation and the immediate end. *)
Lemma onEndPan_unsnapped (s : State) :
  _panTarget s = ViewOffsetTarget ->
  _panDefaultPrevented s = false ->
  snapDeclines s ->
  exists trace,
    startedAnimations trace = []
    /\ _onEndPan s
       = ((if negb (isZeroVelocity (_panVelocty s)) then
             modify (set_descelerationAnimation (Some (decayOf (_panVelocty s)))) ;;;
             modify _onStartDeceleration ;;;
             modify (log (Animation_start (decayOf (_panVelocty s))))
           else _onEndDeceleration true) ;;;
          modify (set_panVelocty zeroPoint))%method
            (set_effects (effects s ++ trace) (set_panStarted false s)).
Proof.
  intros Ht Hp Hsnap. unfold _onEndPan, snapDeclines in *.
  unfold bind at 1, modify at 1. unfold bind at 1, gets at 1.
  unfold bind at 1, gets at 1. unfold bind at 1, gets at 1.
  unfold bind at 1, gets at 1. unfold bind at 1, gets at 1.
  cbn [_panDefaultPrevented _panTarget set_panStarted]. rewrite Ht, Hp.
  cbn [negb].
  destruct (snapToLocation s) as [callback|] eqn:Es.
  - exists [SnapToLocation_called (scrollInfoAtRelease s)]. split; [reflexivity|].
    unfold bind at 1. unfold bind at 1, gets at 1.
    cbn [snapToLocation set_panStarted]. rewrite Es.
    unfold bind at 1. unfold bind at 1, gets at 1. unfold bind at 1, modify at 1.
    change {| info_location := locationOffset (set_panStarted false s);
              info_velocity := contentVelocity (set_panStarted false s);
              info_offset := viewOffset (set_panStarted false s);
              info_scaledVelocity := panVelocity (set_panStarted false s) |}
      with (scrollInfoAtRelease s).
    rewrite Hsnap. reflexivity.
  - exists []. split; [reflexivity|].
    unfold bind at 1. unfold bind at 1, gets at 1.
    cbn [snapToLocation set_panStarted]. rewrite Es.
    unfold bind at 1, ret at 1. cbn [negb].
    rewrite app_nil_r.
    replace (set_effects (effects s) (set_panStarted false s))
      with (set_panStarted false s) by (now destruct s).
    reflexivity.
Qed.

Lemma startedAnimations_startInteraction (s : State) :
  startedAnimations (effects (_startInteraction s))
  = startedAnimations (effects s).
Proof.
  unfold _startInteraction. destruct (_interactionHandle s =? 0)%Z; [|reflexivity].
  cbn. rewrite startedAnimations_app. apply app_nil_r.
Qed.

(** C7.  At the end of a pan on the default pan target, not prevented, with
    [snapToLocation] absent or declining: a decay animation is started if and
    only if the magnitude of the release velocity is at least 0.001 on at
    least one axis.  When it is, the animation is the decay seeded with that
    velocity and it becomes the running animation; when it is not, the pan is
    finalised at once: no animation is started or left running, the view
    offset is back at zero and the interaction token is released. *)
Theorem pan_end_decays_iff_fast (s : State) :
  _panTarget s = ViewOffsetTarget ->
  _panDefaultPrevented s = false ->
  snapDeclines s ->
  (0 <= _updateDepth s)%Z ->
  ((exists a, startedAnimations (effects (snd (_onEndPan s)))
              = startedAnimations (effects s) ++ [a])
   <-> fastRelease (_panVelocty s))
  /\ (fastRelease (_panVelocty s) ->
      fst (_onEndPan s) = Returned tt
      /\ startedAnimations (effects (snd (_onEndPan s)))
         = startedAnimations (effects s) ++ [decayOf (_panVelocty s)]
      /\ _descelerationAnimation (snd (_onEndPan s)) = Some (decayOf (_panVelocty s))
      /\ _panStarted (snd (_onEndPan s)) = false)
  /\ (~ fastRelease (_panVelocty s) ->
      fst (_onEndPan s) = Returned tt
      /\ startedAnimations (effects (snd (_onEndPan s)))
         = startedAnimations (effects s)
      /\ _descelerationAnimation (snd (_onEndPan s)) = None
      /\ _viewOffset (snd (_onEndPan s)) = zeroPoint
      /\ _panVelocty (snd (_onEndPan s)) = zeroPoint
      /\ _interactionHandle (snd (_onEndPan s)) = 0%Z
      /\ _panStarted (snd (_onEndPan s)) = false).
Proof.
  intros Ht Hp Hsnap Hd.
  destruct (onEndPan_unsnapped s Ht Hp Hsnap) as (trace & Htrace & E).
  assert (Hfast : fastRelease (_panVelocty s) ->
      fst (_onEndPan s) = Returned tt
      /\ startedAnimations (effects (snd (_onEndPan s)))
         = startedAnimations (effects s) ++ [decayOf (_panVelocty s)]
      /\ _descelerationAnimation (snd (_onEndPan s)) = Some (decayOf (_panVelocty s))
      /\ _panStarted (snd (_onEndPan s)) = false).
  { intros Hv. apply isZeroVelocity_false in Hv. rewrite E, Hv. cbn [negb].
    rewrite bind_assoc, bind_modify, bind_assoc, bind_modify, bind_modify.
    unfold modify, _onStartDeceleration. cbn [fst snd].
    split; [reflexivity|]. split; [|split].
    - cbn [effects set_panVelocty log set_effects].
      rewrite startedAnimations_app, startedAnimations_startInteraction.
      cbn [effects set_descelerationAnimation set_effects].
      rewrite startedAnimations_app, Htrace, app_nil_r. reflexivity.
    - unfold _startInteraction. cbn.
      destruct (_interactionHandle s =? 0)%Z; reflexivity.
    - unfold _startInteraction. cbn.
      destruct (_interactionHandle s =? 0)%Z; reflexivity. }
  assert (Hslow : ~ fastRelease (_panVelocty s) ->
      fst (_onEndPan s) = Returned tt
      /\ startedAnimations (effects (snd (_onEndPan s)))
         = startedAnimations (effects s)
      /\ _descelerationAnimation (snd (_onEndPan s)) = None
      /\ _viewOffset (snd (_onEndPan s)) = zeroPoint
      /\ _panVelocty (snd (_onEndPan s)) = zeroPoint
      /\ _interactionHandle (snd (_onEndPan s)) = 0%Z
      /\ _panStarted (snd (_onEndPan s)) = false).
  { intros Hv. apply isZeroVelocity_true in Hv. rewrite E, Hv. cbn [negb].
    destruct (onEndDeceleration_returns true
                (set_effects (effects s ++ trace) (set_panStarted false s)))
      as (s' & E' & _ & Ha & Hvo & Hh & Hps & _ & Hst); [exact Hd | exact Ht |].
    rewrite (bind_returned _ _ _ _ _ E'). unfold modify. cbn [fst snd].
    cbn in Hps, Hst. rewrite startedAnimations_app, Htrace, app_nil_r in Hst.
    repeat split; assumption. }
  split; [|split; assumption].
  split.
  - intros [a Ha]. destruct (isZeroVelocity (_panVelocty s)) eqn:Hz.
    + apply isZeroVelocity_true in Hz. destruct (Hslow Hz) as (_ & Hsame & _).
      rewrite Hsame in Ha. apply (f_equal (@length _)) in Ha.
      rewrite length_app in Ha. cbn in Ha. lia.
    + now apply isZeroVelocity_false.
  - intros Hv. exists (decayOf (_panVelocty s)). now apply Hfast.
Qed.

Lemma pan_end_decays_iff_fast_witness :
  ((exists a, startedAnimations
                (effects (snd (_onEndPan (panning {| x := - (1 # 500); y := 0 |}))))
              = startedAnimations (effects (panning {| x := - (1 # 500); y := 0 |}))
                ++ [a])
   <-> fastRelease (_panVelocty (panning {| x := - (1 # 500); y := 0 |})))
  /\ fastRelease (_panVelocty (panning {| x := - (1 # 500); y := 0 |})).
Proof.
  split.
  - apply (pan_end_decays_iff_fast (panning {| x := - (1 # 500); y := 0 |}));
      [reflexivity | reflexivity | exact I | cbn; lia].
  - left. cbn. unfold kPanSpeedMin, Qle. cbn. lia.
Defined.

(** The two releases of the scenario: at (-0.002, 0) the decay animation is
    started, at (0.0001, 0) nothing is started and the pan is over. *)
Example release_scenarios :
  startedAnimations (effects (snd (_onEndPan (panning {| x := - (1 # 500); y := 0 |}))))
  = [decayOf {| x := - (1 # 500); y := 0 |}]
  /\ _descelerationAnimation (snd (_onEndPan (panning {| x := - (1 # 500); y := 0 |})))
     = Some (decayOf {| x := - (1 # 500); y := 0 |})
  /\ startedAnimations
       (effects (snd (_onEndPan (panning {| x := 1 # 10000; y := 0 |})))) = []
  /\ _descelerationAnimation (snd (_onEndPan (panning {| x := 1 # 10000; y := 0 |})))
     = None
  /\ _viewOffset (snd (_onEndPan (panning {| x := 1 # 10000; y := 0 |}))) = zeroPoint.
Proof. vm_compute. repeat split. Qed.

(** When the default pan has been prevented, [_onEndPan] leaves the gesture
    to the caller: even a fast release starts no animation. *)
Example prevented_pan_starts_nothing :
  startedAnimations
    (effects (snd (_onEndPan (set_panDefaultPrevented true
                                (panning {| x := - (1 # 500); y := 0 |}))))) = []
  /\ _descelerationAnimation
       (snd (_onEndPan (set_panDefaultPrevented true
                          (panning {| x := - (1 # 500); y := 0 |})))) = None.
Proof. vm_compute. split; reflexivity. Qed.

(** ** Further properties of the coordinator *)

(** *** Update blocks: errors and batching *)

(** X1.  [endUpdate] without an open block throws "Mismatched begin/end
    update calls" and leaves the coordinator as it was, at depth zero: no
    update runs and nothing is scheduled. *)
Theorem endUpdate_without_block (s : State) :
  _updateDepth s = 0%Z ->
  endUpdate s = (Thrown "Mismatched begin/end update calls", s).
Proof.
  intros Hd. unfold endUpdate. rewrite bind_modify, bind_gets.
  cbn [_updateDepth set_updateDepth]. rewrite Hd.
  change (0 - 1 <? 0)%Z with true. cbn iota. rewrite bind_modify.
  unfold throw. f_equal.
  transitivity (set_updateDepth (_updateDepth s) s);
    [rewrite Hd; reflexivity | apply set_updateDepth_same].
Qed.

Lemma endUpdate_without_block_witness :
  endUpdate (constructed [0%nat] zeroPoint)
  = (Thrown "Mismatched begin/end update calls", constructed [0%nat] zeroPoint).
Proof. apply endUpdate_without_block. reflexivity. Defined.

Lemma setNeedsUpdate_in_block (s : State) :
  (1 <= _updateDepth s)%Z -> setNeedsUpdate s = (Returned tt, s).
Proof.
  intros Hd. unfold setNeedsUpdate. rewrite bind_modify.
  rewrite endUpdate_inner by (cbn; lia). f_equal.
  transitivity (set_updateDepth (_updateDepth s) s);
    [| apply set_updateDepth_same].
  unfold beginUpdate. cbn [_updateDepth set_updateDepth].
  transitivity (set_updateDepth (_updateDepth s + 1 - 1)%Z s);
    [reflexivity | f_equal; lia].
Qed.

Lemma setNeedsUpdate_at_rest (s : State) :
  _updateDepth s = 0%Z -> timerSet (_updateTimer s) = false ->
  setNeedsUpdate s = (Returned tt, update s).
Proof.
  intros Hd Ht. unfold setNeedsUpdate. rewrite bind_modify.
  rewrite endUpdate_outer; [| cbn; lia | exact Ht]. do 2 f_equal.
  transitivity (set_updateDepth (_updateDepth s) s);
    [rewrite Hd; reflexivity | apply set_updateDepth_same].
Qed.

(** X2.  [setNeedsUpdate] changes nothing inside an open update block, and
    outside of one it is one call of [update]. *)
Theorem setNeedsUpdate_defers_to_block (s : State) :
  (0 <= _updateDepth s)%Z ->
  timerSet (_updateTimer s) = false ->
  setNeedsUpdate s
  = (Returned tt, if (_updateDepth s =? 0)%Z then update s else s).
Proof.
  intros Hd Ht. destruct (_updateDepth s =? 0)%Z eqn:E.
  - apply Z.eqb_eq in E. now apply setNeedsUpdate_at_rest.
  - apply Z.eqb_neq in E. apply setNeedsUpdate_in_block. lia.
Qed.

Lemma setNeedsUpdate_defers_to_block_witness :
  setNeedsUpdate (beginUpdate (panning zeroPoint))
  = (Returned tt, beginUpdate (panning zeroPoint)).
Proof.
  apply (setNeedsUpdate_defers_to_block (beginUpdate (panning zeroPoint)));
    [cbn; lia | reflexivity].
Defined.

Lemma updateCount_snoc_callback (trace : list Effect) (name : string) :
  updateCount (trace ++ [Callback_called name]) = updateCount trace.
Proof. rewrite updateCount_app. cbn. lia. Qed.

(** Inside a block a mutation returns and leaves the depth, the timer and
    the number of updates as they were. *)
Lemma mutation_in_block (c : Call) (s : State) :
  isMutation c = true ->
  (1 <= _updateDepth s)%Z ->
  exists s', perform c s = (Returned tt, s')
             /\ _updateDepth s' = _updateDepth s
             /\ _updateTimer s' = _updateTimer s
             /\ updateCount (effects s') = updateCount (effects s)
             /\ notifications (effects s') = notifications (effects s).
Proof.
  intros Hc Hd. destruct c; try discriminate; cbn [perform].
  - exists s. split; [now apply setNeedsUpdate_in_block | auto].
  - unfold containerSize_listener. rewrite bind_gets. unfold id.
    destruct (Qle_bool (x p) 0 || Qle_bool (y p) 0); [exists s; auto|].
    destruct (Qltb _ 1 && Qltb _ 1); [exists s; auto|].
    rewrite bind_modify.
    unfold didChangeContainerSize, didChangeViewportSize.
    rewrite (bind_returned _ _ _ _ _
               (setNeedsUpdate_in_block (set_containerSize p s) Hd)).
    eexists. split; [reflexivity|]. cbn. repeat split.
    + apply updateCount_snoc_callback.
    + rewrite notifications_app. apply app_nil_r.
  - unfold scale_listener. rewrite bind_gets. unfold id.
    destruct (isZero (x p) || isZero (y p)); [exists s; auto|].
    destruct (Qeq_bool _ _ && Qeq_bool _ _); [exists s; auto|].
    rewrite bind_modify. unfold didChangeScale. rewrite bind_modify.
    match goal with
    | |- context [setNeedsUpdate ?s1] =>
        rewrite (setNeedsUpdate_in_block s1) by exact Hd
    end.
    eexists. split; [reflexivity|]. cbn. repeat split.
    + apply updateCount_snoc_callback.
    + rewrite notifications_app. apply app_nil_r.
  - unfold anchor_listener. rewrite bind_gets. unfold id.
    destruct (Qeq_bool _ _ && Qeq_bool _ _); [exists s; auto|].
    rewrite bind_modify. unfold didChangeAnchor.
    rewrite setNeedsUpdate_in_block by exact Hd.
    eexists. split; [reflexivity|]. cbn. auto.
  - unfold locationOffsetBase_listener. rewrite bind_modify.
    unfold didChangeLocation. rewrite setNeedsUpdate_in_block by exact Hd.
    eexists. split; [reflexivity|]. cbn. auto.
  - unfold _onViewOffsetChange. rewrite bind_modify.
    rewrite setNeedsUpdate_in_block by exact Hd.
    eexists. split; [reflexivity|]. cbn. auto.
  - unfold panVelocty_listener. eexists. split; [reflexivity|]. cbn. auto.
Qed.

Lemma mutations_in_block (calls : list Call) (s : State) :
  forallb isMutation calls = true ->
  (1 <= _updateDepth s)%Z ->
  _updateDepth (run calls s) = _updateDepth s
  /\ _updateTimer (run calls s) = _updateTimer s
  /\ updateCount (effects (run calls s)) = updateCount (effects s)
  /\ notifications (effects (run calls s)) = notifications (effects s).
Proof.
  revert s. induction calls as [|c calls IH]; intros s Hall Hd; [cbn; auto|].
  cbn in Hall. apply andb_true_iff in Hall as [Hc Hall].
  destruct (mutation_in_block c s Hc Hd) as (s' & E & Hd' & Ht' & Hu' & Hn').
  unfold run. cbn [fold_left]. rewrite E. cbn [snd]. fold (run calls s').
  destruct (IH s' Hall) as (A & B & C & D); [lia|].
  repeat split; congruence.
Qed.

Lemma run_app (calls1 calls2 : list Call) (s : State) :
  run (calls1 ++ calls2) s = run calls2 (run calls1 s).
Proof. unfold run. apply fold_left_app. Qed.

(** X3.  Mutations grouped in an update block collapse into one layout pass:
    from depth zero, [beginUpdate], any number of value changes and
    [setNeedsUpdate] calls, then [endUpdate] run [update] exactly once, at the
    end, and no layout source hears of anything before that. *)
Theorem block_of_mutations_updates_once (calls : list Call) (s : State) :
  _updateDepth s = 0%Z ->
  timerSet (_updateTimer s) = false ->
  forallb isMutation calls = true ->
  updateCount (effects (run (Call_beginUpdate :: calls) s))
  = updateCount (effects s)
  /\ notifications (effects (run (Call_beginUpdate :: calls) s))
     = notifications (effects s)
  /\ updateCount (effects (run (Call_beginUpdate :: calls ++ [Call_endUpdate]) s))
     = S (updateCount (effects s))
  /\ _updateDepth (run (Call_beginUpdate :: calls ++ [Call_endUpdate]) s) = 0%Z.
Proof.
  intros Hd Ht Hall.
  assert (Hrun : forall l, run (Call_beginUpdate :: l) s = run l (beginUpdate s))
    by reflexivity.
  destruct (mutations_in_block calls (beginUpdate s) Hall) as (A & B & C & D);
    [cbn; lia|].
  rewrite !Hrun. split; [exact C|]. split; [exact D|].
  rewrite !run_app.
  change (run [Call_endUpdate] (run calls (beginUpdate s)))
    with (snd (endUpdate (run calls (beginUpdate s)))).
  rewrite endUpdate_outer; [| rewrite A; cbn; lia | rewrite B; exact Ht].
  cbn [snd]. rewrite update_counted.
  change (effects (set_updateDepth 0 (run calls (beginUpdate s))))
    with (effects (run calls (beginUpdate s))).
  split; [now rewrite C|].
  pose proof (update_frame
                (set_updateDepth 0 (run calls (beginUpdate s)))) as Hf.
  decompose [and] Hf. assumption.
Qed.

Lemma block_of_mutations_updates_once_witness :
  updateCount
    (effects (run (Call_beginUpdate
                   :: [Event_scale {| x := 2; y := 2 |};
                       Event_viewOffset {| x := 10; y := 0 |};
                       Call_setNeedsUpdate]
                   ++ [Call_endUpdate])
                (set_panStarted false (panning zeroPoint))))
  = 1%nat.
Proof.
  apply (block_of_mutations_updates_once
           [Event_scale {| x := 2; y := 2 |};
            Event_viewOffset {| x := 10; y := 0 |};
            Call_setNeedsUpdate]
           (set_panStarted false (panning zeroPoint)));
    reflexivity.
Defined.

(** The same three calls outside a block run [update] three times. *)
Example mutations_outside_block :
  updateCount
    (effects (run [Event_scale {| x := 2; y := 2 |};
                   Event_viewOffset {| x := 10; y := 0 |};
                   Call_setNeedsUpdate]
                (set_panStarted false (panning zeroPoint))))
  = 3%nat.
Proof. vm_compute. reflexivity. Qed.

(** *** Conditions every call keeps *)

Lemma keeps_refl (s : State) : keeps s s.
Proof. split; auto. Qed.

Lemma keeps_trans (a b c : State) : keeps a b -> keeps b c -> keeps a c.
Proof. intros [] []. split; auto. Qed.

Lemma interactionsCreated_app (t1 t2 : list Effect) :
  interactionsCreated (t1 ++ t2)
  = (interactionsCreated t1 + interactionsCreated t2)%nat.
Proof. unfold interactionsCreated. now rewrite List.filter_app, length_app. Qed.

Lemma interactionsCleared_app (t1 t2 : list Effect) :
  interactionsCleared (t1 ++ t2)
  = (interactionsCleared t1 + interactionsCleared t2)%nat.
Proof. unfold interactionsCleared. now rewrite List.filter_app, length_app. Qed.

Lemma interactions_notifications (layoutSources : list nat) :
  interactionsCreated (map LayoutSource_setNeedsUpdate layoutSources) = 0%nat
  /\ interactionsCleared (map LayoutSource_setNeedsUpdate layoutSources) = 0%nat.
Proof. induction layoutSources; cbn; auto. Qed.

Lemma keeps_log (e : Effect) (s : State) : noHandle e -> keeps s (log e s).
Proof.
  intros He. split; [auto | auto |].
  unfold handleBalanced.
  change (effects (log e s)) with (effects s ++ [e]).
  change (handleCounter (log e s)) with (handleCounter s).
  change (_interactionHandle (log e s)) with (_interactionHandle s).
  rewrite interactionsCreated_app, interactionsCleared_app.
  destruct e; cbn in *; try contradiction; rewrite !Nat.add_0_r; auto.
Qed.

Lemma keeps_update (s : State) : keeps s (update s).
Proof.
  pose proof (update_frame s) as Hf. decompose [and] Hf. split.
  - unfold scaleValid. congruence.
  - unfold sizeLatched. rewrite update_hasContainerSize.
    intros Hs Hl. replace (_containerSize (update s)) with (_containerSize s).
    apply orb_true_iff in Hl as [Hl|Hl]; [now apply Hs|].
    unfold containerSizeValid in Hl. apply andb_true_iff in Hl as [Hx Hy].
    apply Qgeb_le in Hx, Hy. split; eapply Qlt_le_trans; try eassumption;
      reflexivity.
  - unfold handleBalanced. rewrite update_effects.
    rewrite interactionsCreated_app, interactionsCleared_app.
    replace (handleCounter (update s)) with (handleCounter s).
    replace (_interactionHandle (update s)) with (_interactionHandle s).
    change (interactionsCreated (Update_called :: ?l))
      with (interactionsCreated l).
    change (interactionsCleared (Update_called :: ?l))
      with (interactionsCleared l).
    destruct (interactions_notifications (_layoutSources s)) as [Hc Hd].
    destruct (bothLatched (update s)); rewrite ?Hc, ?Hd; cbn; intros [? ?];
      split; [assumption | lia | assumption | lia].
Qed.

(** A field assignment that touches none of the fields [keeps] reads. *)
Ltac keeps_field :=
  split; unfold scaleValid, sizeLatched, handleBalanced; cbn; auto.

Lemma keeps_cancelScheduledUpdate (s : State) : keeps s (cancelScheduledUpdate s).
Proof.
  unfold cancelScheduledUpdate. destruct (timerSet (_updateTimer s));
    [keeps_field | apply keeps_refl].
Qed.

Lemma keeps_scheduleUpdate (s : State) : keeps s (scheduleUpdate s).
Proof.
  unfold scheduleUpdate. destruct (timerSet (_updateTimer s));
    [apply keeps_refl | apply keeps_update].
Qed.

Lemma keeps_beginUpdate (s : State) : keeps s (beginUpdate s).
Proof. keeps_field. Qed.

Lemma keeps_startInteraction (s : State) : keeps s (_startInteraction s).
Proof.
  unfold _startInteraction. destruct (_interactionHandle s =? 0)%Z eqn:E;
    [|apply keeps_refl].
  split; [auto | auto |]. unfold handleBalanced. rewrite E.
  cbn [effects handleCounter _interactionHandle log set_effects
       set_interactionHandle set_handleCounter].
  intros [Hc Hb]. split; [lia|].
  rewrite interactionsCreated_app, interactionsCleared_app.
  change (interactionsCreated [Interaction_created _]) with 1%nat.
  change (interactionsCleared [Interaction_created _]) with 0%nat.
  destruct (handleCounter s + 1 =? 0)%Z eqn:E1; [apply Z.eqb_eq in E1; lia|].
  lia.
Qed.

Lemma keeps_endInteration (s : State) : keeps s (_endInteration s).
Proof.
  unfold _endInteration. destruct (_interactionHandle s =? 0)%Z eqn:E;
    cbn [negb]; [apply keeps_refl|].
  split; [auto | auto |]. unfold handleBalanced. rewrite E.
  cbn [effects handleCounter _interactionHandle log set_effects
       set_interactionHandle].
  intros [Hc Hb]. split; [exact Hc|].
  rewrite interactionsCreated_app, interactionsCleared_app.
  change (interactionsCreated [Interaction_cleared _]) with 0%nat.
  change (interactionsCleared [Interaction_cleared _]) with 1%nat.
  change (0 =? 0)%Z with true. cbv iota. lia.
Qed.

Create HintDb keeps.
#[local] Hint Resolve keeps_refl keeps_update keeps_cancelScheduledUpdate
  keeps_scheduleUpdate keeps_beginUpdate keeps_startInteraction
  keeps_endInteration : keeps.

Ltac keeps_method :=
  respects_walk keeps_refl keeps_trans
    ltac:(first [ solve [eauto with keeps]
                | solve [apply keeps_log; exact I]
                | solve [keeps_field] ]).

Lemma keeps_endUpdate : respects keeps endUpdate.
Proof. unfold endUpdate. keeps_method. Qed.
#[local] Hint Resolve keeps_endUpdate : keeps.

Lemma keeps_setNeedsUpdate : respects keeps setNeedsUpdate.
Proof. unfold setNeedsUpdate. keeps_method. Qed.
#[local] Hint Resolve keeps_setNeedsUpdate : keeps.

(** The listener of the scale writes only scales without a zero component. *)
Lemma keeps_scale_listener p : respects keeps (scale_listener p).
Proof.
  intros s. unfold scale_listener. rewrite bind_gets. unfold id.
  destruct (isZero (x p) || isZero (y p)) eqn:Ez; [apply keeps_refl|].
  destruct (Qeq_bool _ _ && Qeq_bool _ _); [apply keeps_refl|].
  rewrite bind_modify. apply keeps_trans with (set_scale p s).
  - split; [| auto | auto]. intros _. unfold scaleValid. cbn.
    apply orb_false_iff in Ez as [-> ->]. reflexivity.
  - assert (Hd : respects keeps didChangeScale)
      by (unfold didChangeScale; keeps_method).
    apply Hd.
Qed.

(** The listener of the container size writes only positive sizes. *)
Lemma keeps_containerSize_listener p : respects keeps (containerSize_listener p).
Proof.
  intros s. unfold containerSize_listener. rewrite bind_gets. unfold id.
  destruct (Qle_bool (x p) 0 || Qle_bool (y p) 0) eqn:Ep; [apply keeps_refl|].
  destruct (Qltb _ 1 && Qltb _ 1); [apply keeps_refl|].
  rewrite bind_modify. apply keeps_trans with (set_containerSize p s).
  - split; [auto | | auto]. intros _ _. cbn.
    apply orb_false_iff in Ep as [Hx Hy].
    split; apply Qnot_le_lt; intros Hle; apply Qle_bool_iff in Hle; congruence.
  - assert (Hd : respects keeps didChangeContainerSize)
      by (unfold didChangeContainerSize, didChangeViewportSize; keeps_method).
    apply Hd.
Qed.

Lemma keeps_anchor_listener p : respects keeps (anchor_listener p).
Proof. unfold anchor_listener, didChangeAnchor. keeps_method. Qed.

Lemma keeps_locationOffsetBase_listener p :
  respects keeps (locationOffsetBase_listener p).
Proof. unfold locationOffsetBase_listener, didChangeLocation. keeps_method. Qed.

Lemma keeps_onViewOffsetChange p : respects keeps (_onViewOffsetChange p).
Proof. unfold _onViewOffsetChange. keeps_method. Qed.
#[local] Hint Resolve keeps_scale_listener keeps_containerSize_listener
  keeps_anchor_listener keeps_locationOffsetBase_listener
  keeps_onViewOffsetChange : keeps.

Lemma keeps_panTarget_setValue p : respects keeps (panTarget_setValue p).
Proof. unfold panTarget_setValue. keeps_method. Qed.
#[local] Hint Resolve keeps_panTarget_setValue : keeps.

Lemma keeps_transferViewOffsetToLocation :
  respects keeps _transferViewOffsetToLocation.
Proof. unfold _transferViewOffsetToLocation. keeps_method. Qed.
#[local] Hint Resolve keeps_transferViewOffsetToLocation : keeps.

Lemma keeps_onEndDeceleration finished :
  respects keeps (_onEndDeceleration finished).
Proof. unfold _onEndDeceleration. keeps_method. Qed.
#[local] Hint Resolve keeps_onEndDeceleration : keeps.

Lemma keeps_stopDesceleration : respects keeps stopDesceleration.
Proof. unfold stopDesceleration. keeps_method. Qed.
#[local] Hint Resolve keeps_stopDesceleration : keeps.

Lemma keeps_scrollToOffset options : respects keeps (scrollToOffset options).
Proof.
  unfold scrollToOffset, _onStartDeceleration.
  destruct (px (offset options)), (py (offset options)); keeps_method.
Qed.
#[local] Hint Resolve keeps_scrollToOffset : keeps.

Lemma keeps_scrollBy options : respects keeps (scrollBy options).
Proof.
  unfold scrollBy.
  destruct (px (offset options)), (py (offset options)); keeps_method.
Qed.

Lemma keeps_onEndPan : respects keeps _onEndPan.
Proof. unfold _onEndPan, _onStartDeceleration. keeps_method. Qed.
#[local] Hint Resolve keeps_scrollBy keeps_onEndPan : keeps.

Lemma keeps_preventDefaultPan : respects keeps preventDefaultPan.
Proof. unfold preventDefaultPan. keeps_method. Qed.
#[local] Hint Resolve keeps_preventDefaultPan : keeps.

Lemma keeps_perform (c : Call) : respects keeps (perform c).
Proof.
  destruct c; unfold perform, void, panVelocty_listener; keeps_method.
Qed.

Lemma keeps_run (calls : list Call) (s : State) : keeps s (run calls s).
Proof.
  revert s. unfold run. induction calls as [|c calls IH]; intros s; cbn.
  - apply keeps_refl.
  - eapply keeps_trans; [apply keeps_perform | apply IH].
Qed.

(** X4.  A scale without a zero component stays without one, whatever is
    called: the only writer of the scale is its listener, which drops a scale
    with a zero component. *)
Theorem scale_stays_nonzero (calls : list Call) (s : State) :
  scaleValid s = true -> scaleValid (run calls s) = true.
Proof. apply keeps_run. Qed.

Lemma scale_stays_nonzero_witness :
  scaleValid
    (run [Event_scale {| x := 0; y := 3 |}; Event_scale {| x := - (2); y := 3 |};
          Call_update]
         (constructed [0%nat] zeroPoint)) = true.
Proof.
  apply (scale_stays_nonzero
           [Event_scale {| x := 0; y := 3 |}; Event_scale {| x := - (2); y := 3 |};
            Call_update]
           (constructed [0%nat] zeroPoint)).
  reflexivity.
Defined.

(** X5.  A container size that has been latched is positive on both axes,
    and stays so whatever is called: [update] latches only a size of at least
    1 x 1 and the listener of the size drops every size that is not positive.
    It need not stay at least 1 x 1. *)
Theorem latched_size_stays_positive (calls : list Call) (s : State) :
  sizeLatched s ->
  _hasContainerSize (run calls s) = true ->
  0 < x (_containerSize (run calls s)) /\ 0 < y (_containerSize (run calls s)).
Proof. intros Hs. now apply (keeps_run calls s). Qed.

Lemma latched_size_stays_positive_witness :
  0 < x (_containerSize
           (run [Event_containerSize {| x := 300; y := 300 |};
                 Event_containerSize {| x := 1 # 2; y := 1 # 2 |};
                 Event_containerSize {| x := 0; y := 5 |}]
                (constructed [0%nat] zeroPoint)))
  /\ 0 < y (_containerSize
              (run [Event_containerSize {| x := 300; y := 300 |};
                    Event_containerSize {| x := 1 # 2; y := 1 # 2 |};
                    Event_containerSize {| x := 0; y := 5 |}]
                   (constructed [0%nat] zeroPoint))).
Proof.
  apply (latched_size_stays_positive
           [Event_containerSize {| x := 300; y := 300 |};
            Event_containerSize {| x := 1 # 2; y := 1 # 2 |};
            Event_containerSize {| x := 0; y := 5 |}]
           (constructed [0%nat] zeroPoint)).
  - intros Hl. discriminate.
  - vm_compute. reflexivity.
Defined.

(** X6.  Interaction handles are created and cleared in turn: whatever is
    called, every handle created has been cleared, but for the one held in
    [_interactionHandle] when that is not zero. *)
Theorem interaction_handles_balanced (calls : list Call) (s : State) :
  handleBalanced s -> handleBalanced (run calls s).
Proof. apply keeps_run. Qed.

Lemma interaction_handles_balanced_witness :
  handleBalanced
    (run [Call_scrollToOffset
            {| offset := {| px := Some 10; py := None |}; animated := true;
               timing := false; spring := None; manualStart := false;
               onEnd := false |};
          Event_animationEnd true]
         (constructed [0%nat] zeroPoint)).
Proof.
  apply (interaction_handles_balanced
           [Call_scrollToOffset
              {| offset := {| px := Some 10; py := None |}; animated := true;
                 timing := false; spring := None; manualStart := false;
                 onEnd := false |};
            Event_animationEnd true]
           (constructed [0%nat] zeroPoint)).
  split; [cbn; lia | reflexivity].
Defined.

(** *** Vectors and the visible range *)

Lemma scaleValid_nonzero (s : State) :
  scaleValid s = true -> ~ x (_scale s) == 0 /\ ~ y (_scale s) == 0.
Proof.
  unfold scaleValid. intros H. apply andb_true_iff in H as [Hx Hy].
  apply negb_true_iff in Hx, Hy. now rewrite <- !isZero_false.
Qed.



Lemma Math_floor_spec (a : Q) : Math_floor a <= a /\ a < Math_floor a + 1.
Proof.
  unfold Math_floor. split; [apply Qfloor_le|].
  eapply Qlt_le_trans; [apply Qlt_floor|].
  rewrite inject_Z_plus. apply Qle_refl.
Qed.

Lemma Math_ceil_spec (a : Q) : a <= Math_ceil a /\ Math_ceil a - 1 < a.
Proof.
  unfold Math_ceil. split; [apply Qle_ceiling|].
  eapply Qle_lt_trans; [|apply Qceiling_lt].
  unfold Z.sub. rewrite inject_Z_plus. apply Qle_refl.
Qed.

(** A coordinate of [getLocation] decreases with the offset when the scale is
    positive and increases with it when the scale is negative. *)
Lemma location_order (a b l c k : Q) :
  ~ k == 0 ->
  (if Qltb k 0 then a < b else b < a) ->
  - l - (a - c) / k < - l - (b - c) / k.
Proof.
  intros Hk Hab.
  assert (E : - l - (b - c) / k - (- l - (a - c) / k) == (a - b) * / k)
    by (field; assumption).
  apply Qlt_minus_iff. rewrite E. clear E.
  destruct (Qltb k 0) eqn:Ek.
  - apply Qltb_lt in Ek.
    assert (E : (a - b) * / k == (b - a) * / (- k))
      by (field; repeat split; try assumption; lra).
    rewrite E. apply Qmult_lt_0_compat; [lra | apply Qinv_lt_0_compat; lra].
  - assert (0 < k).
    { destruct (Qlt_le_dec k 0) as [Hlt|Hle];
        [apply Qltb_lt in Hlt; congruence|].
      apply Qle_lteq in Hle as [?|He]; [assumption|]. symmetry in He.
      contradiction. }
    apply Qmult_lt_0_compat; [lra | now apply Qinv_lt_0_compat].
Qed.



(** A container 300 wide and 1 high, at unit scale and with the view half a
    pixel down: the vertical offsets round to the same integer and the range
    is empty. *)
Example visible_range_of_height_one :
  getVisibleLocationRange
    (set_viewOffset {| x := 0; y := 1 # 2 |}
       (set_containerSize {| x := 300; y := 1 |} (constructed [] zeroPoint)))
  = (zeroPoint, zeroPoint).
Proof. vm_compute. reflexivity. Qed.

(** *** Programmatic scrolling *)

Ltac settled_field := split; cbn; auto.

Lemma settled_log (e : Effect) (s : State) :
  match e with Animation_start _ => False | _ => True end ->
  settled s (log e s).
Proof.
  intros He. split; auto.
  change (effects (log e s)) with (effects s ++ [e]).
  rewrite startedAnimations_app. destruct e; try contradiction; apply app_nil_r.
Qed.

Lemma onViewOffsetChange_settles (p : IPoint) (s : State) :
  (0 <= _updateDepth s)%Z ->
  exists s', _onViewOffsetChange p s = (Returned tt, s')
             /\ _updateDepth s' = _updateDepth s
             /\ settled (set_viewOffset p s) s'.
Proof.
  intros Hd. unfold _onViewOffsetChange. rewrite bind_modify.
  destruct (setNeedsUpdate_returns (set_viewOffset p s)) as (s' & E & Hd' & Hs);
    [exact Hd|].
  exists s'. auto.
Qed.

Lemma locationOffsetBase_listener_settles (p : IPoint) (s : State) :
  (0 <= _updateDepth s)%Z ->
  exists s', locationOffsetBase_listener p s = (Returned tt, s')
             /\ _updateDepth s' = _updateDepth s
             /\ settled (set_locationOffsetBase p s) s'.
Proof.
  intros Hd. unfold locationOffsetBase_listener, didChangeLocation.
  rewrite bind_modify.
  destruct (setNeedsUpdate_returns (set_locationOffsetBase p s))
    as (s' & E & Hd' & Hs); [exact Hd|].
  exists s'. auto.
Qed.

Lemma panTarget_setValue_settles (p : IPoint) (s : State) :
  (0 <= _updateDepth s)%Z ->
  exists s', panTarget_setValue p s = (Returned tt, s')
             /\ _updateDepth s' = _updateDepth s
             /\ settled (match _panTarget s with
                         | ViewOffsetTarget => set_viewOffset p s
                         | ExternalTarget => s
                         end) s'.
Proof.
  intros Hd. unfold panTarget_setValue. rewrite bind_gets.
  destruct (_panTarget s).
  - now apply onViewOffsetChange_settles.
  - eexists. split; [reflexivity|]. split; [reflexivity|].
    apply settled_log. exact I.
Qed.

(** [_transferViewOffsetToLocation] folds the view offset into the location:
    the base becomes [locationOffset] and the view offset zero. *)
Lemma transferViewOffsetToLocation_settles (s : State) :
  (0 <= _updateDepth s)%Z ->
  exists s', _transferViewOffsetToLocation s = (Returned tt, s')
             /\ _updateDepth s' = _updateDepth s
             /\ settled (set_locationOffsetBase (locationOffset s)
                           (set_viewOffset zeroPoint s)) s'.
Proof.
  intros Hd. unfold _transferViewOffsetToLocation.
  rewrite bind_modify, bind_gets, !bind_modify.
  match goal with
  | |- context [bind (locationOffsetBase_listener ?p) _ ?s1] =>
      destruct (locationOffsetBase_listener_settles p s1) as (s2 & E2 & Hd2 & H2);
        [cbn; lia|];
      rewrite (bind_returned _ _ _ _ _ E2); cbn in Hd2
  end.
  destruct (endUpdate_returns s2) as (s3 & E3 & Hd3 & H3); [lia|].
  exists s3. split; [exact E3|]. split; [lia|].
  eapply settled_trans; [|exact H3]. eapply settled_trans; [|exact H2].
  settled_field.
Qed.

(** What the end of a deceleration leaves, whatever the pan target. *)
Lemma onEndDeceleration_settles (finished : bool) (s : State) :
  (0 <= _updateDepth s)%Z ->
  exists s', _onEndDeceleration finished s = (Returned tt, s')
             /\ _updateDepth s' = _updateDepth s
             /\ _locationOffsetBase s' = locationOffset s
             /\ _viewOffset s' = zeroPoint
             /\ _descelerationAnimation s' = None
             /\ _interactionHandle s' = 0%Z
             /\ _scale s' = _scale s
             /\ _panVelocty s' = _panVelocty s
             /\ _panStarted s' = _panStarted s
             /\ _panDefaultPrevented s' = _panDefaultPrevented s
             /\ _panTarget s' = _panTarget s
             /\ startedAnimations (effects s') = startedAnimations (effects s).
Proof.
  intros Hd. unfold _onEndDeceleration.
  destruct (transferViewOffsetToLocation_settles s Hd) as (s1 & E1 & Hd1 & H1).
  rewrite (bind_returned _ _ _ _ _ E1).
  destruct (panTarget_setValue_settles zeroPoint s1) as (s2 & E2 & Hd2 & H2);
    [lia|].
  rewrite (bind_returned _ _ _ _ _ E2), !bind_modify.
  eexists. split; [reflexivity|].
  assert (H2' : settled s1 s2 /\ _viewOffset s2 = zeroPoint).
  { destruct H1. destruct (_panTarget s1); destruct H2; cbn in *;
      (split; [split; auto|]; congruence). }
  destruct H2' as [H2' Hv]. destruct H1, H2'. cbn in *.
  unfold _endInteration. cbn.
  destruct (negb (_interactionHandle s2 =? 0)%Z) eqn:E; cbn.
  - rewrite startedAnimations_cleared. repeat split; congruence.
  - apply negb_false_iff, Z.eqb_eq in E. repeat split; congruence.
Qed.

Lemma stopDesceleration_settles (s : State) :
  (0 <= _updateDepth s)%Z ->
  exists s', stopDesceleration s = (Returned tt, s')
             /\ _updateDepth s' = _updateDepth s
             /\ _scale s' = _scale s
             /\ _panVelocty s' = _panVelocty s
             /\ _panStarted s' = _panStarted s
             /\ _panDefaultPrevented s' = _panDefaultPrevented s
             /\ _panTarget s' = _panTarget s
             /\ startedAnimations (effects s') = startedAnimations (effects s).
Proof.
  intros Hd. unfold stopDesceleration. rewrite bind_gets.
  destruct (_descelerationAnimation s) as [a|].
  - rewrite bind_modify. destruct (started a).
    + destruct (onEndDeceleration_settles false (log (Animation_stop a) s))
        as (s1 & E1 & H1); [exact Hd|].
      rewrite (bind_returned _ _ _ _ _ E1).
      decompose [and] H1. clear H1. cbn in *.
      assert (Ha : startedAnimations (effects s1) = startedAnimations (effects s)).
      { etransitivity; [eassumption|]. rewrite startedAnimations_app.
        apply app_nil_r. }
      destruct (notifiesOnEnd a).
      * eexists. split; [reflexivity|]. cbn.
        rewrite startedAnimations_app, app_nil_r. repeat split; congruence.
      * eexists. split; [reflexivity|]. repeat split; congruence.
    + eexists. split; [reflexivity|]. cbn.
      rewrite startedAnimations_app, app_nil_r. repeat split; reflexivity.
  - eexists. split; [reflexivity|]. repeat split; reflexivity.
Qed.

Lemma startInteraction_holds (s : State) :
  (0 <= handleCounter s)%Z -> _interactionHandle (_startInteraction s) <> 0%Z.
Proof.
  intros Hc. unfold _startInteraction.
  destruct (_interactionHandle s =? 0)%Z eqn:E; cbn; [lia|].
  now apply Z.eqb_neq.
Qed.

(** What [scrollToOffset] does before it looks at [animated]: the running
    animation is stopped, an interaction handle is taken and the view offset
    is folded into the location. *)
Lemma scrollToOffset_prefix (s : State) :
  (0 <= _updateDepth s)%Z ->
  exists s3,
    (forall B (k : M State B),
       (stopDesceleration ;;; modify (set_descelerationAnimation None) ;;;
        modify _startInteraction ;;; _transferViewOffsetToLocation ;;; k) s = k s3)
    /\ _updateDepth s3 = _updateDepth s
    /\ _viewOffset s3 = zeroPoint
    /\ _descelerationAnimation s3 = None
    /\ _scale s3 = _scale s
    /\ _panVelocty s3 = _panVelocty s
    /\ _panStarted s3 = _panStarted s
    /\ _panDefaultPrevented s3 = _panDefaultPrevented s
    /\ _panTarget s3 = _panTarget s
    /\ startedAnimations (effects s3) = startedAnimations (effects s)
    /\ (handleBalanced s -> _interactionHandle s3 <> 0%Z).
Proof.
  intros Hd.
  destruct (stopDesceleration_settles s Hd) as (s1 & E1 & H1).
  assert (Hk : keeps s s1)
    by (pose proof (keeps_stopDesceleration s) as Hk; now rewrite E1 in Hk).
  decompose [and] H1. clear H1.
  set (s2 := _startInteraction (set_descelerationAnimation None s1)).
  assert (A2 : startedAnimations (effects s2) = startedAnimations (effects s1)).
  { unfold s2, _startInteraction. cbn.
    destruct (_interactionHandle s1 =? 0)%Z; cbn; [|reflexivity].
    rewrite startedAnimations_app. apply app_nil_r. }
  assert (F2 : _updateDepth s2 = _updateDepth s1 /\ _scale s2 = _scale s1
               /\ _panVelocty s2 = _panVelocty s1
               /\ _panStarted s2 = _panStarted s1
               /\ _panDefaultPrevented s2 = _panDefaultPrevented s1
               /\ _panTarget s2 = _panTarget s1
               /\ _descelerationAnimation s2 = None).
  { unfold s2, _startInteraction. cbn.
    destruct (_interactionHandle s1 =? 0)%Z; cbn; repeat split; reflexivity. }
  decompose [and] F2. clear F2.
  destruct (transferViewOffsetToLocation_settles s2) as (s3 & E3 & Hd3 & Hs3);
    [lia|].
  exists s3. split.
  { intros B k. rewrite (bind_returned _ _ _ _ _ E1), !bind_modify.
    fold s2. now rewrite (bind_returned _ _ _ _ _ E3). }
  clear E1 E3. destruct Hs3. cbn in *.
  repeat split; try congruence.
  intros Hb. rewrite st_interactionHandle0. apply startInteraction_holds.
  destruct (keeps_handle _ _ Hk Hb) as [Hc _]. exact Hc.
Qed.

(** The offset [scrollToOffset] aims at: the components given, and for the
    others those of the base as it is when the method is entered. *)
Lemma scrollToOffset_lands (options : ScrollOptions) (s : State) :
  _panStarted s = false ->
  (0 <= _updateDepth s)%Z ->
  animated options = false ->
  px (offset options) <> None \/ py (offset options) <> None ->
  exists s',
    scrollToOffset options s = (Returned None, s')
    /\ point_eq (_locationOffsetBase s')
                {| x := default (x (_locationOffsetBase s)) (px (offset options));
                   y := default (y (_locationOffsetBase s)) (py (offset options)) |}
    /\ _viewOffset s' = zeroPoint
    /\ _descelerationAnimation s' = None
    /\ _interactionHandle s' = 0%Z
    /\ _updateDepth s' = _updateDepth s
    /\ startedAnimations (effects s') = startedAnimations (effects s).
Proof.
  intros Hp Hd Ha Ho. unfold scrollToOffset.
  rewrite bind_gets, Hp, bind_gets.
  destruct (scrollToOffset_prefix s Hd) as (s3 & E3 & Hs3).
  decompose [and] Hs3. clear Hs3.
  destruct (px (offset options)) as [ox|], (py (offset options)) as [oy|];
    [ | | | destruct Ho; congruence ];
    (rewrite E3, Ha; cbn [negb];
     match goal with
     | |- context [bind (locationOffsetBase_listener ?t) _ s3] =>
         destruct (locationOffsetBase_listener_settles t s3)
           as (s4 & E4 & Hd4 & Hs4); [lia|]
     end;
     rewrite (bind_returned _ _ _ _ _ E4);
     destruct (onEndDeceleration_settles true s4) as (s5 & E5 & Hs5); [lia|];
     rewrite (bind_returned _ _ _ _ _ E5);
     decompose [and] Hs5; clear Hs5; destruct Hs4; cbn in *;
     match goal with
     | |- context [point_eq _ ?t] =>
         assert (Hl : point_eq (_locationOffsetBase s5) t)
           by (replace (_locationOffsetBase s5) with (locationOffset s4);
               unfold locationOffset;
               rewrite st_locationOffsetBase0, st_viewOffset0;
               replace (_viewOffset s3) with zeroPoint; unfold point_eq; cbn;
               unfold Qdiv; split; ring)
     end;
     destruct (onEnd options);
     (eexists; split; [reflexivity|]; cbn;
      rewrite ?startedAnimations_app, ?app_nil_r;
      repeat split; try apply Hl; congruence)).
Qed.

(** X9.  A scroll without animation, outside a pan and with at least one
    component given, ends at once: the location base is the target, the view
    offset is zero, no animation is started or left in the slot and the
    interaction handle is released.  A component that is not given is taken
    from the base as it was on entry, so a view offset pending on that axis is
    dropped, not folded in. *)
Theorem scrollToOffset_without_animation (options : ScrollOptions) (s : State) :
  _panStarted s = false ->
  (0 <= _updateDepth s)%Z ->
  scaleValid s = true ->
  animated options = false ->
  px (offset options) <> None \/ py (offset options) <> None ->
  exists s',
    scrollToOffset options s = (Returned None, s')
    /\ point_eq (_locationOffsetBase s')
                {| x := default (x (_locationOffsetBase s)) (px (offset options));
                   y := default (y (_locationOffsetBase s)) (py (offset options)) |}
    /\ _viewOffset s' = zeroPoint
    /\ _descelerationAnimation s' = None
    /\ _interactionHandle s' = 0%Z
    /\ _updateDepth s' = _updateDepth s
    /\ startedAnimations (effects s') = startedAnimations (effects s).
Proof. intros Hp Hd _ Ha Ho. now apply scrollToOffset_lands. Qed.

Lemma scrollToOffset_without_animation_witness :
  exists s',
    scrollToOffset
      {| offset := {| px := Some 10; py := None |}; animated := false;
         timing := false; spring := None; manualStart := false; onEnd := true |}
      (set_panStarted false (panning zeroPoint)) = (Returned None, s')
    /\ point_eq (_locationOffsetBase s') {| x := 10; y := 0 |}
    /\ _viewOffset s' = zeroPoint
    /\ _descelerationAnimation s' = None
    /\ _interactionHandle s' = 0%Z
    /\ _updateDepth s' = 0%Z
    /\ startedAnimations (effects s') = [].
Proof.
  apply (scrollToOffset_without_animation
           {| offset := {| px := Some 10; py := None |}; animated := false;
              timing := false; spring := None; manualStart := false;
              onEnd := true |}
           (set_panStarted false (panning zeroPoint))).
  - reflexivity.
  - cbn. lia.
  - reflexivity.
  - reflexivity.
  - left. discriminate.
Defined.

(** X10.  [scrollBy] without animation moves the location base by the
    components given, from the base as it was on entry; the view offset ends
    at zero. *)
Theorem scrollBy_without_animation (options : ScrollOptions) (s : State) :
  _panStarted s = false ->
  (0 <= _updateDepth s)%Z ->
  scaleValid s = true ->
  animated options = false ->
  px (offset options) <> None \/ py (offset options) <> None ->
  exists s',
    scrollBy options s = (Returned None, s')
    /\ point_eq (_locationOffsetBase s')
                {| x := x (_locationOffsetBase s) + default 0 (px (offset options));
                   y := y (_locationOffsetBase s) + default 0 (py (offset options)) |}
    /\ _viewOffset s' = zeroPoint
    /\ _descelerationAnimation s' = None
    /\ _interactionHandle s' = 0%Z
    /\ startedAnimations (effects s') = startedAnimations (effects s).
Proof.
  intros Hp Hd _ Ha Ho. unfold scrollBy. rewrite bind_gets.
  destruct (px (offset options)) as [dx|] eqn:Ex,
           (py (offset options)) as [dy|] eqn:Ey;
    [ | | | destruct Ho; congruence ];
    match goal with
    | |- context [scrollToOffset ?o s] =>
        destruct (scrollToOffset_lands o s Hp Hd Ha) as (s' & E & Hl & H');
          [left; discriminate|];
        exists s'; split; [exact E|]; decompose [and] H'; clear H';
        destruct Hl as [Hx Hy]; cbn in Hx, Hy;
        repeat split; try assumption; cbn; rewrite ?Hx, ?Hy; ring
    end.
Qed.

Lemma scrollBy_without_animation_witness :
  exists s',
    scrollBy
      {| offset := {| px := None; py := Some (- (5)) |}; animated := false;
         timing := false; spring := None; manualStart := false; onEnd := false |}
      (set_locationOffsetBase {| x := 3; y := 4 |} (constructed [0%nat] zeroPoint))
    = (Returned None, s')
    /\ point_eq (_locationOffsetBase s') {| x := 3 + 0; y := 4 + - (5) |}
    /\ _viewOffset s' = zeroPoint
    /\ _descelerationAnimation s' = None
    /\ _interactionHandle s' = 0%Z
    /\ startedAnimations (effects s') = [].
Proof.
  apply (scrollBy_without_animation
           {| offset := {| px := None; py := Some (- (5)) |}; animated := false;
              timing := false; spring := None; manualStart := false;
              onEnd := false |}
           (set_locationOffsetBase {| x := 3; y := 4 |}
              (constructed [0%nat] zeroPoint))).
  - reflexivity.
  - cbn. lia.
  - reflexivity.
  - reflexivity.
  - right. discriminate.
Defined.

Lemma startInteraction_held (s : State) :
  _interactionHandle s <> 0%Z -> _startInteraction s = s.
Proof.
  intros Hh. unfold _startInteraction.
  apply Z.eqb_neq in Hh. now rewrite Hh.
Qed.

Lemma scrollToOffset_animates (options : ScrollOptions) (s : State) :
  _panStarted s = false ->
  (0 <= _updateDepth s)%Z ->
  handleBalanced s ->
  animated options = true ->
  px (offset options) <> None \/ py (offset options) <> None ->
  exists s',
    scrollToOffset options s = (Returned (Some (scrollAnimation options s)), s')
    /\ _descelerationAnimation s' = Some (scrollAnimation options s)
    /\ startedAnimations (effects s')
       = startedAnimations (effects s)
         ++ (if manualStart options then [] else [scrollAnimation options s])
    /\ (if manualStart options then _interactionHandle s' = 0%Z
        else _interactionHandle s' <> 0%Z)
    /\ _viewOffset s' = zeroPoint
    /\ _panStarted s' = false
    /\ _panVelocty s' = _panVelocty s
    /\ _updateDepth s' = _updateDepth s.
Proof.
  intros Hp Hd Hb Ha Ho. unfold scrollToOffset.
  rewrite bind_gets, Hp, bind_gets.
  destruct (scrollToOffset_prefix s Hd) as (s3 & E3 & Hs3).
  decompose [and] Hs3. clear Hs3.
  assert (Hsc : _scale s3 = _scale s) by assumption.
  assert (Hpv : _panVelocty s3 = _panVelocty s) by assumption.
  assert (Hv : contentVelocity s3 = contentVelocity s)
    by (unfold contentVelocity, unscaleVector; now rewrite Hsc, Hpv).
  assert (Hh : _interactionHandle s3 <> 0%Z) by auto.
  unfold scrollAnimation, scrollTarget.
  destruct (px (offset options)) as [ox|], (py (offset options)) as [oy|];
    [ | | | destruct Ho; congruence ];
    (rewrite E3, Ha; cbn [negb]; rewrite bind_gets, Hv;
     destruct (manualStart options); cbn [negb andb];
     [ rewrite !bind_modify; eexists; split; [reflexivity|];
       unfold _endInteration; cbn;
       rewrite (proj2 (Z.eqb_neq _ _) Hh); cbn;
       rewrite startedAnimations_app, !app_nil_r;
       repeat split; congruence
     | rewrite !bind_modify; unfold _onStartDeceleration;
       rewrite startInteraction_held by exact Hh;
       eexists; split; [reflexivity|]; cbn;
       rewrite startedAnimations_app;
       change (startedAnimations [Animation_start ?a]) with [a];
       repeat split; congruence ]).
Qed.



(** *** The end of a pan: snapping and prevention *)

(** X12.  At the end of a pan on the default pan target, not prevented, with
    a [snapToLocation] callback that answers a location: exactly one
    animation is started, the spring towards the released location
    overridden by the components the callback gave, seeded with the content
    velocity; no decay is started, the spring becomes the running animation
    and an interaction handle stays held. *)
Theorem pan_end_snaps (s : State) (callback : IScrollInfo -> option PartialPoint)
    (location : PartialPoint) :
  _panTarget s = ViewOffsetTarget ->
  _panDefaultPrevented s = false ->
  snapToLocation s = Some callback ->
  callback (scrollInfoAtRelease s) = Some location ->
  (0 <= _updateDepth s)%Z ->
  scaleValid s = true ->
  handleBalanced s ->
  exists s',
    _onEndPan s = (Returned tt, s')
    /\ startedAnimations (effects s')
       = startedAnimations (effects s)
         ++ [{| kind := Spring {| x := default (x (locationOffset s)) (px location);
                                  y := default (y (locationOffset s)) (py location) |}
                               (contentVelocity s);
                started := true; notifiesOnEnd := false |}]
    /\ _descelerationAnimation s'
       = Some {| kind := Spring {| x := default (x (locationOffset s)) (px location);
                                   y := default (y (locationOffset s)) (py location) |}
                                (contentVelocity s);
                 started := true; notifiesOnEnd := false |}
    /\ _interactionHandle s' <> 0%Z
    /\ _panStarted s' = false
    /\ _panVelocty s' = zeroPoint.
Proof.
  intros Ht Hp Es Hc Hd _ Hb. unfold _onEndPan.
  rewrite bind_modify, !bind_gets.
  cbn [_panDefaultPrevented _panTarget set_panStarted]. rewrite Ht, Hp.
  rewrite !bind_assoc, bind_gets.
  cbn [snapToLocation set_panStarted]. rewrite Es. cbn [negb].
  rewrite !bind_assoc, bind_gets, !bind_assoc, bind_modify.
  change {| info_location := locationOffset (set_panStarted false s);
            info_velocity := contentVelocity (set_panStarted false s);
            info_offset := viewOffset (set_panStarted false s);
            info_scaledVelocity := panVelocity (set_panStarted false s) |}
    with (scrollInfoAtRelease s).
  rewrite Hc. rewrite !bind_assoc.
  match goal with
  | |- context [bind (scrollToOffset ?o) _ ?s1] =>
      destruct (scrollToOffset_animates o s1) as (s' & E & H1 & H2 & H3 & H4 & H5 & H6 & H7);
        [ reflexivity | exact Hd
        | apply (keeps_log (SnapToLocation_called (scrollInfoAtRelease s))
                           (set_panStarted false s) I);
          destruct Hb; split; assumption
        | reflexivity | left; discriminate | ];
      rewrite (bind_returned _ _ _ _ _ E)
  end.
  rewrite bind_ret. cbn [negb]. rewrite bind_ret.
  eexists. split; [reflexivity|].
  cbn in H1, H2, H3 |- *.
  rewrite startedAnimations_app, app_nil_r in H2.
  repeat split; assumption.
Qed.

Lemma pan_end_snaps_witness :
  exists s',
    _onEndPan snapping = (Returned tt, s')
    /\ startedAnimations (effects s')
       = startedAnimations (effects snapping)
         ++ [{| kind := Spring {| x := 100; y := y (locationOffset snapping) |}
                               (contentVelocity snapping);
                started := true; notifiesOnEnd := false |}]
    /\ _descelerationAnimation s'
       = Some {| kind := Spring {| x := 100; y := y (locationOffset snapping) |}
                                (contentVelocity snapping);
                 started := true; notifiesOnEnd := false |}
    /\ _interactionHandle s' <> 0%Z
    /\ _panStarted s' = false
    /\ _panVelocty s' = zeroPoint.
Proof.
  apply (pan_end_snaps snapping (fun _ => Some {| px := Some 100; py := None |})
                       {| px := Some 100; py := None |}).
  - reflexivity.
  - reflexivity.
  - reflexivity.
  - reflexivity.
  - cbn. lia.
  - reflexivity.
  - split; [cbn; lia | reflexivity].
Defined.

(** X13.  [preventDefaultPan] during a pan ends the pan and does nothing
    else, whatever the pan target, the release velocity and the
    [snapToLocation] callback: the pan is marked prevented and over and the
    pan velocity is cleared; no animation is started, the callback is not
    consulted, the view offset is not folded into the location and the
    interaction handle stays held.  A second call changes nothing. *)
Theorem preventDefaultPan_ends_pan (s : State) :
  _panStarted s = true ->
  _panDefaultPrevented s = false ->
  preventDefaultPan s
  = (Returned tt,
     set_panVelocty zeroPoint (set_panStarted false (set_panDefaultPrevented true s)))
  /\ preventDefaultPan
       (set_panVelocty zeroPoint (set_panStarted false (set_panDefaultPrevented true s)))
     = (Returned tt,
        set_panVelocty zeroPoint (set_panStarted false (set_panDefaultPrevented true s))).
Proof.
  intros Hs Hp. split.
  - unfold preventDefaultPan. rewrite bind_gets, Hp, bind_modify, bind_gets.
    cbn [_panStarted set_panDefaultPrevented]. rewrite Hs.
    unfold _onEndPan. rewrite bind_modify, !bind_gets.
    cbn [_panDefaultPrevented _panTarget set_panStarted set_panDefaultPrevented].
    destruct (_panTarget s).
    + rewrite !bind_assoc, bind_gets.
      cbn [snapToLocation set_panStarted set_panDefaultPrevented].
      destruct (snapToLocation s); reflexivity.
    + reflexivity.
  - reflexivity.
Qed.

Lemma preventDefaultPan_ends_pan_witness :
  preventDefaultPan snapping
  = (Returned tt,
     set_panVelocty zeroPoint
       (set_panStarted false (set_panDefaultPrevented true snapping)))
  /\ preventDefaultPan
       (set_panVelocty zeroPoint
          (set_panStarted false (set_panDefaultPrevented true snapping)))
     = (Returned tt,
        set_panVelocty zeroPoint
          (set_panStarted false (set_panDefaultPrevented true snapping))).
Proof.
  apply (preventDefaultPan_ends_pan snapping); reflexivity.
Defined.

(** *** Registration of layout sources *)

Lemma indexOf_range (l : nat) (ls : list nat) : (-1 <= indexOf l ls)%Z.
Proof.
  induction ls as [|a ls IH]; cbn; [lia|].
  destruct (a =? l)%nat; [lia|]. destruct (indexOf l ls <? 0)%Z; lia.
Qed.

Lemma indexOf_absent (l : nat) (ls : list nat) :
  (indexOf l ls <? 0)%Z = true <-> l ∉ ls.
Proof.
  induction ls as [|a ls IH]; cbn.
  - split; [intros _ Hin; inversion Hin | reflexivity].
  - destruct (a =? l)%nat eqn:E.
    + apply Nat.eqb_eq in E as ->. split; [discriminate|].
      intros Hn. exfalso. apply Hn. left.
    + apply Nat.eqb_neq in E. rewrite not_elem_of_cons, <- IH.
      pose proof (indexOf_range l ls).
      destruct (indexOf l ls <? 0)%Z eqn:Ei.
      * split; [auto|reflexivity].
      * apply Z.ltb_ge in Ei. split; [intros Hlt; apply Z.ltb_lt in Hlt; lia|].
        intros [_ Hf]. discriminate.
Qed.

Lemma indexOf_inj (l l' : nat) (ls : list nat) :
  l ∈ ls -> l' ∈ ls -> indexOf l ls = indexOf l' ls -> l = l'.
Proof.
  induction ls as [|a ls IH]; [intros Hin; inversion Hin|].
  intros Hl Hl'. cbn.
  pose proof (indexOf_range l ls). pose proof (indexOf_range l' ls).
  destruct (a =? l)%nat eqn:E, (a =? l')%nat eqn:E'.
  - apply Nat.eqb_eq in E, E'. congruence.
  - destruct (indexOf l' ls <? 0)%Z eqn:Ei; [|apply Z.ltb_ge in Ei]; lia.
  - destruct (indexOf l ls <? 0)%Z eqn:Ei; [|apply Z.ltb_ge in Ei]; lia.
  - apply Nat.eqb_neq in E, E'.
    apply elem_of_cons in Hl as [Hl|Hl]; [congruence|].
    apply elem_of_cons in Hl' as [Hl'|Hl']; [congruence|].
    destruct (indexOf l ls <? 0)%Z eqn:Ei.
    { apply indexOf_absent in Ei. contradiction. }
    destruct (indexOf l' ls <? 0)%Z eqn:Ei'.
    { apply indexOf_absent in Ei'. contradiction. }
    intros Heq. apply IH; [assumption..|lia].
Qed.



(** Sources 0 and 1 are registered and the list becomes 2, 0, 3: source 1 is
    told to unconfigure, then 2 and 3 to configure, at the z-indexes of the
    positions 0 and 2; source 0 is not called. *)
Example setLayoutSources_sample :
  fst (setLayoutSources 10 10 [2; 0; 3]%nat (constructed [0; 1]%nat zeroPoint))
  = [LayoutSource_unconfigure 1; LayoutSource_configure 2 10;
     LayoutSource_configure 3 30].
Proof. reflexivity. Qed.

(** *** The depth of the update blocks *)

(** X25.  The depth of the update blocks never becomes negative and no update
    timer is ever pending, whatever is called and however the calls are
    matched: an [endUpdate] too many throws and puts the depth back at zero,
    and nothing sets the timer, so [scheduleUpdate] always updates at
    once. *)
Theorem depth_stays_nonnegative (calls : list Call) (s : State) :
  (0 <= _updateDepth s)%Z ->
  timerSet (_updateTimer s) = false ->
  (0 <= _updateDepth (run calls s))%Z
  /\ timerSet (_updateTimer (run calls s)) = false.
Proof.
  intros Hd Ht. destruct (evolves_run calls s) as [_ _ _ Hd' Ht' _]. auto.
Qed.

Lemma depth_stays_nonnegative_witness :
  (0 <= _updateDepth
          (run [Call_endUpdate; Call_beginUpdate; Call_endUpdate; Call_endUpdate]
               (constructed [0%nat] zeroPoint)))%Z
  /\ timerSet
       (_updateTimer
          (run [Call_endUpdate; Call_beginUpdate; Call_endUpdate; Call_endUpdate]
               (constructed [0%nat] zeroPoint))) = false.
Proof.
  apply (depth_stays_nonnegative
           [Call_endUpdate; Call_beginUpdate; Call_endUpdate; Call_endUpdate]
           (constructed [0%nat] zeroPoint)).
  - cbn. lia.
  - reflexivity.
Defined.

End EvergridLayoutProps.

(** ** Properties of the layout source *)

Module LayoutSourceProps.
Import LayoutSource.
Local Open Scope Q_scope.

#[local] Arguments steps : simpl never.

Section Props.
Context {Index : Type} `{Countable Index}.
Variable source : @Source Index.

Local Abbreviation State := (@State Index _ _).
Local Abbreviation IItem := (@IItem Index).
Local Abbreviation quiet := (@quiet Index _ _).
Local Abbreviation sameSteps := (@sameSteps Index _ _).
Local Abbreviation poolKept := (@poolKept Index _ _).
Local Abbreviation sameRender := (@sameRender Index _ _).
Local Abbreviation refsKept := (@refsKept Index _ _).
Local Abbreviation refsFresh := (@refsFresh Index _ _).
Local Abbreviation Place := (@Place Index).

(** *** The pool, one reuse key at a time *)

(** [_dequeueItem] pops the record pushed last under the key and touches
    no other stack, nor anything but the pool and the console. *)
Lemma _dequeueItem_returns (key : string) (s : State) :
  exists s',
    _dequeueItem key s = (Returned (last (getQueue s key)), s')
    /\ getQueue s' key = removelast (getQueue s key)
    /\ (forall k, k <> key -> getQueue s' k = getQueue s k)
    /\ visibleItems s' = visibleItems s
    /\ _updating s' = _updating s
    /\ needsRender s' = needsRender s
    /\ trace s' = trace s.
Proof.
  unfold _dequeueItem. rewrite bind_gets, bind_modify.
  fold (getQueue s key).
  destruct (last (getQueue s key)) as [item|] eqn:El.
  - destruct (negb (String.eqb (reuseID item) key));
      (eexists; split; [reflexivity|]); cbn;
      (split; [unfold getQueue, getLazyArray; cbn;
               now rewrite lookup_insert_eq|]);
      (split; [intros k Hk; unfold getQueue, getLazyArray; cbn;
               now rewrite lookup_insert_ne by congruence|]);
      repeat split.
  - eexists; split; [reflexivity|]. cbn.
    split; [unfold getQueue, getLazyArray; cbn; now rewrite lookup_insert_eq|].
    split; [intros k Hk; unfold getQueue, getLazyArray; cbn;
            now rewrite lookup_insert_ne by congruence|].
    repeat split.
Qed.

(** [updateItem] either throws before it has written anything, or stores
    the updated record under the index and leaves the pool alone. *)
Lemma updateItem_outcome (item : IItem) (i : Index) (isNew : bool) (s : State) :
  (exists e, getItemContentLayout source i = Thrown e
             /\ updateItem source item i isNew s = (Thrown e, s))
  \/ (exists item',
        updateItem source item i isNew s
        = (Returned item',
           setVisibleItem i (Some item') (record (WillShowItem item') s))
        /\ ref item' = ref item /\ reuseID item' = reuseID item).
Proof.
  unfold updateItem.
  destruct (getItemContentLayout source i) as [layout|e].
  - right. eexists. split; [reflexivity|].
    destruct (zIndex _ =? 0)%Z, (negb isNew || _); split; reflexivity.
  - left. exists e. split; reflexivity.
Qed.

(** *** What queueing, reuse and creation leave alone

    None of them starts or ends the update, asks for a render or counts as
    a step of [updateItems], and each keeps the pool scoped by reuse key. *)

Lemma quiet_refl (s : State) : quiet s s.
Proof. split; auto. Qed.

Lemma quiet_trans (a b c : State) : quiet a b -> quiet b c -> quiet a c.
Proof. intros [] []. split; try congruence; auto. Qed.

Lemma steps_app (t1 t2 : list (@Event Index)) :
  steps (t1 ++ t2) = steps t1 ++ steps t2.
Proof. unfold steps. apply List.filter_app. Qed.

Lemma quiet_record (e : @Event Index) (s : State) :
  steps [e] = [] -> quiet s (record e s).
Proof.
  intros He. split; auto. cbn. rewrite steps_app, He. apply app_nil_r.
Qed.

Lemma quiet_setVisibleItem (i : Index) (item : option IItem) (s : State) :
  quiet s (setVisibleItem i item s).
Proof. destruct item; split; auto. Qed.

Lemma quiet_console_error (message : string) (s : State) :
  quiet s (console_error message s).
Proof. split; auto. Qed.

Lemma quiet_set_refCounter (n : nat) (s : State) : quiet s (set_refCounter n s).
Proof. split; auto. Qed.

Lemma removelast_subset (q : list IItem) (item : IItem) :
  item ∈ removelast q -> item ∈ q.
Proof.
  destruct (last q) as [x|] eqn:El.
  - apply last_Some in El as [q' ->]. rewrite removelast_last.
    intros Hin. apply elem_of_app. now left.
  - apply last_None in El. subst q. auto.
Qed.

Lemma quiet_dequeueItem_ (key : string) : respects quiet (_dequeueItem key).
Proof.
  intros s. destruct (_dequeueItem_returns key s)
    as (s' & E & Hkey & Hother & Hv & Hu & Hr & Ht).
  rewrite E. cbn. split; try congruence.
  intros Hp k item Hin. destruct (decide (k = key)) as [->|Hne].
  - rewrite Hkey in Hin. apply Hp. now apply removelast_subset.
  - rewrite Hother in Hin by exact Hne. now apply Hp.
Qed.

(** [queueItem] on a visible index: the record leaves the visible map with
    opacity zero and, unless its reuse key is empty, goes on top of the stack
    of that key. *)
Lemma queueItem_visible (i : Index) (item : IItem) (s : State) :
  getVisibleItem i s = Some item ->
  exists s',
    queueItem i s = (Returned true, s')
    /\ visibleItems s' = delete i (visibleItems s)
    /\ trace s' = trace s ++ [WillHideItem item]
    /\ (reuseID item = EmptyString -> _itemQueues s' = _itemQueues s)
    /\ (reuseID item <> EmptyString ->
        getQueue s' (reuseID item)
        = getQueue s (reuseID item) ++ [set_animated_opacity 0 item]
        /\ forall k, k <> reuseID item -> getQueue s' k = getQueue s k)
    /\ quiet s s'.
Proof.
  intros Hv. unfold queueItem. rewrite bind_gets, Hv, !bind_modify.
  change (reuseID (set_animated_opacity 0 item)) with (reuseID item).
  destruct (String.eqb (reuseID item) EmptyString) eqn:Ee; cbn [negb].
  - apply String.eqb_eq in Ee. rewrite bind_ret.
    eexists. split; [reflexivity|]. cbn.
    split; [reflexivity|]. split; [reflexivity|]. split; [reflexivity|].
    split; [congruence|].
    split; [reflexivity | reflexivity | | exact (fun Hp => Hp)].
    cbn. rewrite steps_app. apply app_nil_r.
  - apply String.eqb_neq in Ee. rewrite bind_assoc, bind_gets, bind_modify.
    eexists. split; [reflexivity|]. cbn.
    split; [reflexivity|]. split; [reflexivity|]. split; [congruence|].
    split.
    + intros _. split.
      * unfold getQueue, getLazyArray. cbn. now rewrite lookup_insert_eq.
      * intros k Hk. unfold getQueue, getLazyArray. cbn.
        now rewrite lookup_insert_ne by congruence.
    + split; [reflexivity | reflexivity | |].
      * cbn. rewrite steps_app. apply app_nil_r.
      * intros Hp k x. unfold getQueue, getLazyArray. cbn.
        rewrite lookup_insert. destruct (decide (reuseID item = k)) as [<-|Hne].
        -- cbn. intros Hin. apply elem_of_app in Hin as [Hin|Hin].
           ++ apply (Hp (reuseID item) x Hin).
           ++ apply list_elem_of_singleton in Hin. subst x.
              split; [reflexivity | exact Ee].
        -- apply Hp.
Qed.

Lemma queueItem_hidden (i : Index) (s : State) :
  getVisibleItem i s = None -> queueItem i s = (Returned false, s).
Proof. intros Hv. unfold queueItem. now rewrite bind_gets, Hv. Qed.

Lemma quiet_queueItem (i : Index) : respects quiet (queueItem i).
Proof.
  intros s. destruct (getVisibleItem i s) as [item|] eqn:Hv.
  - destruct (queueItem_visible i item s Hv) as (s' & E & _ & _ & _ & _ & Hq).
    now rewrite E.
  - rewrite (queueItem_hidden i s Hv). apply quiet_refl.
Qed.

Create HintDb quiet.
#[local] Hint Resolve quiet_refl quiet_setVisibleItem quiet_console_error
  quiet_set_refCounter quiet_dequeueItem_ quiet_queueItem : quiet.

Ltac quiet_method :=
  respects_walk quiet_refl quiet_trans
    ltac:(first [ solve [eauto with quiet]
                | solve [apply quiet_record; reflexivity] ]).

Lemma quiet_updateItem (item : IItem) (i : Index) (isNew : bool) :
  respects quiet (updateItem source item i isNew).
Proof. unfold updateItem. quiet_method. Qed.
#[local] Hint Resolve quiet_updateItem : quiet.

Lemma quiet_createItem (i : Index) : respects quiet (createItem source i).
Proof. unfold createItem, view_createItemViewRef. quiet_method. Qed.

Lemma quiet_dequeueItem (i : Index) : respects quiet (dequeueItem source i).
Proof. unfold dequeueItem. quiet_method. Qed.
#[local] Hint Resolve quiet_createItem quiet_dequeueItem : quiet.

(** *** Reuse of a pooled record *)

(** [dequeueItem] first pops the stack of the reuse key computed for the
    index.  With nothing there it returns nothing; otherwise it either throws
    out of the layout computation, with the record already popped, or returns
    the popped record, updated and bound to the index. *)
Lemma dequeueItem_outcome (i : Index) (s : State) :
  exists s0,
    (getQueue s0 (getReuseID source i) = removelast (getQueue s (getReuseID source i))
     /\ (forall k, k <> getReuseID source i -> getQueue s0 k = getQueue s k)
     /\ visibleItems s0 = visibleItems s
     /\ _updating s0 = _updating s
     /\ needsRender s0 = needsRender s
     /\ trace s0 = trace s)
    /\ match last (getQueue s (getReuseID source i)) with
       | None => dequeueItem source i s = (Returned None, s0)
       | Some old =>
           (exists e, dequeueItem source i s = (Thrown e, s0))
           \/ (exists item s',
                 dequeueItem source i s = (Returned (Some item), s')
                 /\ ref item = ref old
                 /\ reuseID item = reuseID old
                 /\ _itemQueues s' = _itemQueues s0
                 /\ visibleItems s' !! i = Some item)
       end.
Proof.
  destruct (_dequeueItem_returns (getReuseID source i) s)
    as (s0 & E & Hkey & Hother & Hv & Hu & Hr & Ht).
  exists s0. split; [auto 10|].
  unfold dequeueItem. rewrite (bind_returned _ _ _ _ _ E).
  destruct (last (getQueue s (getReuseID source i))) as [old|]; [|reflexivity].
  destruct (updateItem_outcome old i false s0)
    as [(e & _ & Ee) | (item' & Ei & Href & Hid)].
  - left. exists e. now rewrite (bind_thrown _ _ _ _ _ Ee).
  - right. rewrite (bind_returned _ _ _ _ _ Ei).
    destruct (shouldRenderItem source item' (index old) (contentLayout old)).
    + rewrite bind_modify. eexists _, _. split; [reflexivity|]. cbn.
      repeat split; try assumption. apply lookup_insert_eq.
    + eexists _, _. split; [reflexivity|]. cbn.
      repeat split; try assumption. apply lookup_insert_eq.
Qed.

(** *** The loop over the operations *)

Lemma processUpdates_app (options : UpdateOptions)
    (pre rest : list (@IItemUpdate Index)) (failure : option string) (s : State) :
  processUpdates source options (pre ++ rest) failure s
  = bind (processUpdates source options pre None)
         (fun continue => if continue
                          then processUpdates source options rest failure
                          else ret false) s.
Proof.
  revert s. induction pre as [|op pre IH]; intros s; [reflexivity|].
  cbn [processUpdates app]. rewrite bind_assoc.
  destruct (processUpdate source options op s) as [[[]|e] s1] eqn:E.
  - rewrite !(bind_returned _ _ _ _ _ E). apply IH.
  - rewrite !(bind_returned _ _ _ _ _ E). reflexivity.
  - rewrite !(bind_thrown _ _ _ _ _ E). reflexivity.
Qed.

(** An addition that finds creation disabled and no record to reuse ends the
    update on the spot. *)
Lemma processUpdate_aborts (options : UpdateOptions) (a : Index)
    (removed : option Index) (s : State) :
  create options = false ->
  queue options = false \/ removed = None ->
  dequeue options = false \/ getQueue s (getReuseID source a) = [] ->
  exists s',
    processUpdate source options {| add := Some a; remove := removed |} s
    = (Returned false, s')
    /\ _updating s' = false
    /\ needsRender s' = true
    /\ visibleItems s' = visibleItems s
    /\ (forall k, getQueue s' k = getQueue s k)
    /\ trace s' = trace s ++ [Addition a; SetNeedsRender].
Proof.
  intros Hc Hq Hd. unfold processUpdate. cbn [add remove].
  assert (Hrem : (if queue options then removed else None) = None).
  { destruct Hq as [-> | ->]; [reflexivity | now destruct (queue options)]. }
  rewrite Hrem, bind_modify, Hc.
  assert (Hnone : exists s0,
             (if dequeue options then dequeueItem source a else ret None)
               (record (Addition a) s) = (Returned None, s0)
             /\ (forall k, getQueue s0 k = getQueue s k)
             /\ visibleItems s0 = visibleItems s
             /\ trace s0 = trace s ++ [Addition a]).
  { destruct (dequeue options) eqn:Ed.
    - destruct Hd as [Hd|Hd]; [discriminate|].
      destruct (dequeueItem_outcome a (record (Addition a) s))
        as (s0 & (Hkey & Hother & Hv & _ & _ & Ht) & Hout).
      change (getQueue (record (Addition a) s)) with (getQueue s) in *.
      rewrite Hd in *. cbn in Hout. exists s0. repeat split; auto.
      intros k. destruct (decide (k = getReuseID source a)) as [->|Hne].
      + now rewrite Hkey, Hd.
      + now apply Hother.
    - eexists. split; [reflexivity|]. repeat split. }
  destruct Hnone as (s0 & E0 & Hq0 & Hv0 & Ht0).
  rewrite (bind_returned _ _ _ _ _ E0).
  unfold cancelUpdate, endUpdate, view_setNeedsRender.
  eexists. split; [reflexivity|]. cbn. repeat split; auto.
  unfold _commitPendingItemQueues. rewrite Ht0, <- app_assoc. reflexivity.
Qed.

Lemma updateItems_begins (options : UpdateOptions)
    (itemUpdates : @ItemUpdates Index) (s : State) :
  _updating s = false ->
  updateItems source options itemUpdates s
  = try_catch
      (bind (processUpdates source options (yields itemUpdates) (fails itemUpdates))
            (fun completed =>
               if completed then
                 bind (if update options
                       then bind (gets visibleIndexes) (updateVisible source)
                       else ret tt)
                      (fun _ => commitUpdate)
               else ret tt))
      (fun error =>
         bind (modify (console_error ("Error during update: " ++ error)))
              (fun _ => cancelUpdate))
      (set_updating true s).
Proof.
  intros Hu. unfold updateItems, beginUpdate.
  rewrite bind_assoc, bind_gets, Hu, bind_modify. reflexivity.
Qed.

(** C5.  When an addition finds creation disabled and no pooled record to
    reuse (the stack of its reuse key is empty, or reuse is disabled), the
    whole update is aborted: [updateItems] returns with the update cancelled
    and a render requested on the view, none of the operations after it is
    processed, and what the operations before it did to the visible map and
    the pool stays. *)
Theorem updateItems_aborts_without_record (options : UpdateOptions)
    (pre post : list (@IItemUpdate Index)) (failure : option string)
    (a : Index) (removed : option Index) (s s1 : State) :
  _updating s = false ->
  create options = false ->
  queue options = false \/ removed = None ->
  processUpdates source options pre None (set_updating true s) = (Returned true, s1) ->
  dequeue options = false \/ getQueue s1 (getReuseID source a) = [] ->
  exists s',
    updateItems source options
      {| yields := pre ++ {| add := Some a; remove := removed |} :: post;
         fails := failure |} s
    = (Returned tt, s')
    /\ _updating s' = false
    /\ needsRender s' = true
    /\ trace s' = trace s1 ++ [Addition a; SetNeedsRender]
    /\ visibleItems s' = visibleItems s1
    /\ (forall k, getQueue s' k = getQueue s1 k).
Proof.
  intros Hu Hc Hq Hpre Hd.
  destruct (processUpdate_aborts options a removed s1 Hc Hq Hd)
    as (s' & E & Hu' & Hr' & Hv' & Hq' & Ht').
  exists s'. split; [|auto].
  assert (Hloop : processUpdates source options
                    (pre ++ {| add := Some a; remove := removed |} :: post)
                    failure (set_updating true s) = (Returned false, s')).
  { rewrite processUpdates_app, (bind_returned _ _ _ _ _ Hpre).
    cbn [processUpdates]. now rewrite (bind_returned _ _ _ _ _ E). }
  rewrite updateItems_begins by exact Hu. cbn [yields fails].
  unfold try_catch. now rewrite (bind_returned _ _ _ _ _ Hloop).
Qed.

(** *** The order of the steps *)

Lemma sameSteps_refl (s : State) : sameSteps s s.
Proof. reflexivity. Qed.

Lemma sameSteps_trans (a b c : State) :
  sameSteps a b -> sameSteps b c -> sameSteps a c.
Proof. unfold sameSteps. congruence. Qed.

Lemma sameSteps_quiet {A} (m : M State A) : respects quiet m -> respects sameSteps m.
Proof. intros Hm s. destruct (Hm s) as [_ _ Hs _]. exact Hs. Qed.

Lemma sameSteps_endUpdate : respects sameSteps endUpdate.
Proof. intros s. reflexivity. Qed.

Lemma sameSteps_view_setNeedsRender : respects sameSteps view_setNeedsRender.
Proof.
  intros s. unfold sameSteps. cbn. rewrite steps_app. apply app_nil_r.
Qed.

Create HintDb sameSteps.
#[local] Hint Resolve sameSteps_refl sameSteps_endUpdate
  sameSteps_view_setNeedsRender : sameSteps.
#[local] Hint Extern 1 (respects sameSteps _) =>
  apply sameSteps_quiet; solve [eauto with quiet] : sameSteps.

Ltac sameSteps_method :=
  respects_walk sameSteps_refl sameSteps_trans
    ltac:(first [ solve [eauto with sameSteps] | reflexivity ]).

Lemma snd_bind_ret {S A B} (m : M S A) (b : B) (s : S) :
  snd (bind m (fun _ => ret b) s) = snd (m s).
Proof. unfold bind. destruct (m s) as [[a|e] s1]; reflexivity. Qed.

(** One turn of the loop records exactly the step the operation is handled
    as, whatever the outcome of the turn. *)
Lemma processUpdate_steps (options : UpdateOptions) (op : @IItemUpdate Index)
    (s : State) :
  steps (trace (snd (processUpdate source options op s)))
  = steps (trace s) ++ handledAs options op.
Proof.
  unfold processUpdate, handledAs.
  destruct (if queue options then remove op else None) as [removed|].
  - rewrite bind_modify.
    assert (Hq : respects sameSteps (queueItem removed ;;; ret true)%method)
      by sameSteps_method.
    rewrite (Hq (record (Removal removed) s)). cbn. apply steps_app.
  - destruct (add op) as [added|]; [|cbn; now rewrite app_nil_r].
    rewrite bind_modify.
    match goal with
    | |- context [bind ?m ?k (record _ _)] =>
        assert (Hq : respects sameSteps (bind m k))
    end.
    { unfold cancelUpdate. sameSteps_method. }
    rewrite (Hq (record (Addition added) s)). cbn. apply steps_app.
Qed.

Lemma processUpdates_steps (options : UpdateOptions)
    (ops : list (@IItemUpdate Index)) (failure : option string) (s : State) :
  exists k,
    steps (trace (snd (processUpdates source options ops failure s)))
    = steps (trace s) ++ flat_map (handledAs options) (take k ops)
    /\ (fst (processUpdates source options ops failure s) = Returned true ->
        k = length ops).
Proof.
  revert s. induction ops as [|op ops IH]; intros s.
  - exists 0%nat. cbn. rewrite app_nil_r. destruct failure; cbn; auto.
  - cbn [processUpdates]. pose proof (processUpdate_steps options op s) as Hop.
    destruct (processUpdate source options op s) as [[[]|e] s1] eqn:E; cbn in Hop.
    + destruct (IH s1) as (k & Hk & Hlen). exists (S k).
      rewrite (bind_returned _ _ _ _ _ E). cbn [take flat_map].
      rewrite Hk, Hop, <- app_assoc. split; [reflexivity|].
      intros Hr. cbn. now rewrite Hlen.
    + exists 1%nat. rewrite (bind_returned _ _ _ _ _ E). cbn.
      rewrite take_0. cbn. rewrite app_nil_r.
      split; [exact Hop | discriminate].
    + exists 1%nat. rewrite (bind_thrown _ _ _ _ _ E). cbn.
      rewrite take_0. cbn. rewrite app_nil_r.
      split; [exact Hop | discriminate].
Qed.

Lemma updateVisible_steps (indexes : list Index) (s : State) :
  exists pass,
    steps (trace (snd (updateVisible source indexes s)))
    = steps (trace s) ++ map UpdateVisible pass.
Proof.
  revert s. induction indexes as [|i indexes IH]; intros s.
  - exists []. cbn. now rewrite app_nil_r.
  - cbn [updateVisible]. rewrite bind_modify, bind_gets.
    destruct (getVisibleItem i (record (UpdateVisible i) s)) as [item|].
    + pose proof (sameSteps_quiet _ (quiet_updateItem item i false)
                    (record (UpdateVisible i) s)) as Hu.
      unfold sameSteps in Hu. cbn in Hu. rewrite steps_app in Hu.
      destruct (updateItem source item i false (record (UpdateVisible i) s))
        as [[item'|e] s1] eqn:E; cbn in Hu.
      * rewrite (bind_returned _ _ _ _ _ E). destruct (IH s1) as (pass & Hp).
        exists (i :: pass). rewrite Hp, Hu, <- app_assoc. reflexivity.
      * rewrite (bind_thrown _ _ _ _ _ E). exists [i]. exact Hu.
    + destruct (IH (record (UpdateVisible i) s)) as (pass & Hp).
      exists (i :: pass). rewrite Hp. cbn. rewrite steps_app, <- app_assoc.
      reflexivity.
Qed.

Lemma passLast_pass (pass : list Index) :
  passLast (map (@UpdateVisible Index) pass) = true.
Proof.
  induction pass as [|i pass IH]; [reflexivity|]. cbn [map passLast].
  rewrite IH, andb_true_r. clear IH.
  induction pass as [|j pass IH]; [reflexivity | exact IH].
Qed.

Lemma passLast_sequence (options : UpdateOptions)
    (ops : list (@IItemUpdate Index)) (pass : list Index) :
  passLast (flat_map (handledAs options) ops ++ map UpdateVisible pass) = true.
Proof.
  induction ops as [|op ops IH]; [apply passLast_pass|].
  cbn [flat_map]. rewrite <- app_assoc. unfold handledAs at 1.
  destruct (if queue options then remove op else None);
    [exact IH | destruct (add op); exact IH].
Qed.


(** *** Failures while the operations are processed *)

Lemma queueItem_returns (i : Index) (s : State) :
  exists b s', queueItem i s = (Returned b, s').
Proof.
  destruct (getVisibleItem i s) as [item|] eqn:Hv.
  - destruct (queueItem_visible i item s Hv) as (s' & E & _). eauto.
  - rewrite (queueItem_hidden i s Hv). eauto.
Qed.

(** A turn that throws was an addition whose layout computation failed: the
    visible map, the flags and every stack but the one of its reuse key are as
    the turn found them. *)
Lemma processUpdate_thrown (options : UpdateOptions) (op : @IItemUpdate Index)
    (s s2 : State) (e : string) :
  processUpdate source options op s = (Thrown e, s2) ->
  exists a,
    handledAs options op = [Addition a]
    /\ visibleItems s2 = visibleItems s
    /\ needsRender s2 = needsRender s
    /\ _updating s2 = _updating s
    /\ (forall k, k <> getReuseID source a -> getQueue s2 k = getQueue s k).
Proof.
  unfold processUpdate, handledAs.
  destruct (if queue options then remove op else None) as [removed|].
  - rewrite bind_modify.
    destruct (queueItem_returns removed (record (Removal removed) s))
      as (b & s' & E).
    rewrite (bind_returned _ _ _ _ _ E). discriminate.
  - destruct (add op) as [a|]; [|discriminate].
    rewrite bind_modify. intros Hthrown. exists a. split; [reflexivity|].
    assert (Hcreate : forall s0,
               visibleItems s0 = visibleItems s ->
               needsRender s0 = needsRender s ->
               _updating s0 = _updating s ->
               (forall k, k <> getReuseID source a -> getQueue s0 k = getQueue s k) ->
               (if create options
                then bind (createItem source a) (fun _ => ret true)
                else bind cancelUpdate
                       (fun _ => bind view_setNeedsRender (fun _ => ret false))) s0
               = (Thrown e, s2) ->
               visibleItems s2 = visibleItems s
               /\ needsRender s2 = needsRender s
               /\ _updating s2 = _updating s
               /\ (forall k, k <> getReuseID source a -> getQueue s2 k = getQueue s k)).
    { intros s0 Hv Hr Hu Hq. destruct (create options); [|discriminate].
      unfold createItem, view_createItemViewRef.
      rewrite !bind_assoc, bind_gets, bind_assoc, bind_modify, bind_ret.
      match goal with
      | |- context [bind (updateItem source ?item a true) _ ?s1] =>
          destruct (updateItem_outcome item a true s1)
            as [(e' & _ & Ee) | (item' & Ei & _)]
      end.
      - rewrite (bind_thrown _ _ _ _ _ Ee). intros [= <- <-]. cbn. auto.
      - rewrite (bind_returned _ _ _ _ _ Ei). discriminate. }
    destruct (dequeue options).
    + destruct (dequeueItem_outcome a (record (Addition a) s))
        as (s0 & (Hkey & Hother & Hv & Hu & Hr & Ht) & Hout).
      change (getQueue (record (Addition a) s)) with (getQueue s) in *.
      cbn in Hv, Hu, Hr.
      destruct (last (getQueue s (getReuseID source a))) as [old|].
      * destruct Hout as [(e' & Ee) | (item & s' & Ei & _)].
        -- rewrite (bind_thrown _ _ _ _ _ Ee) in Hthrown.
           injection Hthrown as <- <-. auto.
        -- rewrite (bind_returned _ _ _ _ _ Ei) in Hthrown. discriminate.
      * rewrite (bind_returned _ _ _ _ _ Hout) in Hthrown.
        apply (Hcreate s0); auto.
    + rewrite bind_ret in Hthrown. apply (Hcreate (record (Addition a) s)); auto.
Qed.

(** A turn that lets the loop go on has neither ended the update nor asked
    for a render. *)
Lemma processUpdate_continues (options : UpdateOptions) (op : @IItemUpdate Index)
    (s s1 : State) :
  processUpdate source options op s = (Returned true, s1) ->
  needsRender s1 = needsRender s /\ _updating s1 = _updating s.
Proof.
  unfold processUpdate.
  destruct (if queue options then remove op else None) as [removed|].
  - rewrite bind_modify.
    pose proof (quiet_queueItem removed (record (Removal removed) s)) as Hq.
    destruct (queueItem removed (record (Removal removed) s)) as [[b|e] s'] eqn:E.
    + rewrite (bind_returned _ _ _ _ _ E). intros [= <-]. destruct Hq. auto.
    + rewrite (bind_thrown _ _ _ _ _ E). discriminate.
  - destruct (add op) as [a|]; [|intros [= <-]; auto].
    rewrite bind_modify.
    assert (Hq : respects quiet (if dequeue options
                                 then dequeueItem source a else ret None))
      by quiet_method.
    specialize (Hq (record (Addition a) s)).
    destruct ((if dequeue options then dequeueItem source a else ret None)
                (record (Addition a) s)) as [[[item|]|e] s0] eqn:E.
    + rewrite (bind_returned _ _ _ _ _ E). intros [= <-]. destruct Hq. auto.
    + rewrite (bind_returned _ _ _ _ _ E).
      destruct (create options); [|discriminate].
      pose proof (quiet_createItem a s0) as Hc.
      destruct (createItem source a s0) as [[item|e] s'] eqn:Ec.
      * rewrite (bind_returned _ _ _ _ _ Ec). intros [= <-].
        destruct Hq, Hc. cbn in *. split; congruence.
      * rewrite (bind_thrown _ _ _ _ _ Ec). discriminate.
    + rewrite (bind_thrown _ _ _ _ _ E). discriminate.
Qed.

Lemma processUpdates_continues (options : UpdateOptions)
    (ops : list (@IItemUpdate Index)) (s s1 : State) :
  processUpdates source options ops None s = (Returned true, s1) ->
  needsRender s1 = needsRender s /\ _updating s1 = _updating s.
Proof.
  revert s. induction ops as [|op ops IH]; intros s.
  - intros [= <-]. auto.
  - cbn [processUpdates].
    destruct (processUpdate source options op s) as [[[]|e] s0] eqn:E.
    + rewrite (bind_returned _ _ _ _ _ E). intros Hrest.
      destruct (processUpdate_continues options op s s0 E).
      destruct (IH s0 Hrest). split; congruence.
    + rewrite (bind_returned _ _ _ _ _ E). discriminate.
    + rewrite (bind_thrown _ _ _ _ _ E). discriminate.
Qed.

(** When the loop throws, the operations before the failure were all
    processed, and the failure is either the generator's own or that of the
    next operation. *)
Lemma processUpdates_thrown (options : UpdateOptions)
    (ops : list (@IItemUpdate Index)) (failure : option string)
    (s s2 : State) (e : string) :
  processUpdates source options ops failure s = (Thrown e, s2) ->
  exists k s1,
    processUpdates source options (take k ops) None s = (Returned true, s1)
    /\ ((k = length ops /\ failure = Some e /\ s2 = s1)
        \/ (exists op, ops !! k = Some op
                       /\ processUpdate source options op s1 = (Thrown e, s2))).
Proof.
  revert s. induction ops as [|op ops IH]; intros s.
  - cbn. destruct failure as [e'|]; [|discriminate].
    intros [= <- <-]. exists 0%nat, s. split; [reflexivity|]. left. auto.
  - cbn [processUpdates].
    destruct (processUpdate source options op s) as [[[]|e'] s0] eqn:E.
    + rewrite (bind_returned _ _ _ _ _ E). intros Hrest.
      destruct (IH s0 Hrest) as (k & s1 & Hpre & Hcase).
      exists (S k), s1. split.
      * cbn [take processUpdates]. now rewrite (bind_returned _ _ _ _ _ E).
      * destruct Hcase as [(-> & Hf & Hs) | (op' & Hop & Hthrown)].
        -- left. auto.
        -- right. exists op'. auto.
    + rewrite (bind_returned _ _ _ _ _ E). discriminate.
    + rewrite (bind_thrown _ _ _ _ _ E). intros [= <- <-].
      exists 0%nat, s. split; [reflexivity|]. right. exists op. auto.
Qed.


(** *** The pool stays scoped by reuse key *)

Lemma poolKept_refl (s : State) : poolKept s s.
Proof. intros Hp. exact Hp. Qed.

Lemma poolKept_trans (a b c : State) : poolKept a b -> poolKept b c -> poolKept a c.
Proof. unfold poolKept. auto. Qed.

Lemma poolKept_quiet {A} (m : M State A) : respects quiet m -> respects poolKept m.
Proof. intros Hm s. destruct (Hm s) as [_ _ _ Hp]. exact Hp. Qed.

Lemma poolKept_queues (s s' : State) :
  _itemQueues s' = _itemQueues s -> poolKept s s'.
Proof. intros Hq Hp k item. unfold getQueue. rewrite Hq. apply Hp. Qed.

Lemma poolScoped_constructed : poolScoped (@constructed Index _ _).
Proof.
  intros k item. unfold getQueue, getLazyArray. cbn. rewrite lookup_empty.
  cbn. intros Hin. now apply elem_of_nil in Hin.
Qed.

Create HintDb poolKept.
#[local] Hint Resolve poolKept_refl : poolKept.
#[local] Hint Extern 1 (respects poolKept _) =>
  apply poolKept_quiet; solve [eauto with quiet] : poolKept.
#[local] Hint Extern 1 (poolKept _ _) =>
  apply poolKept_queues; reflexivity : poolKept.

Ltac poolKept_method :=
  respects_walk poolKept_refl poolKept_trans ltac:(solve [eauto with poolKept]).

Lemma poolKept_processUpdate (options : UpdateOptions) (op : @IItemUpdate Index) :
  respects poolKept (processUpdate source options op).
Proof.
  unfold processUpdate, cancelUpdate, endUpdate, view_setNeedsRender.
  poolKept_method.
Qed.
#[local] Hint Resolve poolKept_processUpdate : poolKept.

Lemma poolKept_processUpdates (options : UpdateOptions)
    (ops : list (@IItemUpdate Index)) (failure : option string) :
  respects poolKept (processUpdates source options ops failure).
Proof.
  induction ops as [|op ops IH]; cbn [processUpdates]; poolKept_method.
Qed.

Lemma poolKept_updateVisible (indexes : list Index) :
  respects poolKept (updateVisible source indexes).
Proof.
  induction indexes as [|i indexes IH]; cbn [updateVisible]; poolKept_method.
Qed.
#[local] Hint Resolve poolKept_processUpdates poolKept_updateVisible : poolKept.

Lemma poolKept_updateItems (options : UpdateOptions)
    (itemUpdates : @ItemUpdates Index) :
  respects poolKept (updateItems source options itemUpdates).
Proof.
  unfold updateItems, beginUpdate, commitUpdate, cancelUpdate, endUpdate.
  poolKept_method.
Qed.

(** C9.  Recycling is scoped by reuse key and last-in first-out.  In a pool
    where every record sits in the stack of its own, non-empty reuse key:
    [dequeueItem] returns only the record on top of the stack of the key
    computed for the index, which carries that key, pops it and leaves every
    other stack alone, so a record queued under one key is never returned for
    a request that computes another; [queueItem] puts the record on top of the
    stack of its own key and nowhere else, and nowhere at all when its key is
    the empty string; and the pool stays that way through [queueItem],
    [dequeueItem] and every [updateItems]. *)
Theorem recycling_scoped_and_lifo (s : State) :
  poolScoped s ->
  (forall i item s',
      dequeueItem source i s = (Returned (Some item), s') ->
      exists q old,
        getQueue s (getReuseID source i) = q ++ [old]
        /\ ref item = ref old
        /\ reuseID item = getReuseID source i
        /\ getQueue s' (getReuseID source i) = q
        /\ (forall k, k <> getReuseID source i -> getQueue s' k = getQueue s k))
  /\ (forall i item,
        getVisibleItem i s = Some item ->
        exists s',
          queueItem i s = (Returned true, s')
          /\ (reuseID item = EmptyString -> forall k, getQueue s' k = getQueue s k)
          /\ (reuseID item <> EmptyString ->
              getQueue s' (reuseID item)
              = getQueue s (reuseID item) ++ [set_animated_opacity 0 item]
              /\ forall k, k <> reuseID item -> getQueue s' k = getQueue s k))
  /\ (forall i, poolScoped (snd (queueItem i s))
                /\ poolScoped (snd (dequeueItem source i s)))
  /\ (forall options itemUpdates,
        poolScoped (snd (updateItems source options itemUpdates s))).
Proof.
  intros Hp. split; [|split; [|split]].
  - intros i item s' E.
    destruct (dequeueItem_outcome i s) as (s0 & (Hkey & Hother & _) & Hout).
    destruct (last (getQueue s (getReuseID source i))) as [old|] eqn:El.
    + apply last_Some in El as [q Hq].
      destruct Hout as [(e & Ee) | (item' & s'' & Ei & Href & Hid & Hqs & _)];
        [congruence|].
      rewrite E in Ei. injection Ei as <- <-.
      exists q, old. split; [exact Hq|]. split; [exact Href|].
      split; [|split].
      * rewrite Hid. apply (Hp (getReuseID source i) old).
        rewrite Hq. apply elem_of_app. right. now apply list_elem_of_singleton.
      * unfold getQueue in *. rewrite Hqs, Hkey, Hq. apply removelast_last.
      * intros k Hk. unfold getQueue in *. rewrite Hqs. now apply Hother.
    + congruence.
  - intros i item Hv.
    destruct (queueItem_visible i item s Hv) as (s' & E & _ & _ & He & Hne & _).
    exists s'. split; [exact E|]. split; [|exact Hne].
    intros Hempty k. unfold getQueue. now rewrite (He Hempty).
  - intros i. split.
    + now apply (quiet_queueItem i s).
    + now apply (quiet_dequeueItem i s).
  - intros options itemUpdates. now apply (poolKept_updateItems options itemUpdates s).
Qed.

(** ** Further properties of the layout source *)

(** *** The update flag *)

(** A turn that ends the loop has cancelled the update and asked for a
    render. *)
Lemma processUpdate_stops (options : UpdateOptions) (op : @IItemUpdate Index)
    (s s1 : State) :
  processUpdate source options op s = (Returned false, s1) ->
  _updating s1 = false /\ needsRender s1 = true /\ create options = false.
Proof.
  unfold processUpdate.
  destruct (if queue options then remove op else None) as [removed|].
  - rewrite bind_modify.
    destruct (queueItem_returns removed (record (Removal removed) s))
      as (b & s' & E).
    rewrite (bind_returned _ _ _ _ _ E). discriminate.
  - destruct (add op) as [a|]; [|discriminate].
    rewrite bind_modify.
    destruct ((if dequeue options then dequeueItem source a else ret None)
                (record (Addition a) s)) as [[[item|]|e] s0] eqn:E.
    + rewrite (bind_returned _ _ _ _ _ E). discriminate.
    + rewrite (bind_returned _ _ _ _ _ E).
      destruct (create options).
      * destruct (createItem source a s0) as [[item|e] s'] eqn:Ec.
        -- rewrite (bind_returned _ _ _ _ _ Ec). discriminate.
        -- rewrite (bind_thrown _ _ _ _ _ Ec). discriminate.
      * unfold cancelUpdate, endUpdate, view_setNeedsRender.
        intros [= <-]. repeat split; reflexivity.
    + rewrite (bind_thrown _ _ _ _ _ E). discriminate.
Qed.

Lemma processUpdates_stops (options : UpdateOptions)
    (ops : list (@IItemUpdate Index)) (failure : option string) (s s1 : State) :
  processUpdates source options ops failure s = (Returned false, s1) ->
  _updating s1 = false /\ needsRender s1 = true /\ create options = false.
Proof.
  revert s. induction ops as [|op ops IH]; intros s.
  - cbn. destruct failure; discriminate.
  - cbn [processUpdates].
    destruct (processUpdate source options op s) as [[[]|e] s0] eqn:E.
    + rewrite (bind_returned _ _ _ _ _ E). apply IH.
    + rewrite (bind_returned _ _ _ _ _ E). intros [= <-].
      now apply (processUpdate_stops options op s).
    + rewrite (bind_thrown _ _ _ _ _ E). discriminate.
Qed.

(** X14.  [updateItems] never leaves the source updating.  Called on a source
    that is already updating it throws "Already updating", clears the flag
    and does nothing else, so the next call goes through; called on a source
    that is not, it always returns, whatever the operations, the layout
    computation or the generator throw, and the flag is clear again. *)
Theorem updateItems_clears_updating (options : UpdateOptions)
    (itemUpdates : @ItemUpdates Index) (s : State) :
  _updating (snd (updateItems source options itemUpdates s)) = false
  /\ (if _updating s
      then updateItems source options itemUpdates s
           = (Thrown "Already updating", set_updating false s)
      else fst (updateItems source options itemUpdates s) = Returned tt).
Proof.
  destruct (_updating s) eqn:Hu.
  - assert (E : updateItems source options itemUpdates s
                = (Thrown "Already updating", set_updating false s)).
    { unfold updateItems, beginUpdate.
      rewrite bind_assoc, bind_gets, Hu. reflexivity. }
    rewrite E. split; reflexivity.
  - rewrite updateItems_begins by exact Hu. unfold try_catch.
    destruct (processUpdates source options (yields itemUpdates)
                (fails itemUpdates) (set_updating true s))
      as [[[]|e] s1] eqn:E.
    + rewrite (bind_returned _ _ _ _ _ E).
      destruct ((if update options
                 then bind (gets visibleIndexes) (updateVisible source)
                 else ret tt) s1) as [[[]|e] s2] eqn:E2.
      * rewrite (bind_returned _ _ _ _ _ E2). split; reflexivity.
      * rewrite (bind_thrown _ _ _ _ _ E2). split; reflexivity.
    + rewrite (bind_returned _ _ _ _ _ E). cbn.
      split; [|reflexivity]. now destruct (processUpdates_stops _ _ _ _ _ E).
    + rewrite (bind_thrown _ _ _ _ _ E). split; reflexivity.
Qed.

(** *** Updates that create what they cannot reuse *)

Lemma sameRender_refl (s : State) : sameRender s s.
Proof. reflexivity. Qed.

Lemma sameRender_trans (a b c : State) :
  sameRender a b -> sameRender b c -> sameRender a c.
Proof. unfold LayoutSource.sameRender. congruence. Qed.

Lemma sameRender_quiet {A} (m : M State A) : respects quiet m -> respects sameRender m.
Proof. intros Hm s. destruct (Hm s) as [_ Hr _ _]. exact Hr. Qed.

Create HintDb sameRender.
#[local] Hint Resolve sameRender_refl : sameRender.
#[local] Hint Extern 1 (respects sameRender _) =>
  apply sameRender_quiet; solve [eauto with quiet] : sameRender.

Ltac sameRender_method :=
  respects_walk sameRender_refl sameRender_trans
    ltac:(first [ solve [eauto with sameRender] | reflexivity ]).

Lemma sameRender_processUpdate (options : UpdateOptions) (op : @IItemUpdate Index) :
  create options = true ->
  respects sameRender (processUpdate source options op).
Proof.
  intros Hc. unfold processUpdate. rewrite Hc. cbv iota. sameRender_method.
Qed.

Lemma sameRender_processUpdates (options : UpdateOptions)
    (ops : list (@IItemUpdate Index)) (failure : option string) :
  create options = true ->
  respects sameRender (processUpdates source options ops failure).
Proof.
  intros Hc. induction ops as [|op ops IH]; cbn [processUpdates].
  - sameRender_method.
  - pose proof (sameRender_processUpdate options op Hc). sameRender_method.
Qed.

Lemma sameRender_updateVisible (indexes : list Index) :
  respects sameRender (updateVisible source indexes).
Proof.
  induction indexes as [|i indexes IH]; cbn [updateVisible]; sameRender_method.
Qed.

(** X22.  With creation enabled an update is never aborted and never asks the
    view for a render: the loop over the operations does not end early, and
    whether the update is committed or an exception cancels it, the render
    flag of the view is as it was. *)
Theorem updateItems_creating_asks_no_render (options : UpdateOptions)
    (itemUpdates : @ItemUpdates Index) (s : State) :
  create options = true ->
  _updating s = false ->
  needsRender (snd (updateItems source options itemUpdates s)) = needsRender s
  /\ fst (processUpdates source options (yields itemUpdates) (fails itemUpdates)
            (set_updating true s)) <> Returned false.
Proof.
  intros Hc Hu. split.
  - rewrite updateItems_begins by exact Hu.
    pose proof (sameRender_processUpdates options (yields itemUpdates)
                  (fails itemUpdates) Hc) as Hloop.
    pose proof sameRender_updateVisible as Hpass.
    match goal with
    | |- needsRender (snd (?m ?s0)) = _ =>
        assert (Hm : respects sameRender m)
          by (unfold commitUpdate, cancelUpdate, endUpdate; sameRender_method)
    end.
    apply (Hm (set_updating true s)).
  - destruct (processUpdates source options (yields itemUpdates)
                (fails itemUpdates) (set_updating true s)) as [[[]|e] s1] eqn:E;
      cbn; try discriminate.
    destruct (processUpdates_stops _ _ _ _ _ E) as (_ & _ & Hf). congruence.
Qed.

(** *** Reset *)

Lemma hideVisible_hides (l : list (Index * IItem)) (s : State) :
  NoDup (map fst l) ->
  (forall i item, (i, item) ∈ l -> visibleItems s !! i = Some item) ->
  exists s',
    hideVisible (map fst l) s = (Returned tt, s')
    /\ (forall k, k ∈ map fst l -> visibleItems s' !! k = None)
    /\ (forall k, k ∉ map fst l -> visibleItems s' !! k = visibleItems s !! k)
    /\ trace s' = trace s ++ map (fun p => WillHideItem (snd p)) l
    /\ _itemQueues s' = _itemQueues s
    /\ _updating s' = _updating s
    /\ needsRender s' = needsRender s
    /\ refCounter s' = refCounter s.
Proof.
  revert s. induction l as [|[i item] l IH]; intros s Hnd Hl.
  - exists s. split; [reflexivity|]. cbn. rewrite app_nil_r.
    repeat split; try reflexivity. intros k Hk. inversion Hk.
  - cbn [map fst hideVisible]. apply NoDup_cons in Hnd as [Hi Hnd].
    rewrite bind_gets. unfold getVisibleItem.
    rewrite (Hl i item) by (left). rewrite !bind_modify.
    destruct (IH (setVisibleItem i None (record (WillHideItem item) s)))
      as (s' & E & Hin & Hout & Ht & Hq & Hu & Hr & Hc); [exact Hnd| |].
    { intros j x Hj. cbn. rewrite lookup_delete_ne.
      - apply Hl. now right.
      - intros <-. apply Hi. apply list_elem_of_fmap. now exists (i, x). }
    exists s'. split; [exact E|]. cbn in Hout, Ht, Hq, Hu, Hr, Hc.
    split; [|split; [|split; [|auto]]].
    + intros k Hk. apply elem_of_cons in Hk as [->|Hk]; [|now apply Hin].
      destruct (decide (i ∈ map fst l)) as [Hi'|Hi']; [now apply Hin|].
      rewrite (Hout i Hi'). apply lookup_delete_eq.
    + intros k Hk. apply not_elem_of_cons in Hk as [Hne Hk].
      rewrite (Hout k Hk). now apply lookup_delete_ne.
    + rewrite Ht, <- app_assoc. reflexivity.
Qed.

(** X15.  [reset] empties the source: nothing is visible and nothing is
    pooled afterwards.  Every record that was visible has been announced to
    [willHideItem], once, and none of them has gone to the pool; the update
    flag and the view are left alone. *)
Theorem reset_empties (s : State) :
  exists s',
    reset s = (Returned tt, s')
    /\ visibleItems s' = ∅
    /\ _itemQueues s' = ∅
    /\ trace s'
       = trace s ++ map (fun p => WillHideItem (snd p)) (map_to_list (visibleItems s))
    /\ _updating s' = _updating s
    /\ needsRender s' = needsRender s.
Proof.
  unfold reset. rewrite bind_modify, bind_gets.
  destruct (hideVisible_hides (map_to_list (visibleItems s)) (clearQueue s))
    as (s' & E & Hin & Hout & Ht & Hq & Hu & Hr & _).
  - apply NoDup_fst_map_to_list.
  - intros i item Hi. now apply elem_of_map_to_list.
  - exists s'. split; [exact E|]. split; [|auto].
    apply map_eq. intros k. rewrite lookup_empty.
    destruct (decide (k ∈ map fst (map_to_list (visibleItems s)))) as [Hk|Hk].
    + now apply Hin.
    + rewrite (Hout k Hk). cbn.
      destruct (visibleItems s !! k) as [item|] eqn:El; [|reflexivity].
      exfalso. apply Hk. apply list_elem_of_fmap. exists (k, item).
      split; [reflexivity|]. now apply elem_of_map_to_list.
Qed.

(** *** Hiding and showing again *)

(** [updateItem] when the layout computation returns: the record keeps its
    view reference, its reuse key and its index field, takes the fields of
    the layout that are given and is bound to the index. *)
Lemma updateItem_returns (item : IItem) (i : Index) (isNew : bool)
    (layout : IItemLayout) (s : State) :
  getItemContentLayout source i = Returned layout ->
  exists item',
    updateItem source item i isNew s
    = (Returned item',
       setVisibleItem i (Some item') (record (WillShowItem item') s))
    /\ ref item' = ref item
    /\ reuseID item' = reuseID item
    /\ index item' = index item
    /\ contentLayout item'
       = {| offset := default (offset (contentLayout item)) (layout_offset layout);
            size := default (size (contentLayout item)) (layout_size layout) |}
    /\ (isNew = false -> animated_opacity item' = 1).
Proof.
  intros Hl. unfold updateItem. rewrite Hl, !bind_modify.
  eexists. split; [reflexivity|].
  destruct (zIndex _ =? 0)%Z, (negb isNew || Qle_bool (showDuration source) 0) eqn:Es;
    cbn; repeat split; try reflexivity;
    intros ->; discriminate.
Qed.

(** X16.  A record that is hidden and has a reuse key is the one the next
    addition under that key shows: [queueItem] followed by [dequeueItem] for
    an index with the same reuse key returns the record with the same view
    reference, bound to the new index and shown at once, and the pool is as
    it was before the two calls.  The record still carries the index it was
    created for: [updateItem] does not write the index field. *)
Theorem queueItem_then_dequeueItem (i j : Index) (item : IItem)
    (layout : IItemLayout) (s : State) :
  getVisibleItem i s = Some item ->
  reuseID item <> EmptyString ->
  getReuseID source j = reuseID item ->
  getItemContentLayout source j = Returned layout ->
  exists s1 item' s2,
    queueItem i s = (Returned true, s1)
    /\ dequeueItem source j s1 = (Returned (Some item'), s2)
    /\ ref item' = ref item
    /\ index item' = index item
    /\ animated_opacity item' = 1
    /\ visibleItems s2 = <[j := item']> (delete i (visibleItems s))
    /\ (forall k, getQueue s2 k = getQueue s k).
Proof.
  intros Hv Hne Hkey Hl.
  destruct (queueItem_visible i item s Hv) as (s1 & E1 & Hv1 & _ & _ & Hq1 & _).
  destruct (Hq1 Hne) as [Hq1key Hq1other]. clear Hq1.
  destruct (_dequeueItem_returns (getReuseID source j) s1)
    as (s0 & E0 & Hq0key & Hq0other & Hv0 & _).
  rewrite Hkey, Hq1key, last_snoc in E0.
  rewrite Hkey, Hq1key, removelast_last in Hq0key.
  destruct (updateItem_returns (set_animated_opacity 0 item) j false layout s0 Hl)
    as (item' & Ei & Href & Hid & Hidx & _ & Hop).
  assert (Hq : forall s2, _itemQueues s2 = _itemQueues s0 ->
                          forall k, getQueue s2 k = getQueue s k).
  { intros s2 Hs2 k. unfold getQueue in *. rewrite Hs2.
    destruct (decide (k = reuseID item)) as [->|Hk]; [exact Hq0key|].
    rewrite Hq0other by (now rewrite Hkey). now apply Hq1other. }
  exists s1. unfold dequeueItem.
  rewrite Hkey, (bind_returned _ _ _ _ _ E0), (bind_returned _ _ _ _ _ Ei).
  destruct (shouldRenderItem source item' _ _).
  - rewrite bind_modify. eexists _, _. split; [exact E1|].
    split; [reflexivity|]. cbn.
    split; [exact Href|]. split; [exact Hidx|]. split; [now apply Hop|].
    split; [|now apply Hq].
    now rewrite insert_insert_eq, Hv0, Hv1.
  - eexists _, _. split; [exact E1|]. split; [reflexivity|]. cbn.
    split; [exact Href|]. split; [exact Hidx|]. split; [now apply Hop|].
    split; [|now apply Hq].
    now rewrite Hv0, Hv1.
Qed.

(** *** Requests for an update *)

(** X17.  An update that was aborted for lack of a record to reuse holds back
    the updates that follow: it has asked the view for a render, and until
    the view has rendered [setNeedsUpdate] without [force] returns at once
    and changes nothing, whatever the operations pending. *)
Theorem setNeedsUpdate_waits_for_render (options : UpdateOptions)
    (pre post : list (@IItemUpdate Index)) (failure : option string)
    (a : Index) (removed : option Index) (s s1 : State) :
  _updating s = false ->
  create options = false ->
  queue options = false \/ removed = None ->
  processUpdates source options pre None (set_updating true s) = (Returned true, s1) ->
  dequeue options = false \/ getQueue s1 (getReuseID source a) = [] ->
  exists s',
    updateItems source options
      {| yields := pre ++ {| add := Some a; remove := removed |} :: post;
         fails := failure |} s
    = (Returned tt, s')
    /\ forall itemUpdates,
        setNeedsUpdate source false itemUpdates s' = (Returned tt, s').
Proof.
  intros Hu Hc Hq Hpre Hd.
  destruct (processUpdate_aborts options a removed s1 Hc Hq Hd)
    as (s' & E & _ & Hr' & _).
  exists s'. split.
  - assert (Hloop : processUpdates source options
                      (pre ++ {| add := Some a; remove := removed |} :: post)
                      failure (set_updating true s) = (Returned false, s')).
    { rewrite processUpdates_app, (bind_returned _ _ _ _ _ Hpre).
      cbn [processUpdates]. now rewrite (bind_returned _ _ _ _ _ E). }
    rewrite updateItems_begins by exact Hu. cbn [yields fails].
    unfold try_catch. now rewrite (bind_returned _ _ _ _ _ Hloop).
  - intros itemUpdates. unfold setNeedsUpdate. now rewrite bind_gets, Hr'.
Qed.

(** *** View references *)

Lemma refsKept_refl (s : State) : refsKept s s.
Proof. intros Hf. exact Hf. Qed.

Lemma refsKept_trans (a b c : State) : refsKept a b -> refsKept b c -> refsKept a c.
Proof. unfold LayoutSource.refsKept. auto. Qed.

(** Every record of [s'] is a record of [s], or an update of one, and no two
    of them come from the same place; [origin] says from where. *)
Lemma refsFresh_embed (origin : Place -> Place -> Prop) (s s' : State) :
  (refCounter s <= refCounter s')%nat ->
  (forall p a, recordAt s' p = Some a ->
               exists p0 a0, origin p p0 /\ recordAt s p0 = Some a0
                             /\ ref a0 = ref a) ->
  (forall p q p0 a b, recordAt s' p = Some a -> recordAt s' q = Some b ->
                      origin p p0 -> origin q p0 -> p = q) ->
  refsKept s s'.
Proof.
  intros Hc Hfrom Hinj [Hu Hb]. split.
  - intros p q a b Ha Hb' Href.
    destruct (Hfrom p a Ha) as (p0 & a0 & Hp & Ha0 & Hr1).
    destruct (Hfrom q b Hb') as (q0 & b0 & Hq & Hb0 & Hr2).
    assert (p0 = q0) by (apply (Hu p0 q0 a0 b0); congruence). subst q0.
    apply (Hinj p q p0 a b); assumption.
  - intros p a Ha. destruct (Hfrom p a Ha) as (p0 & a0 & _ & Ha0 & Hr).
    specialize (Hb p0 a0 Ha0). lia.
Qed.

(** Records may go, and records may be updated in place. *)
Lemma refsFresh_within (s s' : State) :
  (refCounter s <= refCounter s')%nat ->
  (forall p a, recordAt s' p = Some a ->
               exists a0, recordAt s p = Some a0 /\ ref a0 = ref a) ->
  refsKept s s'.
Proof.
  intros Hc Hfrom. apply (refsFresh_embed eq); [exact Hc | |].
  - intros p a Ha. destruct (Hfrom p a Ha) as (a0 & Ha0 & Hr). eauto.
  - intros p q p0 a b _ _ -> ->. reflexivity.
Qed.

Lemma refsKept_queueItem (i : Index) : respects refsKept (queueItem i).
Proof.
  intros s. unfold queueItem. rewrite bind_gets.
  destruct (getVisibleItem i s) as [item|] eqn:Hv; [|apply refsKept_refl].
  rewrite !bind_modify.
  change (reuseID (set_animated_opacity 0 item)) with (reuseID item).
  destruct (String.eqb (reuseID item) EmptyString) eqn:Ee; cbn [negb].
  - rewrite bind_ret. cbn [snd]. apply refsFresh_within; [reflexivity|].
    intros [k|k n] a; cbn.
    + intros Hk. apply lookup_delete_Some in Hk as [_ Hk]. eauto.
    + eauto.
  - rewrite bind_assoc, bind_gets, bind_modify. cbn [snd].
    unfold getLazyArray. cbn [_itemQueues setVisibleItem set_visibleItems record
                              set_trace].
    remember (default [] (_itemQueues s !! reuseID item)) as q eqn:Eq.
    apply (refsFresh_embed
             (fun p p0 => (p = Pooled (reuseID item) (length q) /\ p0 = Visible i)
                          \/ (p <> Pooled (reuseID item) (length q) /\ p0 = p)));
      [reflexivity | |].
    + intros [k|k n] a; cbn.
      * intros Hk. apply lookup_delete_Some in Hk as [_ Hk].
        exists (Visible k), a. split; [right; split; [discriminate|]|]; auto.
      * unfold getQueue, getLazyArray. cbn. rewrite lookup_insert.
        destruct (decide (reuseID item = k)) as [<-|Hne]; cbn.
        -- intros Hn.
           apply lookup_app_Some in Hn as [Hn|[Hle Hn]].
           ++ exists (Pooled (reuseID item) n), a.
              split; [|split; [cbn; unfold getQueue, getLazyArray;
                               now rewrite <- Eq | reflexivity]].
              right. split; [|reflexivity].
              intros [= ->]. apply lookup_lt_Some in Hn. lia.
           ++ apply list_lookup_singleton_Some in Hn as [Hn <-].
              assert (n = length q) by lia. subst n.
              exists (Visible i), item. split; [left; auto|]. split; auto.
        -- intros Hn. exists (Pooled k n), a. split; [|split; auto].
           right. split; [|reflexivity]. intros [= -> _]. contradiction.
    + intros p p' p0 a b Ha Hb [[-> ->]|[Hp ->]] [[-> Hq]|[Hq Hq']];
        try reflexivity; try congruence.
      * subst p'. cbn in Hb. rewrite lookup_delete_eq in Hb. discriminate.
      * subst p. cbn in Ha. rewrite lookup_delete_eq in Ha. discriminate.
Qed.

Lemma removelast_lookup (q : list IItem) (n : nat) (a : IItem) :
  removelast q !! n = Some a -> q !! n = Some a.
Proof.
  destruct (last q) as [x|] eqn:El.
  - apply last_Some in El as [q0 ->]. rewrite removelast_last.
    intros Hn. now apply lookup_app_l_Some.
  - apply last_None in El as ->. cbn. intros Hn. exact Hn.
Qed.

Lemma _dequeueItem_refCounter (key : string) (s : State) :
  refCounter (snd (_dequeueItem key s)) = refCounter s.
Proof.
  unfold _dequeueItem. rewrite bind_gets, bind_modify.
  destruct (last _) as [item|]; [|reflexivity].
  destruct (negb _); reflexivity.
Qed.

Lemma refsKept_dequeueItem (j : Index) : respects refsKept (dequeueItem source j).
Proof.
  intros s. unfold dequeueItem.
  destruct (_dequeueItem_returns (getReuseID source j) s)
    as (s0 & E0 & Hkey & Hother & Hv0 & _).
  assert (Hc0 : refCounter s0 = refCounter s).
  { pose proof (_dequeueItem_refCounter (getReuseID source j) s) as Hc.
    now rewrite E0 in Hc. }
  assert (Hpop : refsKept s s0).
  { apply refsFresh_within; [lia|]. intros [k|k n] a; cbn.
    - rewrite Hv0. eauto.
    - destruct (decide (k = getReuseID source j)) as [->|Hne].
      + rewrite Hkey. intros Hn. apply removelast_lookup in Hn. eauto.
      + rewrite (Hother k Hne). eauto. }
  rewrite (bind_returned _ _ _ _ _ E0).
  destruct (last (getQueue s (getReuseID source j))) as [old|] eqn:El;
    [|exact Hpop].
  apply last_Some in El as [q0 Hq]. rewrite Hq, removelast_last in Hkey.
  destruct (updateItem_outcome old j false s0)
    as [(e & _ & Ee) | (item' & Ei & Href & _)].
  { rewrite (bind_thrown _ _ _ _ _ Ee). exact Hpop. }
  rewrite (bind_returned _ _ _ _ _ Ei).
  assert (Hshow : forall item'' s',
             ref item'' = ref old ->
             refCounter s' = refCounter s0 ->
             _itemQueues s' = _itemQueues s0 ->
             visibleItems s' = <[j := item'']> (visibleItems s0) ->
             refsKept s s').
  { intros item'' s' Hr Hc Hqs Hvs.
    apply (refsFresh_embed
             (fun p p0 =>
                (p = Visible j /\ p0 = Pooled (getReuseID source j) (length q0))
                \/ (p <> Visible j /\ p0 = p))); [lia | |].
    - intros [k|k n] a; cbn.
      + rewrite Hvs, lookup_insert.
        destruct (decide (j = k)) as [<-|Hne]; cbn.
        * intros [= <-]. exists (Pooled (getReuseID source j) (length q0)), old.
          split; [left; auto|]. split; [|congruence].
          cbn. rewrite Hq. apply list_lookup_middle. reflexivity.
        * rewrite Hv0. intros Hk. exists (Visible k), a.
          split; [right; split; [congruence | reflexivity]|]. auto.
      + unfold getQueue in *. rewrite Hqs. intros Hn.
        exists (Pooled k n), a. split; [right; split; [discriminate|reflexivity]|].
        split; [|reflexivity]. cbn. unfold getQueue.
        destruct (decide (k = getReuseID source j)) as [->|Hne].
        * rewrite Hkey in Hn. rewrite Hq. now apply lookup_app_l_Some.
        * now rewrite <- (Hother k Hne).
    - intros p p' p0 a b Ha Hb [[-> ->]|[Hp ->]] [[-> Hp']|[Hp' Hp'']];
        try reflexivity; try congruence.
      + subst p'. cbn in Hb. unfold getQueue in *. rewrite Hqs, Hkey in Hb.
        apply lookup_lt_Some in Hb. lia.
      + subst p. cbn in Ha. unfold getQueue in *. rewrite Hqs, Hkey in Ha.
        apply lookup_lt_Some in Ha. lia. }
  destruct (shouldRenderItem source item' _ _).
  - rewrite bind_modify. cbn [snd].
    apply (Hshow (set_animated_renderNonce (now source) item'));
      [exact Href | reflexivity | reflexivity |].
    cbn. apply insert_insert_eq.
  - cbn [snd]. apply (Hshow item'); [exact Href | reflexivity | reflexivity|].
    reflexivity.
Qed.

(** A record created with the next reference of the view. *)
Lemma refsFresh_created (a : Index) (item : IItem) (s s' : State) :
  ref item = refCounter s ->
  refCounter s' = S (refCounter s) ->
  _itemQueues s' = _itemQueues s ->
  visibleItems s' = <[a := item]> (visibleItems s) ->
  refsKept s s'.
Proof.
  intros Hr Hc Hqs Hvs [Hu Hb].
  assert (Hfrom : forall p x, recordAt s' p = Some x ->
                              (p = Visible a /\ x = item)
                              \/ recordAt s p = Some x).
  { intros [k|k n] x; cbn.
    - rewrite Hvs, lookup_insert. destruct (decide (a = k)) as [<-|Hne]; cbn.
      + intros [= <-]. left. auto.
      + auto.
    - unfold getQueue. rewrite Hqs. auto. }
  split.
  - intros p q x y Hx Hy Hxy.
    destruct (Hfrom p x Hx) as [[-> ->]|Hx'], (Hfrom q y Hy) as [[-> ->]|Hy'].
    + reflexivity.
    + specialize (Hb q y Hy'). lia.
    + specialize (Hb p x Hx'). lia.
    + now apply (Hu p q x y).
  - intros p x Hx. destruct (Hfrom p x Hx) as [[-> ->]|Hx'].
    + lia.
    + specialize (Hb p x Hx'). lia.
Qed.

Lemma refsKept_createItem (a : Index) : respects refsKept (createItem source a).
Proof.
  intros s. unfold createItem, view_createItemViewRef.
  rewrite !bind_assoc, bind_gets, bind_assoc, bind_modify, bind_ret.
  match goal with
  | |- context [updateItem source ?item a true ?s1] =>
      destruct (updateItem_outcome item a true s1)
        as [(e & _ & Ee) | (item' & Ei & Href & _)]
  end.
  - rewrite Ee. cbn [snd]. apply refsFresh_within; [cbn; lia|].
    intros p x Hx. exists x. split; [|reflexivity]. destruct p; exact Hx.
  - rewrite Ei. cbn [snd].
    apply (refsFresh_created a item'); [exact Href | reflexivity..].
Qed.

Lemma refsKept_updateItem_visible (i : Index) (item : IItem) (isNew : bool)
    (s : State) :
  visibleItems s !! i = Some item ->
  refsKept s (snd (updateItem source item i isNew s)).
Proof.
  intros Hv.
  destruct (updateItem_outcome item i isNew s)
    as [(e & _ & Ee) | (item' & Ei & Href & _)].
  - rewrite Ee. apply refsKept_refl.
  - rewrite Ei. cbn [snd]. apply refsFresh_within; [reflexivity|].
    intros [k|k n] x; cbn.
    + rewrite lookup_insert. destruct (decide (i = k)) as [<-|Hne]; cbn.
      * intros [= <-]. eauto.
      * eauto.
    + eauto.
Qed.

Create HintDb refsKept.
#[local] Hint Resolve refsKept_refl refsKept_queueItem refsKept_dequeueItem
  refsKept_createItem : refsKept.

Ltac refsKept_method :=
  respects_walk refsKept_refl refsKept_trans
    ltac:(first [ solve [eauto with refsKept]
                | solve [intros Hfresh; exact Hfresh] ]).

Lemma refsKept_processUpdate (options : UpdateOptions) (op : @IItemUpdate Index) :
  respects refsKept (processUpdate source options op).
Proof.
  unfold processUpdate, cancelUpdate, endUpdate, view_setNeedsRender.
  refsKept_method.
Qed.
#[local] Hint Resolve refsKept_processUpdate : refsKept.

Lemma refsKept_processUpdates (options : UpdateOptions)
    (ops : list (@IItemUpdate Index)) (failure : option string) :
  respects refsKept (processUpdates source options ops failure).
Proof.
  induction ops as [|op ops IH]; cbn [processUpdates]; refsKept_method.
Qed.

Lemma refsKept_updateVisible (indexes : list Index) :
  respects refsKept (updateVisible source indexes).
Proof.
  induction indexes as [|i indexes IH]; cbn [updateVisible]; [refsKept_method|].
  intros s. rewrite bind_modify, bind_gets.
  destruct (getVisibleItem i (record (UpdateVisible i) s)) as [item|] eqn:Hv.
  - pose proof (refsKept_updateItem_visible i item false
                  (record (UpdateVisible i) s) Hv) as Hi.
    unfold bind.
    destruct (updateItem source item i false (record (UpdateVisible i) s))
      as [[item'|e] s1]; cbn [snd] in *.
    + apply (refsKept_trans s s1); [exact Hi | exact (IH s1)].
    + exact Hi.
  - exact (IH (record (UpdateVisible i) s)).
Qed.
#[local] Hint Resolve refsKept_processUpdates refsKept_updateVisible : refsKept.

Lemma refsKept_updateItems (options : UpdateOptions)
    (itemUpdates : @ItemUpdates Index) :
  respects refsKept (updateItems source options itemUpdates).
Proof.
  unfold updateItems, beginUpdate, commitUpdate, cancelUpdate, endUpdate.
  refsKept_method.
Qed.

Lemma refsFresh_constructed : refsFresh (@constructed Index _ _).
Proof.
  split.
  - intros [k|k n] q a b Ha; cbn in Ha.
    + rewrite lookup_empty in Ha. discriminate.
    + unfold getQueue, getLazyArray in Ha. cbn in Ha.
      rewrite lookup_empty in Ha. discriminate.
  - intros [k|k n] a Ha; cbn in Ha.
    + rewrite lookup_empty in Ha. discriminate.
    + unfold getQueue, getLazyArray in Ha. cbn in Ha.
      rewrite lookup_empty in Ha. discriminate.
Qed.

(** X23.  No view reference is ever held by two records: when the records of
    the source, visible or pooled, have pairwise different view references,
    all handed out by the view, they still have after [queueItem],
    [dequeueItem], [createItem] and every [updateItems], however these end.
    A record is moved between the visible map and the pool, never copied, and
    a created record takes the next reference of the view. *)
Theorem view_references_stay_unique (s : State) :
  refsFresh s ->
  (forall options itemUpdates,
      refsFresh (snd (updateItems source options itemUpdates s)))
  /\ (forall i,
        refsFresh (snd (queueItem i s))
        /\ refsFresh (snd (dequeueItem source i s))
        /\ refsFresh (snd (createItem source i s))).
Proof.
  intros Hf. split.
  - intros options itemUpdates.
    now apply (refsKept_updateItems options itemUpdates s).
  - intros i. split; [|split].
    + now apply (refsKept_queueItem i s).
    + now apply (refsKept_dequeueItem i s).
    + now apply (refsKept_createItem i s).
Qed.

(** *** The pass over the visible items *)

Lemma updateVisible_lays_out (l : list (Index * IItem)) (s : State) :
  NoDup (map fst l) ->
  (forall i item, (i, item) ∈ l -> visibleItems s !! i = Some item) ->
  (forall i, i ∈ map fst l ->
             exists layout, getItemContentLayout source i = Returned layout) ->
  exists s',
    updateVisible source (map fst l) s = (Returned tt, s')
    /\ (forall i item, (i, item) ∈ l ->
          exists item' layout,
            visibleItems s' !! i = Some item'
            /\ getItemContentLayout source i = Returned layout
            /\ ref item' = ref item
            /\ contentLayout item'
               = {| offset := default (offset (contentLayout item))
                                      (layout_offset layout);
                    size := default (size (contentLayout item))
                                    (layout_size layout) |}
            /\ animated_opacity item' = 1)
    /\ (forall k, k ∉ map fst l -> visibleItems s' !! k = visibleItems s !! k)
    /\ _itemQueues s' = _itemQueues s
    /\ _updating s' = _updating s
    /\ needsRender s' = needsRender s.
Proof.
  revert s. induction l as [|[i item] l IH]; intros s Hnd Hl Hlay.
  - exists s. split; [reflexivity|]. split; [|auto].
    intros i item Hin. inversion Hin.
  - cbn [map fst updateVisible]. apply NoDup_cons in Hnd as [Hi Hnd].
    rewrite bind_modify, bind_gets. unfold getVisibleItem.
    change (visibleItems (record (UpdateVisible i) s)) with (visibleItems s).
    rewrite (Hl i item) by left.
    destruct (Hlay i) as [layout Hlayout]; [left|].
    destruct (updateItem_returns item i false layout
                (record (UpdateVisible i) s) Hlayout)
      as (item' & Ei & Href & _ & _ & Hcl & Hop).
    rewrite (bind_returned _ _ _ _ _ Ei).
    match goal with
    | |- context [updateVisible source (map fst l) ?s1] =>
        destruct (IH s1) as (s' & E & Hdone & Hout & Hq & Hu & Hr)
    end; [exact Hnd | |  |].
    { intros j x Hj. cbn. rewrite lookup_insert_ne.
      - apply Hl. now right.
      - intros <-. apply Hi. apply list_elem_of_fmap. now exists (i, x). }
    { intros j Hj. apply Hlay. now right. }
    exists s'. split; [exact E|]. cbn in Hout, Hq, Hu, Hr.
    split; [|split; [|auto]].
    + intros j x Hj. apply elem_of_cons in Hj as [[= -> ->]|Hj].
      * exists item', layout. rewrite (Hout i Hi), lookup_insert_eq.
        split; [reflexivity|]. split; [exact Hlayout|]. auto.
      * now apply Hdone.
    + intros k Hk. apply not_elem_of_cons in Hk as [Hne Hk].
      rewrite (Hout k Hk). now apply lookup_insert_ne.
Qed.

(** X26.  An update with the [update] option and no operation lays out every
    visible record again: when the layout computation returns for every
    visible index, [updateItems] returns, and each record that was visible is
    still bound to its index, with the same view reference, shown, and with
    the content layout computed for that index (a field the computation
    leaves out keeps its value).  No index becomes visible, the pool is
    untouched and the source is not left updating. *)
Theorem updateItems_lays_out_visible (options : UpdateOptions) (s : State) :
  _updating s = false ->
  update options = true ->
  (forall i item, visibleItems s !! i = Some item ->
                  exists layout, getItemContentLayout source i = Returned layout) ->
  exists s',
    updateItems source options {| yields := []; fails := None |} s
    = (Returned tt, s')
    /\ (forall i item, visibleItems s !! i = Some item ->
          exists item' layout,
            visibleItems s' !! i = Some item'
            /\ getItemContentLayout source i = Returned layout
            /\ ref item' = ref item
            /\ contentLayout item'
               = {| offset := default (offset (contentLayout item))
                                      (layout_offset layout);
                    size := default (size (contentLayout item))
                                    (layout_size layout) |}
            /\ animated_opacity item' = 1)
    /\ (forall i, visibleItems s !! i = None -> visibleItems s' !! i = None)
    /\ _itemQueues s' = _itemQueues s
    /\ _updating s' = false.
Proof.
  intros Hu Hup Hlay.
  rewrite updateItems_begins by exact Hu. cbn [yields fails processUpdates].
  unfold try_catch. rewrite bind_ret, Hup, bind_assoc, bind_gets.
  unfold visibleIndexes.
  change (visibleItems (set_updating true s)) with (visibleItems s).
  destruct (updateVisible_lays_out (map_to_list (visibleItems s))
              (set_updating true s))
    as (s' & E & Hdone & Hout & Hq & _).
  - apply NoDup_fst_map_to_list.
  - intros i item Hi. now apply elem_of_map_to_list.
  - intros i Hi. apply list_elem_of_fmap in Hi as ([j item] & -> & Hin).
    apply elem_of_map_to_list in Hin. now apply (Hlay j item).
  - rewrite (bind_returned _ _ _ _ _ E).
    eexists. split; [reflexivity|]. cbn.
    split; [|split; [|split; [exact Hq | reflexivity]]].
    + intros i item Hi. apply Hdone. now apply elem_of_map_to_list.
    + intros i Hi. rewrite Hout; [exact Hi|].
      intros Hin. apply list_elem_of_fmap in Hin as ([j item] & -> & Hin).
      apply elem_of_map_to_list in Hin. cbn in Hi. congruence.
Qed.

End Props.

(** *** The sample source *)

Section Samples.
Import LayoutSource.




(** The abort of the scenario: row 2 is retired under key A, the addition of
    row 5 finds the stack of key B empty and creation disabled, and the
    addition of row 6 is never reached. *)
Lemma updateItems_aborts_without_record_witness :
  exists s',
    updateItems keyedRows defaultOptions
      {| yields := [ {| add := None; remove := Some 2%Z |} ]
                   ++ {| add := Some 5%Z; remove := None |}
                   :: [ {| add := Some 6%Z; remove := None |} ];
         fails := None |}
      rows234Visible
    = (Returned tt, s')
    /\ _updating s' = false
    /\ needsRender s' = true
    /\ trace s'
       = trace (snd (processUpdates keyedRows defaultOptions
                       [ {| add := None; remove := Some 2%Z |} ] None
                       (set_updating true rows234Visible)))
         ++ [Addition 5%Z; SetNeedsRender]
    /\ visibleItems s'
       = visibleItems (snd (processUpdates keyedRows defaultOptions
                              [ {| add := None; remove := Some 2%Z |} ] None
                              (set_updating true rows234Visible)))
    /\ (forall k,
          getQueue s' k
          = getQueue (snd (processUpdates keyedRows defaultOptions
                             [ {| add := None; remove := Some 2%Z |} ] None
                             (set_updating true rows234Visible))) k).
Proof.
  apply (updateItems_aborts_without_record keyedRows defaultOptions
           [ {| add := None; remove := Some 2%Z |} ]
           [ {| add := Some 6%Z; remove := None |} ]
           None 5%Z None rows234Visible).
  - reflexivity.
  - reflexivity.
  - right. reflexivity.
  - vm_compute. reflexivity.
  - right. vm_compute. reflexivity.
Defined.

Lemma poolScoped_row0Pooled : poolScoped row0Pooled.
Proof.
  intros key item. unfold getQueue, getLazyArray, row0Pooled. cbn.
  rewrite lookup_singleton. destruct (decide ("1" = key)) as [<-|Hne]; cbn.
  - intros Hin. apply list_elem_of_singleton in Hin. subst item.
    split; [reflexivity | discriminate].
  - intros Hin. now apply elem_of_nil in Hin.
Qed.

Lemma recycling_scoped_and_lifo_witness :
  poolScoped
    (snd (updateItems rows defaultOptions
            {| yields := [ {| add := Some 5%Z; remove := None |} ]; fails := None |}
            row0Pooled)).
Proof.
  apply (recycling_scoped_and_lifo rows row0Pooled).
  apply poolScoped_row0Pooled.
Defined.

(** Rows 2, 3 and 4 are retired in that order, under the keys A, B and A.
    A request for row 6 (key A) then gets the record retired last under A,
    that of row 4; a request for row 5 (key B) gets the record of row 3, and a
    second request under B gets nothing although two records wait under A.
    Row 0, whose reuse key is empty, is never pooled. *)
Example recycling_scenario :
  map ref (getQueue
             (run_removals keyedRows [2%Z; 3%Z; 4%Z] rows234Visible) "A")
  = [0%nat; 2%nat]
  /\ option_map ref
       (returned (fst (dequeueItem keyedRows 6%Z
                         (run_removals keyedRows [2%Z; 3%Z; 4%Z] rows234Visible))))
     = Some 2%nat
  /\ option_map ref
       (returned (fst (dequeueItem keyedRows 5%Z
                         (run_removals keyedRows [2%Z; 3%Z; 4%Z] rows234Visible))))
     = Some 1%nat
  /\ returned (fst (dequeueItem keyedRows 7%Z
                      (snd (dequeueItem keyedRows 5%Z
                              (run_removals keyedRows [2%Z; 3%Z; 4%Z]
                                 rows234Visible)))))
     = None
  /\ _itemQueues
       (snd (queueItem 0%Z
               (set_visibleItems {[ 0%Z := rowItem 0 0 EmptyString ]} constructed)))
     = ∅.
Proof. vm_compute. repeat split. Qed.

Lemma queueItem_then_dequeueItem_witness :
  exists s1 item' s2,
    queueItem 2%Z row2Visible = (Returned true, s1)
    /\ dequeueItem rows 5%Z s1 = (Returned (Some item'), s2)
    /\ ref item' = ref (rowItem 2 0 "1")
    /\ index item' = index (rowItem 2 0 "1")
    /\ animated_opacity item' = 1
    /\ visibleItems s2 = <[5%Z := item']> (delete 2%Z (visibleItems row2Visible))
    /\ (forall k, getQueue s2 k = getQueue row2Visible k).
Proof.
  apply (queueItem_then_dequeueItem rows 2%Z 5%Z (rowItem 2 0 "1")
           {| layout_offset := Some {| x := 0; y := inject_Z 5 * 50 |};
              layout_size := Some {| x := 300; y := 50 |} |}
           row2Visible).
  - reflexivity.
  - discriminate.
  - reflexivity.
  - reflexivity.
Defined.

Lemma setNeedsUpdate_waits_for_render_witness :
  exists s',
    updateItems keyedRows defaultOptions
      {| yields := [ {| add := None; remove := Some 2%Z |} ]
                   ++ {| add := Some 5%Z; remove := None |}
                   :: [ {| add := Some 6%Z; remove := None |} ];
         fails := None |}
      rows234Visible
    = (Returned tt, s')
    /\ forall itemUpdates,
        setNeedsUpdate keyedRows false itemUpdates s' = (Returned tt, s').
Proof.
  apply (setNeedsUpdate_waits_for_render keyedRows defaultOptions
           [ {| add := None; remove := Some 2%Z |} ]
           [ {| add := Some 6%Z; remove := None |} ]
           None 5%Z None rows234Visible
           (snd (processUpdates keyedRows defaultOptions
                   [ {| add := None; remove := Some 2%Z |} ] None
                   (set_updating true rows234Visible)))).
  - reflexivity.
  - reflexivity.
  - right. reflexivity.
  - vm_compute. reflexivity.
  - right. vm_compute. reflexivity.
Defined.

Lemma updateItems_creating_asks_no_render_witness :
  needsRender (snd (updateItems brokenRows
                      {| queue := true; dequeue := true; create := true;
                         update := true |}
                      {| yields := [ {| add := Some 0%Z; remove := None |};
                                     {| add := Some 1%Z; remove := None |} ];
                         fails := None |}
                      row2Visible))
  = needsRender row2Visible
  /\ fst (processUpdates brokenRows
            {| queue := true; dequeue := true; create := true; update := true |}
            [ {| add := Some 0%Z; remove := None |};
              {| add := Some 1%Z; remove := None |} ] None
            (set_updating true row2Visible)) <> Returned false.
Proof.
  apply (updateItems_creating_asks_no_render brokenRows
           {| queue := true; dequeue := true; create := true; update := true |}
           {| yields := [ {| add := Some 0%Z; remove := None |};
                          {| add := Some 1%Z; remove := None |} ];
              fails := None |}
           row2Visible); reflexivity.
Defined.

Lemma view_references_stay_unique_witness :
  (forall options itemUpdates,
      refsFresh (snd (updateItems rows options itemUpdates constructed)))
  /\ (forall i,
        refsFresh (snd (queueItem i constructed))
        /\ refsFresh (snd (dequeueItem rows i constructed))
        /\ refsFresh (snd (createItem rows i constructed))).
Proof.
  apply (view_references_stay_unique rows constructed).
  apply refsFresh_constructed.
Defined.

Lemma updateItems_lays_out_visible_witness :
  exists s',
    updateItems rows
      {| queue := true; dequeue := true; create := false; update := true |}
      {| yields := []; fails := None |} rows234Visible
    = (Returned tt, s')
    /\ (forall i item, visibleItems rows234Visible !! i = Some item ->
          exists item' layout,
            visibleItems s' !! i = Some item'
            /\ getItemContentLayout rows i = Returned layout
            /\ ref item' = ref item
            /\ contentLayout item'
               = {| offset := default (offset (contentLayout item))
                                      (layout_offset layout);
                    size := default (size (contentLayout item))
                                    (layout_size layout) |}
            /\ animated_opacity item' = 1)
    /\ (forall i, visibleItems rows234Visible !! i = None ->
                  visibleItems s' !! i = None)
    /\ _itemQueues s' = _itemQueues rows234Visible
    /\ _updating s' = false.
Proof.
  apply (updateItems_lays_out_visible rows
           {| queue := true; dequeue := true; create := false; update := true |}
           rows234Visible).
  - reflexivity.
  - reflexivity.
  - intros i item _. eexists. reflexivity.
Defined.

End Samples.

(** *** Geometry *)

Section GeometryProps.
Import LayoutSource.

Lemma Qltb_false (a b : Q) : Qltb a b = false <-> b <= a.
Proof.
  rewrite <- not_true_iff_false, Qltb_lt.
  split; [apply Qnot_lt_le | apply Qle_not_lt].
Qed.



(** The flipped item of the sample: 5 rows of content are 10 pixels high,
    and the rectangle ends where the content offset is. *)
Example getItemViewLayout_sample :
  size (getItemViewLayout
          {| offset := {| x := 1; y := 1 |}; size := {| x := 4; y := 5 |} |}
          flippedGeometry doubleView)
  = {| x := 4 * (1 * 2); y := - (5 * (- (1) * 2)) |}.
Proof. reflexivity. Qed.

(** X19.  [getContainerLocation] adds the origin to no coordinate that is not
    zero: on an axis where the sticky or inset-adjusted coordinate is not
    zero, that coordinate is returned whatever the origin; where it is zero,
    the scaled origin is returned in its place. *)
Theorem getContainerLocation_origin (point : IPoint) (g : Geometry) (view : Grid) :
  (~ x (insetContainerLocation point g view) == 0 ->
   forall origin,
     x (getContainerLocation point (set_origin origin g) view)
     = x (insetContainerLocation point g view))
  /\ (~ y (insetContainerLocation point g view) == 0 ->
      forall origin,
        y (getContainerLocation point (set_origin origin g) view)
        = y (insetContainerLocation point g view))
  /\ (x (insetContainerLocation point g view) == 0 ->
      x (getContainerLocation point g view)
      == x (_origin g) * x (getScale g view))
  /\ (y (insetContainerLocation point g view) == 0 ->
      y (getContainerLocation point g view)
      == y (_origin g) * y (getScale g view)).
Proof.
  unfold getContainerLocation.
  change (insetContainerLocation point (set_origin ?o g) view)
    with (insetContainerLocation point g view).
  repeat split.
  - intros Hx origin. apply isZero_false in Hx. cbn. now rewrite Hx.
  - intros Hy origin. apply isZero_false in Hy. cbn. now rewrite Hy.
  - intros Hx. apply isZero_true in Hx. cbn. rewrite Hx. cbn. ring.
  - intros Hy. apply isZero_true in Hy. cbn. rewrite Hy. cbn. ring.
Qed.

Lemma getContainerLocation_origin_witness :
  (forall origin,
     x (getContainerLocation {| x := 1; y := 0 |}
          (set_origin origin flippedGeometry) doubleView)
     = x (insetContainerLocation {| x := 1; y := 0 |} flippedGeometry doubleView))
  /\ y (getContainerLocation {| x := 1; y := 0 |} flippedGeometry doubleView)
     == y (_origin flippedGeometry) * y (getScale flippedGeometry doubleView).
Proof.
  destruct (getContainerLocation_origin {| x := 1; y := 0 |} flippedGeometry
              doubleView) as (Hx & _ & _ & Hy).
  split.
  - apply Hx. cbn. intros Hz. discriminate Hz.
  - apply Hy. vm_compute. reflexivity.
Defined.

(** X20.  With insets that are not negative and a scale without a zero
    component, the offset [getLocationInsetOffset] gives is not negative: it
    is the inset of the leading edge in content units, the left or top one
    when the scale is positive, the right or bottom one when it is
    negative. *)
Theorem getLocationInsetOffset_leading (g : Geometry) (view : Grid) :
  0 <= inset_top (_insets g) ->
  0 <= inset_right (_insets g) ->
  0 <= inset_bottom (_insets g) ->
  0 <= inset_left (_insets g) ->
  ~ x (getScale g view) == 0 ->
  ~ y (getScale g view) == 0 ->
  0 <= x (getLocationInsetOffset g view)
  /\ 0 <= y (getLocationInsetOffset g view)
  /\ x (getLocationInsetOffset g view)
     == (if Qltb 0 (x (getScale g view))
         then inset_left (_insets g) / x (getScale g view)
         else - inset_right (_insets g) / x (getScale g view))
  /\ y (getLocationInsetOffset g view)
     == (if Qltb 0 (y (getScale g view))
         then inset_top (_insets g) / y (getScale g view)
         else - inset_bottom (_insets g) / y (getScale g view)).
Proof.
  intros Ht Hr Hb Hl Hx Hy. unfold getLocationInsetOffset. cbn [x y].
  set (sx := x (getScale g view)) in *. set (sy := y (getScale g view)) in *.
  assert (Hpos : forall a k, 0 <= a -> 0 < k -> 0 <= a / k).
  { intros a k Ha Hk. apply Qle_shift_div_l; [exact Hk|]. lra. }
  assert (Hneg : forall a k, 0 <= a -> k < 0 -> 0 <= - a / k).
  { intros a k Ha Hk.
    assert (E : - a / k == a / - k) by (field; lra). rewrite E.
    apply Hpos; lra. }
  assert (Hneg' : forall a k, 0 <= a -> k < 0 -> a / k <= 0).
  { intros a k Ha Hk.
    assert (E : a / k == - (- a / k)) by (field; lra). rewrite E.
    pose proof (Hneg a k Ha Hk). lra. }
  assert (Hpos' : forall a k, 0 <= a -> 0 < k -> - a / k <= 0).
  { intros a k Ha Hk.
    assert (E : - a / k == - (a / k)) by (field; lra). rewrite E.
    pose proof (Hpos a k Ha Hk). lra. }
  assert (Hmax : forall a b k,
             0 <= a -> 0 <= b -> ~ k == 0 ->
             0 <= Math_max (a / k) (- b / k)
             /\ Math_max (a / k) (- b / k)
                == (if Qltb 0 k then a / k else - b / k)).
  { intros a b k Ha Hb' Hk. unfold Math_max.
    destruct (Qltb 0 k) eqn:Ek.
    - apply Qltb_lt in Ek.
      pose proof (Hpos a k Ha Ek) as P1. pose proof (Hpos' b k Hb' Ek) as P2.
      destruct (Qltb (a / k) (- b / k)) eqn:Em.
      + apply Qltb_lt in Em. lra.
      + split; [assumption | reflexivity].
    - apply Qltb_false in Ek. assert (Hk' : k < 0) by lra.
      pose proof (Hneg b k Hb' Hk') as P1. pose proof (Hneg' a k Ha Hk') as P2.
      destruct (Qltb (a / k) (- b / k)) eqn:Em.
      + split; [assumption | reflexivity].
      + apply Qltb_false in Em. split; lra. }
  destruct (Hmax (inset_left (_insets g)) (inset_right (_insets g)) sx Hl Hr Hx).
  destruct (Hmax (inset_top (_insets g)) (inset_bottom (_insets g)) sy Ht Hb Hy).
  auto.
Qed.

Lemma getLocationInsetOffset_leading_witness :
  0 <= x (getLocationInsetOffset flippedGeometry doubleView)
  /\ 0 <= y (getLocationInsetOffset flippedGeometry doubleView)
  /\ x (getLocationInsetOffset flippedGeometry doubleView)
     == (if Qltb 0 (x (getScale flippedGeometry doubleView))
         then inset_left (_insets flippedGeometry)
              / x (getScale flippedGeometry doubleView)
         else - inset_right (_insets flippedGeometry)
              / x (getScale flippedGeometry doubleView))
  /\ y (getLocationInsetOffset flippedGeometry doubleView)
     == (if Qltb 0 (y (getScale flippedGeometry doubleView))
         then inset_top (_insets flippedGeometry)
              / y (getScale flippedGeometry doubleView)
         else - inset_bottom (_insets flippedGeometry)
              / y (getScale flippedGeometry doubleView)).
Proof.
  apply (getLocationInsetOffset_leading flippedGeometry doubleView).
  - cbn. unfold Qle. cbn. lia.
  - cbn. unfold Qle. cbn. lia.
  - cbn. unfold Qle. cbn. lia.
  - cbn. unfold Qle. cbn. lia.
  - cbn. intros Hz. discriminate Hz.
  - cbn. intros Hz. discriminate Hz.
Defined.

Lemma get_set_inset_eq (insetKey : InsetEdge) (v : Q) (insets : IInsets) :
  get_inset insetKey (set_inset insetKey v insets) = v.
Proof. destruct insetKey; reflexivity. Qed.

Lemma get_set_inset_ne (insetKey k : InsetEdge) (v : Q) (insets : IInsets) :
  k <> insetKey -> get_inset k (set_inset insetKey v insets) = get_inset k insets.
Proof. destruct insetKey, k; try reflexivity; intros Hk; contradiction. Qed.

(** X21.  The mirrored inset never lags the animated one by a pixel or more:
    after any values of the animated inset, the mirrored value is less than
    one away from the last of them, and the other three insets are as they
    were. *)
Theorem inset_events_within_one (insetKey : InsetEdge) (values : list Q)
    (value : Q) (insets : IInsets) :
  Qabs (value - get_inset insetKey
                  (inset_events insetKey (values ++ [value]) insets)) < 1
  /\ forall k, k <> insetKey ->
       get_inset k (inset_events insetKey (values ++ [value]) insets)
       = get_inset k insets.
Proof.
  split.
  - unfold inset_events. rewrite fold_left_app. cbn [fold_left].
    fold (inset_events insetKey values insets).
    unfold inset_listener.
    destruct (Qltb (Qabs (value - get_inset insetKey
                                    (inset_events insetKey values insets))) 1)
      eqn:E; cbn [fst].
    + now apply Qltb_lt in E.
    + rewrite get_set_inset_eq.
      assert (E0 : value - value == 0) by ring. rewrite E0. reflexivity.
  - intros k Hk. generalize (values ++ [value]). intros l. revert insets.
    induction l as [|v l IH]; intros insets; [reflexivity|].
    unfold inset_events in *. cbn [fold_left]. rewrite IH.
    unfold inset_listener.
    destruct (Qltb _ 1); cbn [fst]; [reflexivity|].
    now apply get_set_inset_ne.
Qed.

Lemma inset_events_within_one_witness :
  Qabs ((17 # 5) - get_inset Edge_top
                     (inset_events Edge_top ([1 # 2; 3] ++ [17 # 5])
                        (_insets flippedGeometry))) < 1
  /\ forall k, k <> Edge_top ->
       get_inset k (inset_events Edge_top ([1 # 2; 3] ++ [17 # 5])
                      (_insets flippedGeometry))
       = get_inset k (_insets flippedGeometry).
Proof.
  apply (inset_events_within_one Edge_top [1 # 2; 3] (17 # 5)
           (_insets flippedGeometry)).
Defined.

(** The values 10.5, 11.2 and 11.6 of an inset mirrored at 10: the first is
    dropped, the second stored, the third dropped again. *)
Example inset_events_sample :
  get_inset Edge_top
    (inset_events Edge_top [21 # 2; 56 # 5; 58 # 5] (_insets flippedGeometry))
  = 56 # 5.
Proof. reflexivity. Qed.

End GeometryProps.

End LayoutSourceProps.
